(** * secretlint: the scanner package (rules.go, differ.go, ignore.go)

    A shallow embedding of the three files of [internal/scanner], of the scan
    command of package [cli] that calls them, and of the parts of the Go
    runtime they call ([regexp], [bufio.Scanner], [strconv.Atoi],
    [strings.TrimSpace], [unicode/utf8], [path/filepath] on a slash-separated
    system), followed by the properties of the specification and by further
    properties of the code.

    Conventions.
    - A Go [string] is an immutable sequence of bytes: [gostring] is
      [list ascii]; [len(s)] is [length s] and [s[i:j]] is [slice s i j].
    - A Go [int] is a 64-bit two's complement integer: a [Z] kept in range
      by [wrap64].
    - A Go [rune] is a [Z]. *)

From Stdlib Require Import String Ascii List ZArith Lia Bool Arith PeanoNat Sorted
  DecimalString.
Import ListNotations.

Local Open Scope Z_scope.

(* ================================================================== *)
(** ** Go strings *)

Definition gostring : Type := list ascii.

(** A Go string literal. *)
Definition str (s : string) : gostring := list_ascii_of_string s.

(** The byte of the double quote, which the literals below cannot hold. *)
Definition dquote : ascii := ascii_of_nat 34.

Definition byteZ (c : ascii) : Z := Z.of_N (N_of_ascii c).
Definition byte_of_Z (z : Z) : ascii := ascii_of_N (Z.to_N z).

(** [s[i:j]] for [i <= j <= len(s)]. *)
Definition slice (s : gostring) (i j : nat) : gostring := firstn (j - i)%nat (skipn i s).

Definition gostring_eqb (a b : gostring) : bool :=
  if list_eq_dec ascii_dec a b then true else false.

(** [strings.HasPrefix]. *)
Fixpoint HasPrefix (s prefix : gostring) {struct prefix} : bool :=
  match prefix, s with
  | [], _ => true
  | p :: prefix', c :: s' => Ascii.eqb c p && HasPrefix s' prefix'
  | _ :: _, [] => false
  end.

(** [strings.Repeat] of a one-byte string. *)
Definition Repeat1 (c : ascii) (count : nat) : gostring := repeat c count.

(** Go's [int] on a 64-bit platform. *)
Definition MaxInt64 : Z := 9223372036854775807.
Definition MinInt64 : Z := -9223372036854775808.
Definition wrap64 (z : Z) : Z := (z + 2 ^ 63) mod 2 ^ 64 - 2 ^ 63.

(* ================================================================== *)
(** ** unicode/utf8 *)

Definition RuneError : Z := 65533.
Definition RuneSelf : Z := 128.
Definition MaxRune : Z := 1114111.

Definition between (lo x hi : Z) : bool := (lo <=? x) && (x <=? hi).

(** The table [first] of the package together with [acceptRanges]: for a
    leading byte, the size of the sequence and the range of its second
    byte; [None] for a byte that starts no multi-byte sequence. *)
Definition first (b0 : Z) : option (nat * Z * Z) :=
  if between 194 b0 223 then Some (2%nat, 128, 191)
  else if (b0 =? 224) then Some (3%nat, 160, 191)
  else if between 225 b0 236 then Some (3%nat, 128, 191)
  else if (b0 =? 237) then Some (3%nat, 128, 159)
  else if between 238 b0 239 then Some (3%nat, 128, 191)
  else if (b0 =? 240) then Some (4%nat, 144, 191)
  else if between 241 b0 243 then Some (4%nat, 128, 191)
  else if (b0 =? 244) then Some (4%nat, 128, 143)
  else None.

Definition maskx (c : ascii) : Z := Z.land (byteZ c) 63.
Definition is_cont (c : ascii) : bool := between 128 (byteZ c) 191.

(** [utf8.DecodeRuneInString]: the rune at the head of [s] and its width in
    bytes; [(RuneError, 1%nat)] for an invalid or truncated sequence and
    [(RuneError, 0)] for the empty string. *)
Definition DecodeRuneInString (s : gostring) : Z * nat :=
  match s with
  | [] => (RuneError, 0%nat)
  | c0 :: t =>
    let s0 := byteZ c0 in
    if (s0 <? RuneSelf) then (s0, 1%nat)
    else
      match first s0 with
      | None => (RuneError, 1%nat)
      | Some (sz, lo, hi) =>
        match t with
        | [] => (RuneError, 1%nat)
        | c1 :: t1 =>
          if negb (between lo (byteZ c1) hi) then (RuneError, 1%nat)
          else if (sz <=? 2)%nat then
            (Z.lor (Z.shiftl (Z.land s0 31) 6) (maskx c1), 2%nat)
          else
            match t1 with
            | [] => (RuneError, 1%nat)
            | c2 :: t2 =>
              if negb (is_cont c2) then (RuneError, 1%nat)
              else if (sz <=? 3)%nat then
                (Z.lor (Z.shiftl (Z.land s0 15) 12)
                   (Z.lor (Z.shiftl (maskx c1) 6) (maskx c2)), 3%nat)
              else
                match t2 with
                | [] => (RuneError, 1%nat)
                | c3 :: _ =>
                  if negb (is_cont c3) then (RuneError, 1%nat)
                  else
                    (Z.lor (Z.shiftl (Z.land s0 7) 18)
                       (Z.lor (Z.shiftl (maskx c1) 12)
                          (Z.lor (Z.shiftl (maskx c2) 6) (maskx c3))), 4%nat)
                end
            end
        end
      end
  end.

(** The conversion [string(b)] of a byte [b]: the UTF-8 encoding of the code
    point [b], two bytes long from 0x80 on. *)
Definition string_of_byte (c : ascii) : gostring :=
  let b := byteZ c in
  if (b <? RuneSelf) then [c]
  else [byte_of_Z (Z.lor 192 (Z.shiftr b 6)); byte_of_Z (Z.lor 128 (Z.land b 63))].

(** [checkUTF8] of regexp/syntax: no invalid sequence in the string. *)
Fixpoint checkUTF8 (fuel : nat) (s : gostring) : bool :=
  match s, fuel with
  | [], _ => true
  | _, O => false
  | _ :: _, S fuel' =>
    let (r, size) := DecodeRuneInString s in
    if (r =? RuneError) && (size =? 1)%nat then false
    else checkUTF8 fuel' (skipn size s)
  end.

(* ================================================================== *)
(** ** regexp: syntax trees and matching

    [regexp.Compile] parses Perl syntax and matches leftmost-first: the match
    that begins earliest in the input and, among those, the one a
    backtracking search finds first (package documentation of [regexp]).
    The matcher below is that backtracking search, written with success
    continuations.  It reads the input rune by rune as [inputString.step]
    does, so an invalid byte counts as the rune [RuneError] of width 1. *)

Inductive regex : Type :=
| EmptyMatch
| CharClass (neg : bool) (ranges : list (Z * Z))
| BeginText
| EndText
| Capture (n : nat) (r : regex)
| Concat (a b : regex)
| Alternate (a b : regex)
| Repeat (min : nat) (max : option nat) (greedy : bool) (r : regex).

Definition in_ranges (c : Z) (ranges : list (Z * Z)) : bool :=
  existsb (fun lh => between (fst lh) c (snd lh)) ranges.

Definition class_matches (neg : bool) (ranges : list (Z * Z)) (c : Z) : bool :=
  xorb neg (in_ranges c ranges).

(** A position of the matcher: the byte offset, the input from there on and
    the capture registers written so far (newest first). *)
Record mstate : Type := MState {
  m_pos : nat;
  m_rest : gostring;
  m_caps : list (nat * (nat * nat))
}.

Definition kont : Type := mstate -> option mstate.

Definition advance (w : nat) (st : mstate) : mstate :=
  MState (m_pos st + w) (skipn w (m_rest st)) (m_caps st).

Definition set_cap (n from : nat) (st : mstate) : mstate :=
  MState (m_pos st) (m_rest st) ((n, (from, m_pos st)) :: m_caps st).

Definition orelse (a b : option mstate) : option mstate :=
  match a with Some x => Some x | None => b end.

(** [x*]: iterate while the body consumes input; an iteration that consumes
    nothing is abandoned. *)
Fixpoint star (body : mstate -> kont -> option mstate) (greedy : bool)
    (fuel : nat) (st : mstate) (k : kont) : option mstate :=
  match fuel with
  | O => k st
  | S fuel' =>
    let again :=
      body st (fun st' =>
        if (m_pos st <? m_pos st')%nat then star body greedy fuel' st' k else None) in
    if greedy then orelse again (k st) else orelse (k st) again
  end.

(** [x{0,n}], which the compiler expands to nested optional copies. *)
Fixpoint upto (body : mstate -> kont -> option mstate) (greedy : bool)
    (n : nat) (st : mstate) (k : kont) : option mstate :=
  match n with
  | O => k st
  | S n' =>
    let again := body st (fun st' => upto body greedy n' st' k) in
    if greedy then orelse again (k st) else orelse (k st) again
  end.

(** [n] mandatory copies, then [tail]. *)
Fixpoint times (body : mstate -> kont -> option mstate) (n : nat)
    (tail : mstate -> kont -> option mstate) (st : mstate) (k : kont)
    : option mstate :=
  match n with
  | O => tail st k
  | S n' => body st (fun st' => times body n' tail st' k)
  end.

Fixpoint run (r : regex) (st : mstate) (k : kont) {struct r} : option mstate :=
  match r with
  | EmptyMatch => k st
  | CharClass neg ranges =>
    match m_rest st with
    | [] => None
    | _ :: _ =>
      let (c, w) := DecodeRuneInString (m_rest st) in
      if class_matches neg ranges c then k (advance w st) else None
    end
  | BeginText => if (m_pos st =? 0)%nat then k st else None
  | EndText => match m_rest st with [] => k st | _ :: _ => None end
  | Capture n a => run a st (fun st' => k (set_cap n (m_pos st) st'))
  | Concat a b => run a st (fun st' => run b st' k)
  | Alternate a b => orelse (run a st k) (run b st k)
  | Repeat min max greedy a =>
    times (run a) min
      (fun st1 k1 =>
         match max with
         | None => star (run a) greedy (S (length (m_rest st1))) st1 k1
         | Some m => upto (run a) greedy (m - min) st1 k1
         end) st k
  end.

(** One execution anchored at [st]: the first match in priority order. *)
Definition exec (r : regex) (st : mstate) : option mstate :=
  run r (MState (m_pos st) (m_rest st) []) Some.

(** The unanchored search of [doExecute]: the earliest position from [st] on
    at which an execution succeeds.  Result: start offset and final state. *)
Fixpoint search (r : regex) (fuel : nat) (st : mstate) : option (nat * mstate) :=
  match exec r st with
  | Some fin => Some (m_pos st, fin)
  | None =>
    match m_rest st, fuel with
    | [], _ => None
    | _ :: _, O => None
    | _ :: _, S fuel' =>
      search r fuel' (advance (snd (DecodeRuneInString (m_rest st))) st)
    end
  end.

Definition start_state (s : gostring) : mstate := MState 0 s [].

(** The registers of capture group [n]: the last write wins. *)
Fixpoint lookup_cap (n : nat) (caps : list (nat * (nat * nat))) : option (nat * nat) :=
  match caps with
  | [] => None
  | (m, span) :: caps' => if (m =? n)%nat then Some span else lookup_cap n caps'
  end.

(** [NumSubexp]: the number of capture groups. *)
Fixpoint NumSubexp (r : regex) : nat :=
  match r with
  | Capture _ a => S (NumSubexp a)
  | Concat a b | Alternate a b => (NumSubexp a + NumSubexp b)%nat
  | Repeat _ _ _ a => NumSubexp a
  | _ => O
  end.

(** The strings of a match: the whole match, then the text of each group,
    empty for a group that took no part. *)
Definition submatches (r : regex) (s : gostring) (m : nat * mstate) : list gostring :=
  slice s (fst m) (m_pos (snd m)) ::
  map (fun n => match lookup_cap n (m_caps (snd m)) with
                | Some (a, b) => slice s a b
                | None => []
                end) (seq 1 (NumSubexp r)).

(** [re.MatchString(s)]. *)
Definition MatchString (r : regex) (s : gostring) : bool :=
  match search r (length s) (start_state s) with Some _ => true | None => false end.

(** [re.FindStringSubmatch(s)]; [None] is the nil slice. *)
Definition FindStringSubmatch (r : regex) (s : gostring) : option (list gostring) :=
  option_map (submatches r s) (search r (length s) (start_state s)).

(** The loop of [allMatches] with [n = -1]: successive non-overlapping
    matches; an empty match that abuts the preceding match is dropped, and
    after an empty match the search resumes one rune further. *)
Fixpoint allMatches (r : regex) (fuel : nat) (st : mstate) (prevMatchEnd : option nat)
    : list (nat * mstate) :=
  match fuel with
  | O => []
  | S fuel' =>
    match search r (length (m_rest st)) st with
    | None => []
    | Some (a, fin) =>
      let b := m_pos fin in
      if (b =? m_pos st)%nat then
        let accept :=
          match prevMatchEnd with
          | Some e => negb (a =? e)%nat
          | None => true
          end in
        let tail :=
          match m_rest st with
          | [] => []
          | _ :: _ =>
            allMatches r fuel'
              (advance (snd (DecodeRuneInString (m_rest st))) st) (Some b)
          end in
        if accept then (a, fin) :: tail else tail
      else (a, fin) :: allMatches r fuel' (MState b (m_rest fin) []) (Some b)
    end
  end.

Definition findAll (r : regex) (s : gostring) : list (nat * mstate) :=
  allMatches r (S (length s)) (start_state s) None.

(** [re.FindAllStringSubmatch(s, -1)]; the empty list is the nil slice. *)
Definition FindAllStringSubmatch (r : regex) (s : gostring) : list (list gostring) :=
  map (submatches r s) (findAll r s).

(** [re.FindAllStringIndex(s, -1)]. *)
Definition FindAllStringIndex (r : regex) (s : gostring) : list (nat * nat) :=
  map (fun m => (fst m, m_pos (snd m))) (findAll r s).

(* ================================================================== *)
(** ** regexp/syntax: parsing with the flags of [syntax.Perl]

    The parser follows [syntax.Parse] token by token.  It covers literals,
    [.], [^], [$], escapes of punctuation, the C escapes, the Perl classes
    (d, s, w and their negations), bracket classes with ranges and negation,
    groups (capturing, [(?:], [(?i)], [(?i:]), alternation and the
    repetitions (star, plus, question mark, braces, each greedy or lazy).
    Syntax outside this fragment (named or Unicode classes, octal and
    hexadecimal escapes, word boundaries, quoting, named groups, other
    flags, case folding beyond ASCII) yields [PUnmodelled]: the model makes
    no statement about it.  The size limits of the package (nesting depth
    1000, program size) are not modelled either. *)

Inductive presult (A : Type) : Type :=
| POk (a : A)
| PSyntaxError
| PUnmodelled.
Arguments POk {A} a.
Arguments PSyntaxError {A}.
Arguments PUnmodelled {A}.

Definition pbind {A B : Type} (x : presult A) (f : A -> presult B) : presult B :=
  match x with
  | POk a => f a
  | PSyntaxError => PSyntaxError
  | PUnmodelled => PUnmodelled
  end.

Notation "x <- e ;; k" := (pbind e (fun x => k))
  (at level 61, e at next level, right associativity).
Notation "' p <- e ;; k" := (pbind e (fun p => k))
  (at level 61, p pattern, e at next level, right associativity).

Definition isalnum (b : Z) : bool :=
  between 48 b 57 || between 65 b 90 || between 97 b 122.

Definition overlaps (lo hi a b : Z) : bool := (lo <=? b) && (a <=? hi).

(** [appendFoldedRange] for a range of ASCII: the orbits under
    [unicode.SimpleFold], which joins k, K and U+212A and joins s, S and
    U+017F. *)
Definition fold_ascii_range (lo hi : Z) : list (Z * Z) :=
  (lo, hi)
  :: (if overlaps lo hi 65 90 then [(Z.max lo 65 + 32, Z.min hi 90 + 32)] else [])
  ++ (if overlaps lo hi 97 122 then [(Z.max lo 97 - 32, Z.min hi 122 - 32)] else [])
  ++ (if between lo 75 hi || between lo 107 hi then [(8490, 8490)] else [])
  ++ (if between lo 83 hi || between lo 115 hi then [(383, 383)] else []).

Definition add_range (fold : bool) (lo hi : Z) : presult (list (Z * Z)) :=
  if fold then
    if hi <? RuneSelf then POk (fold_ascii_range lo hi) else PUnmodelled
  else POk [(lo, hi)].

(** The Perl classes, by the letter after the backslash. *)
Definition perl_class (c : ascii) (fold : bool) : option (list (Z * Z)) :=
  if (c =? "d")%char then Some [(48, 57)]
  else if (c =? "s")%char then Some [(9, 10); (12, 13); (32, 32)]
  else if (c =? "w")%char then
    Some ([(48, 57); (65, 90); (95, 95); (97, 122)]
          ++ if fold then [(383, 383); (8490, 8490)] else [])
  else if (c =? "D")%char then Some [(0, 47); (58, MaxRune)]
  else if (c =? "S")%char then Some [(0, 8); (11, 11); (14, 31); (33, MaxRune)]
  else if (c =? "W")%char then
    Some (if fold
          then [(0, 47); (58, 64); (91, 94); (96, 96); (123, 382); (384, 8489);
                (8491, MaxRune)]
          else [(0, 47); (58, 64); (91, 94); (96, 96); (123, MaxRune)])
  else None.

(** [nextRune] on a string that passed [checkUTF8]. *)
Definition nextRune (t : gostring) : Z * gostring :=
  let (c, size) := DecodeRuneInString t in (c, skipn size t).

(** [parseEscape], on the text after the backslash. *)
Definition parseEscape (t : gostring) : presult (Z * gostring) :=
  match t with
  | [] => PSyntaxError
  | c :: t' =>
    let b := byteZ c in
    if RuneSelf <=? b then PSyntaxError
    else if negb (isalnum b) then POk (b, t')
    else if (c =? "a")%char then POk (7, t')
    else if (c =? "f")%char then POk (12, t')
    else if (c =? "n")%char then POk (10, t')
    else if (c =? "r")%char then POk (13, t')
    else if (c =? "t")%char then POk (9, t')
    else if (c =? "v")%char then POk (11, t')
    else if between 48 b 55 || (c =? "x")%char then PUnmodelled
    else PSyntaxError
  end.

(** [parseClassChar]. *)
Definition parseClassChar (t : gostring) : presult (Z * gostring) :=
  match t with
  | [] => PSyntaxError
  | c :: t' => if (c =? "\")%char then parseEscape t' else POk (nextRune t)
  end.

Fixpoint has_colon_bracket (t : gostring) : bool :=
  match t with
  | c :: ((d :: _) as t') => ((c =? ":")%char && (d =? "]")%char) || has_colon_bracket t'
  | _ => false
  end.

(** The loop of [parseClass] after the opening bracket and the optional
    caret; [first] is true on the first round, where a closing bracket is an
    ordinary character. *)
Fixpoint parseClassItems (fuel : nat) (fold : bool) (t : gostring) (first : bool)
    (class : list (Z * Z)) : presult (list (Z * Z) * gostring) :=
  match fuel with
  | O => PUnmodelled
  | S fuel' =>
    match t with
    | [] => PSyntaxError
    | c :: t' =>
      if (c =? "]")%char && negb first then POk (class, t')
      else if (c =? "[")%char && HasPrefix t' (str ":") && has_colon_bracket (skipn 1 t')
      then PUnmodelled
      else if (c =? "\")%char && (HasPrefix t' (str "p") || HasPrefix t' (str "P"))
      then PUnmodelled
      else
        match (if (c =? "\")%char
               then match t' with
                    | e :: t'' => option_map (fun g => (g, t'')) (perl_class e fold)
                    | [] => None
                    end
               else None) with
        | Some (g, t'') => parseClassItems fuel' fold t'' false (class ++ g)
        | None =>
          '(lo, t1) <- parseClassChar t ;;
          '(hi, t2) <-
            match t1 with
            | d :: ((e :: _) as t1') =>
              if (d =? "-")%char && negb (e =? "]")%char
              then parseClassChar t1' else POk (lo, t1)
            | _ => POk (lo, t1)
            end ;;
          if hi <? lo then PSyntaxError
          else
            g <- add_range fold lo hi ;;
            parseClassItems fuel' fold t2 false (class ++ g)
        end
    end
  end.

(** [parseClass], on the text after the opening bracket. *)
Definition parseClass (fold : bool) (t : gostring) : presult (regex * gostring) :=
  let neg := HasPrefix t (str "^") in
  let t := if neg then skipn 1 t else t in
  '(class, rest) <- parseClassItems (S (length t)) fold t true [] ;;
  POk (CharClass neg class, rest).

(** [parseInt] and [parseRepeat], on the text after the opening brace.
    [None]: the braces are no repetition and the brace is a literal. *)
Definition is_digit (c : ascii) : bool := between 48 (byteZ c) 57.

Fixpoint digits_value (acc : Z) (t : gostring) : Z * gostring :=
  match t with
  | c :: t' =>
    if is_digit c
    then digits_value (if 100000000 <=? acc then acc else acc * 10 + (byteZ c - 48)) t'
    else (acc, t)
  | [] => (acc, t)
  end.

Definition parseInt (t : gostring) : option (Z * gostring) :=
  match t with
  | c :: t' =>
    if negb (is_digit c) then None
    else if (c =? "0")%char && match t' with d :: _ => is_digit d | [] => false end
    then None
    else Some (digits_value 0 t)
  | [] => None
  end.

Definition parseRepeat (t : gostring) : option (Z * option Z * gostring) :=
  match parseInt t with
  | None => None
  | Some (min, t1) =>
    match t1 with
    | [] => None
    | c :: t2 =>
      if (c =? "}")%char then Some (min, Some min, t2)
      else if (c =? ",")%char then
        match t2 with
        | [] => None
        | d :: t3 =>
          if (d =? "}")%char then Some (min, None, t3)
          else
            match parseInt t2 with
            | Some (max, e :: t4) =>
              if (e =? "}")%char then Some (min, Some max, t4) else None
            | _ => None
            end
        end
      else None
    end
  end.

(** [repeatIsValid]: no nest of counted repetitions whose counts multiply
    beyond [n]. *)
Fixpoint repeatIsValid (re : regex) (n : Z) : bool :=
  match re with
  | Repeat min max _ sub =>
    match max with
    | Some O => true
    | _ =>
      let m := Z.of_nat (match max with Some m => m | None => min end) in
      if n <? m then false
      else repeatIsValid sub (if 0 <? m then n / m else n)
    end
  | Capture _ a => repeatIsValid a n
  | Concat a b | Alternate a b => repeatIsValid a n && repeatIsValid b n
  | _ => true
  end.

(** [p.literal]: with case folding a literal matches its whole orbit. *)
Definition literal (fold : bool) (c : Z) : presult regex :=
  g <- add_range fold c c ;; POk (CharClass false g).

(** [p.concat] and [p.alternate] over the items gathered so far (both lists
    are kept newest first, as the parser's stack is). *)
Fixpoint concat_of (items : list regex) : regex :=
  match items with
  | [] => EmptyMatch
  | [r] => r
  | r :: items' => Concat r (concat_of items')
  end.

Fixpoint alternate_of (alts : list regex) : regex :=
  match alts with
  | [] => EmptyMatch
  | [r] => r
  | r :: alts' => Alternate r (alternate_of alts')
  end.

Definition close_level (items alts : list regex) : regex :=
  alternate_of (rev (concat_of (rev items) :: alts)).

(** [p.repeat]: the operator applies to the newest item of the current
    concatenation; none there, or an operator right before, is an error. *)
Definition apply_repeat (min : nat) (max : option nat) (counted : bool)
    (t : gostring) (items : list regex) (lastRepeat : bool)
    : presult (list regex * gostring) :=
  let lazy := HasPrefix t (str "?") in
  let after := if lazy then skipn 1 t else t in
  if lastRepeat then PSyntaxError
  else
    match items with
    | [] => PSyntaxError
    | sub :: items' =>
      let re := Repeat min max (negb lazy) sub in
      if counted
         && ((2 <=? min)%nat || match max with Some m => (2 <=? m)%nat | None => false end)
         && negb (repeatIsValid re 1000)
      then PSyntaxError
      else POk (re :: items', after)
    end.

(** The main loop of [syntax.Parse] for one nesting level.  [inner] tells
    whether the level was opened by a parenthesis; [fold] is the flag
    [FoldCase]; [ncap] is [p.numCap].  The result carries the text after the
    level and the capture count. *)
Fixpoint parseSeq (fuel : nat) (t : gostring) (fold inner : bool)
    (items alts : list regex) (lastRepeat : bool) (ncap : nat)
    : presult (regex * gostring * nat) :=
  match fuel with
  | O => PUnmodelled
  | S fuel' =>
    let continue t' fold' items' :=
      parseSeq fuel' t' fold' inner items' alts false ncap in
    match t with
    | [] => if inner then PSyntaxError else POk (close_level items alts, [], ncap)
    | c :: t' =>
      if (c =? "(")%char then
        if HasPrefix t' (str "?:") then
          '(r, rest, ncap') <- parseSeq fuel' (skipn 2 t') fold true [] [] false ncap ;;
          parseSeq fuel' rest fold inner (r :: items) alts false ncap'
        else if HasPrefix t' (str "?i:") then
          '(r, rest, ncap') <- parseSeq fuel' (skipn 3 t') true true [] [] false ncap ;;
          parseSeq fuel' rest fold inner (r :: items) alts false ncap'
        else if HasPrefix t' (str "?i)") then continue (skipn 3 t') true items
        else if HasPrefix t' (str "?") then PUnmodelled
        else
          '(r, rest, ncap') <- parseSeq fuel' t' fold true [] [] false (S ncap) ;;
          parseSeq fuel' rest fold inner (Capture (S ncap) r :: items) alts false ncap'
      else if (c =? "|")%char then
        parseSeq fuel' t' fold inner [] (concat_of (rev items) :: alts) false ncap
      else if (c =? ")")%char then
        if inner then POk (close_level items alts, t', ncap) else PSyntaxError
      else if (c =? "^")%char then continue t' fold (BeginText :: items)
      else if (c =? "$")%char then continue t' fold (EndText :: items)
      else if (c =? ".")%char then continue t' fold (CharClass true [(10, 10)] :: items)
      else if (c =? "[")%char then
        '(re, rest) <- parseClass fold t' ;;
        continue rest fold (re :: items)
      else if (c =? "*")%char || (c =? "+")%char || (c =? "?")%char then
        let min := if (c =? "+")%char then 1%nat else 0%nat in
        let max := if (c =? "?")%char then Some 1%nat else None in
        '(items', after) <- apply_repeat min max false t' items lastRepeat ;;
        parseSeq fuel' after fold inner items' alts true ncap
      else if (c =? "{")%char then
        match parseRepeat t' with
        | None =>
          re <- literal fold (byteZ c) ;;
          continue t' fold (re :: items)
        | Some (min, max, after) =>
          if (1000 <? min) || match max with
                              | Some m => (1000 <? m) || (m <? min)
                              | None => false
                              end
          then PSyntaxError
          else
            '(items', after') <-
              apply_repeat (Z.to_nat min) (option_map Z.to_nat max) true
                after items lastRepeat ;;
            parseSeq fuel' after' fold inner items' alts true ncap
        end
      else if (c =? "\")%char then
        match t' with
        | [] => PSyntaxError
        | e :: t'' =>
          if (e =? "A")%char then continue t'' fold (BeginText :: items)
          else if (e =? "z")%char then continue t'' fold (EndText :: items)
          else if (e =? "C")%char then PSyntaxError
          else if (e =? "b")%char || (e =? "B")%char || (e =? "Q")%char
                  || (e =? "p")%char || (e =? "P")%char then PUnmodelled
          else
            match perl_class e fold with
            | Some g => continue t'' fold (CharClass false g :: items)
            | None =>
              '(r, rest) <- parseEscape t' ;;
              re <- literal fold r ;;
              continue rest fold (re :: items)
            end
        end
      else
        let (r, rest) := nextRune t in
        re <- literal fold r ;;
        continue rest fold (re :: items)
    end
  end.

(** [syntax.Parse(expr, syntax.Perl)]. *)
Definition Parse (expr : gostring) : presult regex :=
  if checkUTF8 (length expr) expr then
    '(re, _, _) <- parseSeq (S (length expr)) expr false false [] [] false 0%nat ;;
    POk re
  else PSyntaxError.

(** [regexp.Compile]; [None] stands for a returned error.  A pattern
    outside the modelled syntax is reported as an error too; no pattern
    literal of the program is (see [patterns_compile]). *)
Definition Compile (expr : gostring) : option regex :=
  match Parse expr with
  | POk re => Some re
  | _ => None
  end.

(** [regexp.MustCompile], which panics where [Compile] fails. *)
Definition MustCompile (expr : gostring) : regex :=
  match Compile expr with
  | Some re => re
  | None => CharClass false []
  end.

(* ================================================================== *)
(** ** rules.go *)

Module SecretRule.
Record t : Type := Make {
  ID : gostring;
  Name : gostring;
  Pattern : regex;
  Description : gostring;
  Advice : gostring
}.
End SecretRule.
Abbreviation SecretRule := SecretRule.t.

Module Finding.
Record t : Type := Make {
  RuleID : gostring;
  RuleName : gostring;
  FilePath : gostring;
  LineNum : Z;
  Content : gostring;
  Match : gostring;
  StartPos : Z;
  EndPos : Z;
  Description : gostring;
  Advice : gostring
}.
End Finding.
Abbreviation Finding := Finding.t.

Module DiffLine.
Record t : Type := Make {
  FilePath : gostring;
  LineNum : Z;
  Content : gostring
}.
End DiffLine.
Abbreviation DiffLine := DiffLine.t.

Record SecretScanner : Type := { rules : list SecretRule }.

(** One row of the table of [loadDefaultRules]. *)
Record rule_source : Type := {
  id : gostring;
  name : gostring;
  pattern : gostring;
  description : gostring;
  advice : gostring
}.

Definition default_rule_sources : list rule_source :=
  [ {| id := str "OPENAI_API_KEY";
       name := str "OpenAI API Key";
       pattern := str "sk-[A-Za-z0-9]{20,}";
       description := str "OpenAI API key detected";
       advice := str "Move this to an environment variable (.env file) and add .env to .gitignore" |};
    {| id := str "GITHUB_PAT";
       name := str "GitHub Personal Access Token";
       pattern := str "ghp_[A-Za-z0-9]{36}";
       description := str "GitHub Personal Access Token detected";
       advice := str "Store in environment variables or GitHub Secrets for CI/CD" |};
    {| id := str "AWS_ACCESS_KEY";
       name := str "AWS Access Key ID";
       pattern := str "(AKIA|ASIA)[A-Z0-9]{16}";
       description := str "AWS Access Key ID detected";
       advice := str "Use AWS IAM roles or store in AWS credentials file/environment variables" |};
    {| id := str "AWS_SECRET_KEY";
       name := str "AWS Secret Access Key";
       pattern := str "(?i)aws(.{0,20})?(secret|access).{0,20}['\" ++ [dquote]
                  ++ str "][A-Za-z0-9/+=]{40}['\" ++ [dquote] ++ str "]";
       description := str "AWS Secret Access Key detected";
       advice := str "Use AWS IAM roles or store in AWS credentials file/environment variables" |};
    {| id := str "STRIPE_LIVE_PK";
       name := str "Stripe Live Publishable Key";
       pattern := str "pk_live_[A-Za-z0-9]{24}";
       description := str "Stripe Live Publishable Key detected";
       advice := str "Move to environment variables and ensure it's not exposed in client-side code" |};
    {| id := str "STRIPE_LIVE_SK";
       name := str "Stripe Live Secret Key";
       pattern := str "sk_live_[A-Za-z0-9]{24}";
       description := str "Stripe Live Secret Key detected";
       advice := str "Move to environment variables and never expose in client-side code" |};
    {| id := str "SLACK_TOKEN";
       name := str "Slack Token";
       pattern := str "xox[baprs]-[0-9A-Za-z\-]+";
       description := str "Slack API token detected";
       advice := str "Store in environment variables or secure configuration management" |};
    {| id := str "JWT_TOKEN";
       name := str "JSON Web Token";
       pattern := str "eyJ[A-Za-z0-9_\-]+\.[A-Za-z0-9._\-]+\.[A-Za-z0-9._\-]+";
       description := str "JWT token detected";
       advice := str "Avoid committing JWTs; use secure token storage and short expiration times" |};
    {| id := str "GENERIC_API_KEY";
       name := str "Generic API Key Pattern";
       pattern := str "(?i)(api[_\-]?key|apikey|secret[_\-]?key|secretkey|access[_\-]?token|accesstoken)\s*[=:]\s*['\"
                  ++ [dquote] ++ str "]?[A-Za-z0-9\+/]{32,}['\" ++ [dquote] ++ str "]?";
       description := str "Generic API key pattern detected";
       advice := str "Move sensitive keys to environment variables or secure configuration" |};
    {| id := str "PRIVATE_KEY";
       name := str "Private Key";
       pattern := str "-----BEGIN\s+(RSA\s+)?PRIVATE\s+KEY-----";
       description := str "Private key detected";
       advice := str "Store private keys securely, never commit to version control" |} ].

(** [loadDefaultRules]: compile each row, skip the rows that do not compile,
    append the others in order. *)
Definition loadDefaultRules (s : SecretScanner) : SecretScanner :=
  fold_left
    (fun (s : SecretScanner) (rule : rule_source) =>
       match Compile (pattern rule) with
       | None => s
       | Some compiled =>
         {| rules := rules s ++
              [ {| SecretRule.ID := id rule;
                   SecretRule.Name := name rule;
                   SecretRule.Pattern := compiled;
                   SecretRule.Description := description rule;
                   SecretRule.Advice := advice rule |} ] |}
       end)
    default_rule_sources s.

Definition NewSecretScanner : SecretScanner := loadDefaultRules {| rules := [] |}.

(** The inner loop of [ScanLine] over [matches], from index [i] on. *)
Fixpoint scan_matches (rule : SecretRule) (filePath : gostring) (lineNum : Z)
    (content : gostring) (indexes : list (nat * nat)) (i : nat)
    (matches : list (list gostring)) : list Finding :=
  match matches with
  | [] => []
  | match_ :: matches' =>
    let matchText := match match_ with m0 :: _ => m0 | [] => [] end in
    let (startPos, endPos) :=
      match nth_error indexes i with
      | Some (a, b) => (Z.of_nat a, Z.of_nat b)
      | None => (0, 0)
      end in
    {| Finding.RuleID := SecretRule.ID rule;
       Finding.RuleName := SecretRule.Name rule;
       Finding.FilePath := filePath;
       Finding.LineNum := lineNum;
       Finding.Content := content;
       Finding.Match := matchText;
       Finding.StartPos := startPos;
       Finding.EndPos := endPos;
       Finding.Description := SecretRule.Description rule;
       Finding.Advice := SecretRule.Advice rule |}
    :: scan_matches rule filePath lineNum content indexes (S i) matches'
  end.

(** [ScanLine]. *)
Definition ScanLine (s : SecretScanner) (filePath : gostring) (lineNum : Z)
    (content : gostring) : list Finding :=
  flat_map
    (fun rule =>
       let matches := FindAllStringSubmatch (SecretRule.Pattern rule) content in
       match matches with
       | [] => []
       | _ :: _ =>
         let indexes := FindAllStringIndex (SecretRule.Pattern rule) content in
         scan_matches rule filePath lineNum content indexes 0 matches
       end)
    (rules s).

(** [ScanLines]. *)
Definition ScanLines (s : SecretScanner) (lines : list DiffLine) : list Finding :=
  flat_map
    (fun line => ScanLine s (DiffLine.FilePath line) (DiffLine.LineNum line)
                   (DiffLine.Content line))
    lines.

(** [MaskSecret]. *)
Definition MaskSecret (f : Finding) : gostring :=
  let m := Finding.Match f in
  if (length m <=? 8)%nat then Repeat1 "*" (length m)
  else
    let prefix := slice m 0 4 in
    let suffix := slice m (length m - 4) (length m) in
    let middle := Repeat1 "*" (length m - 8) in
    prefix ++ middle ++ suffix.

(* ================================================================== *)
(** ** Errors *)

Inductive error : Type :=
| ErrTooLong                      (* bufio.Scanner: token too long *)
| ErrRange                        (* strconv: value out of range *)
| ErrSyntax                       (* strconv: invalid syntax *)
| ErrUnterminatedClass            (* unterminated character class *)
| ErrRegexp                       (* an error of regexp.Compile *)
| Errorf (msg : gostring) (wrapped : error).   (* fmt.Errorf with %w *)

(* ================================================================== *)
(** ** bufio.Scanner with the default split function [ScanLines] *)

Definition newline : ascii := ascii_of_nat 10.
Definition carriage_return : ascii := ascii_of_nat 13.

(** [bufio.MaxScanTokenSize]: the buffer never grows beyond it, and a line
    that fills it without a newline in sight ends the scan with
    [ErrTooLong]. *)
Definition MaxScanTokenSize : Z := 65536.

(** The input cut at each newline; [cur] is the line read so far, newest
    byte first.  The text after the last newline is a line unless empty. *)
Fixpoint raw_lines (s : gostring) (cur : gostring) : list gostring :=
  match s with
  | [] => match cur with [] => [] | _ :: _ => [rev cur] end
  | c :: s' =>
    if (c =? newline)%char then rev cur :: raw_lines s' []
    else raw_lines s' (c :: cur)
  end.

(** [dropCR]. *)
Definition dropCR (data : gostring) : gostring :=
  match rev data with
  | c :: r => if (c =? carriage_return)%char then rev r else data
  | [] => data
  end.

(** The tokens [scanner.Text()] yields in turn, and what [scanner.Err()]
    returns once [Scan] has returned false. *)
Fixpoint scan_tokens (raw : list gostring) : list gostring * option error :=
  match raw with
  | [] => ([], None)
  | l :: raw' =>
    if MaxScanTokenSize <=? Z.of_nat (length l) then ([], Some ErrTooLong)
    else let (toks, err) := scan_tokens raw' in (dropCR l :: toks, err)
  end.

Definition Scanner (input : gostring) : list gostring * option error :=
  scan_tokens (raw_lines input []).

(* ================================================================== *)
(** ** strconv.Atoi *)

Fixpoint decimal (acc : Z) (ds : gostring) : Z :=
  match ds with
  | [] => acc
  | c :: ds' => decimal (acc * 10 + (byteZ c - 48)) ds'
  end.

Definition Atoi (s : gostring) : error + Z :=
  let '(neg, ds) :=
    match s with
    | c :: t =>
      if (c =? "-")%char then (true, t)
      else if (c =? "+")%char then (false, t)
      else (false, s)
    | [] => (false, [])
    end in
  match ds with
  | [] => inl ErrSyntax
  | _ :: _ =>
    if forallb is_digit ds then
      let n := if neg then - decimal 0 ds else decimal 0 ds in
      if between MinInt64 n MaxInt64 then inr n else inl ErrRange
    else inl ErrSyntax
  end.

(* ================================================================== *)
(** ** differ.go *)

Definition fileHeaderRegex : regex := MustCompile (str "^\+\+\+ b/(.+)$").

Definition hunkHeaderRegex : regex :=
  MustCompile (str "^@@ -\d+(?:,\d+)? \+(\d+)(?:,\d+)? @@").

(** [matches[i]] of a submatch slice that holds the index. *)
Definition submatch (matches : list gostring) (i : nat) : gostring := nth i matches [].

(** The variables of the loop of [parseDiff]. *)
Record parser : Type := {
  currentFile : gostring;
  currentLineNum : Z;
  lines : list DiffLine
}.

Definition parser_init : parser :=
  {| currentFile := []; currentLineNum := 0; lines := [] |}.

(** One round of the loop of [parseDiff] on the token [line]. *)
Definition parseLine (p : parser) (line : gostring) : error + parser :=
  match FindStringSubmatch fileHeaderRegex line with
  | Some matches =>
    inr {| currentFile := submatch matches 1;
           currentLineNum := currentLineNum p;
           lines := lines p |}
  | None =>
    match FindStringSubmatch hunkHeaderRegex line with
    | Some matches =>
      match Atoi (submatch matches 1) with
      | inl err => inl (Errorf (str "failed to parse line number: ") err)
      | inr lineNum =>
        inr {| currentFile := currentFile p;
               currentLineNum := lineNum;
               lines := lines p |}
      end
    | None =>
      if HasPrefix line (str "+") && negb (HasPrefix line (str "+++")) then
        let content := skipn 1 line in
        inr {| currentFile := currentFile p;
               currentLineNum := wrap64 (currentLineNum p + 1);
               lines := lines p ++
                 [ {| DiffLine.FilePath := currentFile p;
                      DiffLine.LineNum := currentLineNum p;
                      DiffLine.Content := content |} ] |}
      else if HasPrefix line (str " ") then
        inr {| currentFile := currentFile p;
               currentLineNum := wrap64 (currentLineNum p + 1);
               lines := lines p |}
      else inr p
    end
  end.

(** The loop over the tokens. *)
Fixpoint parseLines (p : parser) (tokens : list gostring) : error + parser :=
  match tokens with
  | [] => inr p
  | line :: tokens' =>
    match parseLine p line with
    | inl err => inl err
    | inr p' => parseLines p' tokens'
    end
  end.

(** [parseDiff]: the pair the function returns, with [[]] for the nil slice
    and [None] for the nil error. *)
Definition parseDiff (diffOutput : gostring) : list DiffLine * option error :=
  let (tokens, scanErr) := Scanner diffOutput in
  match parseLines parser_init tokens with
  | inl err => ([], Some err)
  | inr p =>
    match scanErr with
    | Some err => ([], Some (Errorf (str "error reading diff output: ") err))
    | None => (lines p, None)
    end
  end.

(* ================================================================== *)
(** ** path/filepath, with the slash as separator *)

Definition is_slash (c : ascii) : bool := (c =? "/")%char.

(** [filepath.ToSlash]: the identity where the separator is the slash. *)
Definition ToSlash (path : gostring) : gostring := path.

Fixpoint drop_slashes (r : gostring) : gostring :=
  match r with
  | c :: r' => if is_slash c then drop_slashes r' else r
  | [] => []
  end.

Fixpoint take_element (r : gostring) : gostring :=
  match r with
  | c :: r' => if is_slash c then [] else c :: take_element r'
  | [] => []
  end.

(** [filepath.Base]: the last element of the path, trailing slashes removed;
    a dot for the empty path, a slash for a path of slashes only. *)
Definition Base (path : gostring) : gostring :=
  match path with
  | [] => str "."
  | _ :: _ =>
    match rev (take_element (drop_slashes (rev path))) with
    | [] => str "/"
    | (_ :: _) as b => b
    end
  end.

(* ================================================================== *)
(** ** ignore.go *)

Record IgnoreChecker : Type := {
  patterns : list gostring;
  regexes : list regex
}.

Definition NewIgnoreChecker : IgnoreChecker := {| patterns := []; regexes := [] |}.

(** The index of the first closing bracket at or after [j], where [t] is
    [glob[j:]]; the length of the glob if there is none. *)
Fixpoint skip_to_bracket (t : gostring) (j : nat) : nat :=
  match t with
  | [] => j
  | c :: t' => if (c =? "]")%char then j else skip_to_bracket t' (S j)
  end.

Definition byte_is (s : gostring) (j : nat) (c : ascii) : bool :=
  match nth_error s j with
  | Some d => (d =? c)%char
  | None => false
  end.

Definition is_regex_special (c : ascii) : bool :=
  existsb (fun d => (c =? d)%char) (str ".^$+{}()|\").

(** The loop of [globToRegex].  [glob] is the text from index [i] on, so
    that [i += n] is [skipn n glob] and the indices of the character class
    are relative to [i].  [fuel] bounds the rounds; the length of the glob
    is enough ([globToRegex_loop_fuel]). *)
Fixpoint globToRegex_loop (fuel : nat) (glob : gostring) (regex : gostring)
    : error + gostring :=
  match fuel, glob with
  | _, [] | O, _ => inr (regex ++ str "$")
  | S fuel', c :: _ =>
    if (c =? "*")%char then
      if byte_is glob 1 "*" then
        if byte_is glob 2 "/" then
          globToRegex_loop fuel' (skipn 3 glob) (regex ++ str "(?:.*/|^)")
        else if (length glob =? 2)%nat then
          globToRegex_loop fuel' (skipn 2 glob) (regex ++ str ".*")
        else
          globToRegex_loop fuel' (skipn 1 glob) (regex ++ str "[^/]*")
      else
        globToRegex_loop fuel' (skipn 1 glob) (regex ++ str "[^/]*")
    else if (c =? "?")%char then
      globToRegex_loop fuel' (skipn 1 glob) (regex ++ str "[^/]")
    else if (c =? "[")%char then
      let j := 1%nat in
      let j := if byte_is glob j "!" then S j else j in
      let j := if byte_is glob j "]" then S j else j in
      let j := skip_to_bracket (skipn j glob) j in
      if (length glob <=? j)%nat then inl ErrUnterminatedClass
      else
        let class := slice glob 0 (j + 1) in
        let class :=
          if HasPrefix class (str "[!") then str "[^" ++ skipn 2 class else class in
        globToRegex_loop fuel' (skipn (j + 1) glob) (regex ++ class)
    else if is_regex_special c then
      globToRegex_loop fuel' (skipn 1 glob) (regex ++ str "\" ++ string_of_byte c)
    else
      globToRegex_loop fuel' (skipn 1 glob) (regex ++ string_of_byte c)
  end.

(** [globToRegex]. *)
Definition globToRegex (glob : gostring) : error + gostring :=
  globToRegex_loop (length glob) glob (str "^").

(** [AddPattern]: the checker after the call and the error returned. *)
Definition AddPattern (ic : IgnoreChecker) (pattern : gostring)
    : IgnoreChecker * option error :=
  match globToRegex pattern with
  | inl err => (ic, Some (Errorf (str "invalid glob pattern: ") err))
  | inr regex =>
    match Compile regex with
    | None => (ic, Some (Errorf (str "failed to compile pattern: ") ErrRegexp))
    | Some compiledRegex =>
      ({| patterns := patterns ic ++ [pattern];
          regexes := regexes ic ++ [compiledRegex] |}, None)
    end
  end.

(** [ShouldIgnore]. *)
Definition ShouldIgnore (ic : IgnoreChecker) (filePath : gostring) : bool :=
  let normalizedPath := ToSlash filePath in
  existsb
    (fun regex =>
       MatchString regex normalizedPath
       || MatchString regex (Base normalizedPath))
    (regexes ic).

(** [GetPatterns]. *)
Definition GetPatterns (ic : IgnoreChecker) : list gostring := patterns ic.

(* ================================================================== *)
(** ** The matcher as a list of successes

    [ends r st] lists, in priority order, the positions at which a match of
    [r] begun at [st] can end; [run r st k] is the first of them that the
    continuation accepts ([run_ends]).  These definitions serve the proofs
    only. *)

Fixpoint find_some (k : kont) (l : list mstate) : option mstate :=
  match l with
  | [] => None
  | x :: l' => orelse (k x) (find_some k l')
  end.

Fixpoint ends_star (body : mstate -> list mstate) (greedy : bool)
    (fuel : nat) (st : mstate) : list mstate :=
  match fuel with
  | O => [st]
  | S fuel' =>
    let again :=
      flat_map (fun st' =>
        if (m_pos st <? m_pos st')%nat then ends_star body greedy fuel' st' else [])
        (body st) in
    if greedy then again ++ [st] else st :: again
  end.

Fixpoint ends_upto (body : mstate -> list mstate) (greedy : bool)
    (n : nat) (st : mstate) : list mstate :=
  match n with
  | O => [st]
  | S n' =>
    let again := flat_map (ends_upto body greedy n') (body st) in
    if greedy then again ++ [st] else st :: again
  end.

Fixpoint ends_times (body : mstate -> list mstate) (n : nat)
    (tail : mstate -> list mstate) (st : mstate) : list mstate :=
  match n with
  | O => tail st
  | S n' => flat_map (ends_times body n' tail) (body st)
  end.

Fixpoint ends (r : regex) (st : mstate) {struct r} : list mstate :=
  match r with
  | EmptyMatch => [st]
  | CharClass neg ranges =>
    match m_rest st with
    | [] => []
    | _ :: _ =>
      let (c, w) := DecodeRuneInString (m_rest st) in
      if class_matches neg ranges c then [advance w st] else []
    end
  | BeginText => if (m_pos st =? 0)%nat then [st] else []
  | EndText => match m_rest st with [] => [st] | _ :: _ => [] end
  | Capture n a => map (set_cap n (m_pos st)) (ends a st)
  | Concat a b => flat_map (ends b) (ends a st)
  | Alternate a b => ends a st ++ ends b st
  | Repeat min max greedy a =>
    ends_times (ends a) min
      (fun st1 =>
         match max with
         | None => ends_star (ends a) greedy (S (length (m_rest st1))) st1
         | Some m => ends_upto (ends a) greedy (m - min) st1
         end) st
  end.

(** [r] can match from [st] to [st']: the backtracking search succeeds when
    asked to go on from [st'] only. *)
Definition mstate_eq_dec (a b : mstate) : {a = b} + {a <> b}.
Proof. repeat decide equality. Defined.

Definition mstate_eqb (a b : mstate) : bool :=
  if mstate_eq_dec a b then true else false.

Definition reaches (r : regex) (st st' : mstate) : Prop :=
  run r st (fun x => if mstate_eqb x st' then Some x else None) = Some st'.

(** The position [st] lies in the input [s]. *)
Definition within (s : gostring) (st : mstate) : Prop :=
  (m_pos st <= length s)%nat /\ m_rest st = skipn (m_pos st) s.

(** Every end of [f] lies in the input [s], at or after the start. *)
Definition stays_within (s : gostring) (f : mstate -> list mstate) : Prop :=
  forall st, within s st ->
    Forall (fun st' => within s st' /\ (m_pos st <= m_pos st')%nat) (f st).

(** The pattern of one dot: any rune but the newline. *)
Definition dot : regex := CharClass true [(10, 10)].

(* ================================================================== *)
(** ** Vocabulary of the statements about [parseDiff] *)

(** What the third test of the loop of [parseDiff] accepts: a line that
    begins with [+] and not with [+++]. *)
Definition is_added (line : gostring) : bool :=
  HasPrefix line (str "+") && negb (HasPrefix line (str "+++")).

(** A context line. *)
Definition is_context (line : gostring) : bool := HasPrefix line (str " ").

(** A file header: a line of the form [+++ b/<path>]. *)
Definition is_file_header (line : gostring) : bool :=
  match FindStringSubmatch fileHeaderRegex line with
  | Some _ => true
  | None => false
  end.

(** A hunk header: a line the loop treats as one. *)
Definition is_hunk_header (line : gostring) : bool :=
  negb (is_file_header line) &&
  match FindStringSubmatch hunkHeaderRegex line with
  | Some _ => true
  | None => false
  end.

(** The lines that advance the counter. *)
Definition advances (line : gostring) : bool := is_added line || is_context line.

(** The lines the specification counts: those that begin with [+] and are
    no file header. *)
Definition plus_not_file_header (line : gostring) : bool :=
  HasPrefix line (str "+") && negb (is_file_header line).

(** The hunk header [line] declares the new-start [n]. *)
Definition declares_new_start (line : gostring) (n : Z) : Prop :=
  is_file_header line = false /\
  exists matches,
    FindStringSubmatch hunkHeaderRegex line = Some matches /\
    Atoi (submatch matches 1) = inr n.

(** The pieces of the pattern of hunk headers. *)
Definition digit : regex := CharClass false [(48, 57)].
Definition digits1 : regex := Repeat 1 None true digit.
Definition optcount : regex :=
  Repeat 0 (Some 1%nat) true (Concat (CharClass false [(44, 44)]) digits1).

(** A non-empty run of decimal digits. *)
Definition all_digits (ds : gostring) : Prop :=
  ds <> [] /\ Forall (fun c => is_digit c = true) ds.

(** An optional count: nothing, or a comma and digits. *)
Definition count_suffix (o : gostring) : Prop :=
  o = [] \/ exists ds, all_digits ds /\ o = ","%char :: ds.

(** A line of the form [@@ -a[,b] +n[,c] @@...]. *)
Definition hunk_header_line (a o1 n o2 tail : gostring) : gostring :=
  str "@@ -" ++ a ++ o1 ++ str " +" ++ n ++ o2 ++ str " @@" ++ tail.

(** The text [rest] does not go on with a digit. *)
Definition no_digit_ahead (rest : gostring) : Prop :=
  match rest with
  | c :: _ => is_digit c = false
  | [] => True
  end.

(** The line numbers of the records of the file [F], in emission order. *)
Definition line_numbers_of (F : gostring) (records : list DiffLine) : list Z :=
  map DiffLine.LineNum
    (filter (fun d => gostring_eqb (DiffLine.FilePath d) F) records).

(** A line that begins with a plus sign: within a hunk, the mark git puts
    on an added line. *)
Definition plus_line (line : gostring) : bool := HasPrefix line (str "+").

(** A line that begins with three plus signs: a file header, or an added
    line whose content begins with two plus signs. *)
Definition triple_plus (line : gostring) : bool := HasPrefix line (str "+++").

(** The lines of a hunk that stand in the new version of the file: added
    lines and context lines. *)
Definition in_new_file (line : gostring) : bool := plus_line line || is_context line.

(** A line that begins with three plus signs and is no file header of the
    form [+++ b/<path>]. *)
Definition triple_plus_no_header (line : gostring) : bool :=
  triple_plus line && negb (is_file_header line).

(** The counter stands above every line number recorded so far for the
    current file. *)
Definition above_records (p : parser) : bool :=
  forallb
    (fun d => negb (gostring_eqb (DiffLine.FilePath d) (currentFile p))
              || (DiffLine.LineNum d <? currentLineNum p))
    (lines p).

(** After every line of [tokens] the counter stands above the line numbers
    recorded for the file then current: no hunk header declares a new-start
    at or below a line recorded for its file, no file header names a file
    with a line recorded at or above the counter, and the counter does not
    wrap around. *)
Fixpoint keeps_order (p : parser) (tokens : list gostring) : bool :=
  match tokens with
  | [] => true
  | line :: tokens' =>
    match parseLine p line with
    | inl _ => true
    | inr p' => above_records p' && keeps_order p' tokens'
    end
  end.

(** No line of [tokens] lowers the counter, and every recorded line raises
    it. *)
Fixpoint counter_rises (p : parser) (tokens : list gostring) : bool :=
  match tokens with
  | [] => true
  | line :: tokens' =>
    match parseLine p line with
    | inl _ => true
    | inr p' =>
      (if is_added line then currentLineNum p <? currentLineNum p'
       else currentLineNum p <=? currentLineNum p')
      && counter_rises p' tokens'
    end
  end.


(** A chain of literal runes in front of [r]. *)
Definition literals (cs : list Z) (r : regex) : regex :=
  fold_right (fun c r => Concat (CharClass false [(c, c)]) r) r cs.


(* ================================================================== *)
(** ** Vocabulary of the statements about ignore patterns *)

(** The continuation that accepts the end of the input only. *)
Definition at_end : kont :=
  fun st => match m_rest st with [] => Some st | _ :: _ => None end.

(** [r] matches the entire string [s]: a match that begins at offset 0 and
    ends at [len(s)]. *)
Definition matches_entire (r : regex) (s : gostring) : bool :=
  match run r (start_state s) at_end with Some _ => true | None => false end.

(** What [regexp.Compile] makes of the translation of the glob token with
    two stars and a slash. *)
Definition doublestar_slash : regex :=
  Alternate
    (Concat (Repeat 0 None true (CharClass true [(10, 10)]))
            (CharClass false [(47, 47)]))
    BeginText.
(* ================================================================== *)
(** ** unicode.IsSpace, utf8.DecodeLastRuneInString and strings.TrimSpace *)

Definition UTFMax : Z := 4.

(** [unicode.IsSpace]: the spaces of Latin-1 by the switch of the function,
    the others by the table [White_Space]. *)
Definition IsSpace (r : Z) : bool :=
  if r <=? 255 then
    (r =? 9) || (r =? 10) || (r =? 11) || (r =? 12) || (r =? 13) || (r =? 32)
    || (r =? 133) || (r =? 160)
  else
    (r =? 5760) || between 8192 r 8202 || between 8232 r 8233 || (r =? 8239)
    || (r =? 8287) || (r =? 12288).

(** The table [asciiSpace] of package strings. *)
Definition asciiSpace (c : ascii) : bool :=
  between 9 (byteZ c) 13 || (byteZ c =? 32).

(** [utf8.RuneStart]: the byte is no continuation byte. *)
Definition RuneStart (c : ascii) : bool := negb (Z.land (byteZ c) 192 =? 128).

(** [s[i]] for an index in range. *)
Definition byte_at (s : gostring) (i : Z) : ascii := nth (Z.to_nat i) s zero.

(** The backward loop of [DecodeLastRuneInString]: from [start] down to
    [lim], stop at a byte that starts a rune. *)
Fixpoint rune_start_before (fuel : nat) (s : gostring) (start lim : Z) : Z :=
  match fuel with
  | O => start
  | S fuel' =>
    if start <? lim then start
    else if RuneStart (byte_at s start) then start
    else rune_start_before fuel' s (start - 1) lim
  end.

(** [utf8.DecodeLastRuneInString]. *)
Definition DecodeLastRuneInString (s : gostring) : Z * nat :=
  let end_ := Z.of_nat (length s) in
  if end_ =? 0 then (RuneError, 0%nat)
  else
    let start := end_ - 1 in
    let r := byteZ (byte_at s start) in
    if r <? RuneSelf then (r, 1%nat)
    else
      let lim := Z.max 0 (end_ - UTFMax) in
      let start := rune_start_before 4 s (start - 1) lim in
      let start := if start <? 0 then 0 else start in
      let (r, size) := DecodeRuneInString (skipn (Z.to_nat start) s) in
      if negb (start + Z.of_nat size =? end_) then (RuneError, 1%nat) else (r, size).

(** [indexFunc(s, f, truth)], where [s] is the text from index [i] on: the
    index of the first rune on which [f] gives [truth]; [None] for -1. *)
Fixpoint indexFunc_from (fuel : nat) (s : gostring) (i : nat) (f : Z -> bool)
    (truth : bool) : option nat :=
  match fuel, s with
  | _, [] | O, _ => None
  | S fuel', _ :: _ =>
    let (r, w) := DecodeRuneInString s in
    if Bool.eqb (f r) truth then Some i
    else indexFunc_from fuel' (skipn w s) (i + w) f truth
  end.

Definition indexFunc (s : gostring) (f : Z -> bool) (truth : bool) : option nat :=
  indexFunc_from (length s) s 0 f truth.

(** [lastIndexFunc(s, f, truth)], the loop from [i] down. *)
Fixpoint lastIndexFunc_from (fuel : nat) (s : gostring) (i : nat) (f : Z -> bool)
    (truth : bool) : option nat :=
  match fuel with
  | O => None
  | S fuel' =>
    if (0 <? i)%nat then
      let (r, size) := DecodeLastRuneInString (firstn i s) in
      let i := (i - size)%nat in
      if Bool.eqb (f r) truth then Some i
      else lastIndexFunc_from fuel' s i f truth
    else None
  end.

Definition lastIndexFunc (s : gostring) (f : Z -> bool) (truth : bool) : option nat :=
  lastIndexFunc_from (length s) s (length s) f truth.

(** [strings.TrimLeftFunc], [strings.TrimRightFunc] and [strings.TrimFunc]. *)
Definition TrimLeftFunc (s : gostring) (f : Z -> bool) : gostring :=
  match indexFunc s f false with
  | None => []
  | Some i => skipn i s
  end.

Definition TrimRightFunc (s : gostring) (f : Z -> bool) : gostring :=
  match lastIndexFunc s f false with
  | Some i =>
    if RuneSelf <=? byteZ (byte_at s (Z.of_nat i))
    then firstn (i + snd (DecodeRuneInString (skipn i s))) s
    else firstn (i + 1) s
  | None => []
  end.

Definition TrimFunc (s : gostring) (f : Z -> bool) : gostring :=
  TrimRightFunc (TrimLeftFunc s f) f.

(** The first loop of [strings.TrimSpace]: [inl] is the result of the early
    return on a byte outside ASCII, [inr] is [s[start:]] after the loop. *)
Fixpoint TrimSpace_start (s : gostring) : gostring + gostring :=
  match s with
  | [] => inr []
  | c :: s' =>
    if RuneSelf <=? byteZ c then inl (TrimFunc s IsSpace)
    else if asciiSpace c then TrimSpace_start s'
    else inr s
  end.

(** The second loop, on [s[start:stop]] read backwards. *)
Fixpoint TrimSpace_stop (r : gostring) : gostring :=
  match r with
  | [] => []
  | c :: r' =>
    if RuneSelf <=? byteZ c then TrimRightFunc (rev r) IsSpace
    else if asciiSpace c then TrimSpace_stop r'
    else rev r
  end.

(** [strings.TrimSpace]. *)
Definition TrimSpace (s : gostring) : gostring :=
  match TrimSpace_start s with
  | inl result => result
  | inr t => TrimSpace_stop (rev t)
  end.

(* ================================================================== *)
(** ** ignore.go: LoadIgnoreFile

    The file system enters through what [os.Open] returns and what reading
    the opened file delivers. *)

(** An error of package os; [os.IsNotExist] holds of the first. *)
Inductive os_error : Type :=
| ErrNotExist
| ErrOS (msg : gostring).

Definition IsNotExist (err : os_error) : bool :=
  match err with ErrNotExist => true | ErrOS _ => false end.

(** An opened file: the bytes its reads deliver and the error that ends
    them, [None] at the end of the file. *)
Record opened_file : Type := {
  file_bytes : gostring;
  file_read_error : option os_error
}.

(** The errors [LoadIgnoreFile] returns. *)
Inductive load_error : Type :=
| FailedToOpen (err : os_error)           (* failed to open .secretignore: %w *)
| ErrorReading (err : error + os_error).  (* error reading .secretignore: %w *)

(** One warning written to standard error: the line and the error of
    [AddPattern]. *)
Definition warning : Type := (gostring * error)%type.

(** [bufio.Scanner] on an opened file: the tokens, and [scanner.Err()]. *)
Definition ScannerFile (f : opened_file) : list gostring * option (error + os_error) :=
  let (tokens, scanErr) := Scanner (file_bytes f) in
  (tokens,
   match scanErr with
   | Some err => Some (inl err)
   | None => option_map inr (file_read_error f)
   end).

(** The pattern a token of the file stands for: [None] for an empty line
    or a comment. *)
Definition pattern_of_line (token : gostring) : option gostring :=
  let line := TrimSpace token in
  if gostring_eqb line [] || HasPrefix line (str "#") then None else Some line.

(** One round of the loop of [LoadIgnoreFile]. *)
Definition load_line (st : IgnoreChecker * list warning) (token : gostring)
    : IgnoreChecker * list warning :=
  match pattern_of_line token with
  | None => st
  | Some line =>
    match AddPattern (fst st) line with
    | (ic', Some err) => (ic', snd st ++ [(line, err)])
    | (ic', None) => (ic', snd st)
    end
  end.

(** [LoadIgnoreFile]: the checker after the call, the warnings written and
    the error returned. *)
Definition LoadIgnoreFile (ic : IgnoreChecker) (opened : os_error + opened_file)
    : IgnoreChecker * list warning * option load_error :=
  match opened with
  | inl err =>
    if IsNotExist err then (ic, [], None) else (ic, [], Some (FailedToOpen err))
  | inr f =>
    let (tokens, scanErr) := ScannerFile f in
    let (ic', warnings) := fold_left load_line tokens (ic, []) in
    (ic', warnings, option_map ErrorReading scanErr)
  end.

(* ================================================================== *)
(** ** differ.go: the calls of git

    The three commands enter through what [cmd.Run] and [cmd.Output]
    return. *)

(** An error of [cmd.Run] or [cmd.Output]: an [*exec.ExitError] with its
    exit code, or another error. *)
Inductive exec_error : Type :=
| ExitError (code : Z)
| ExecFailure (msg : gostring).

Record git : Type := {
  git_rev_parse : option exec_error;              (* git rev-parse --git-dir *)
  git_diff_quiet : option exec_error;             (* git diff --cached --quiet *)
  git_diff_cached : gostring * option exec_error  (* git diff --cached -U0 *)
}.

Inductive differ_error : Type :=
| FailedGitDiff (err : exec_error)       (* failed to get git diff: %w *)
| ParseDiffError (err : error)           (* an error of parseDiff *)
| FailedStagedCheck (err : exec_error).  (* failed to check for staged changes: %w *)

(** [GetStagedChanges]. *)
Definition GetStagedChanges (g : git) : list DiffLine * option differ_error :=
  match git_diff_cached g with
  | (_, Some err) => ([], Some (FailedGitDiff err))
  | (output, None) =>
    let (lines, err) := parseDiff output in (lines, option_map ParseDiffError err)
  end.

(** [IsInGitRepo]. *)
Definition IsInGitRepo (g : git) : bool :=
  match git_rev_parse g with None => true | Some _ => false end.

(** [HasStagedChanges]. *)
Definition HasStagedChanges (g : git) : bool * option differ_error :=
  match git_diff_quiet g with
  | Some (ExitError code) =>
    if code =? 1 then (true, None) else (false, Some (FailedStagedCheck (ExitError code)))
  | Some err => (false, Some (FailedStagedCheck err))
  | None => (false, None)
  end.

(* ================================================================== *)
(** ** The scan command: scanStagedChanges *)

(** [%d] of an [int]. *)
Definition Itoa (z : Z) : gostring := str (NilZero.string_of_int (Z.to_int z)).

Inductive cli_error : Type :=
| NotInRepository                          (* not in a git repository *)
| StagedCheckFailed (err : differ_error)   (* failed to check for staged changes: %w *)
| StagedChangesFailed (err : differ_error) (* failed to get staged changes: %w *)
| SecretsDetected.                         (* secrets detected - commit blocked *)

(** The four lines printed for a finding. *)
Definition report (finding : Finding) : list gostring :=
  [ str "Rule     : " ++ Finding.RuleID finding ++ [newline];
    str "File     : " ++ Finding.FilePath finding ++ str ":"
      ++ Itoa (Finding.LineNum finding) ++ [newline];
    str "Snippet  : " ++ MaskSecret finding ++ [newline];
    str "Advice   : " ++ Finding.Advice finding ++ [newline; newline] ].

(** [scanStagedChanges]: what is written to standard output, call by call,
    and the error returned. *)
Definition scanStagedChanges (g : git) : list gostring * option cli_error :=
  if negb (IsInGitRepo g) then ([], Some NotInRepository)
  else
    match HasStagedChanges g with
    | (_, Some err) => ([], Some (StagedCheckFailed err))
    | (false, None) => ([str "✅ No staged changes to scan" ++ [newline]], None)
    | (true, None) =>
      match GetStagedChanges g with
      | (_, Some err) => ([], Some (StagedChangesFailed err))
      | (lines, None) =>
        if (length lines =? 0)%nat
        then ([str "✅ No new lines to scan" ++ [newline]], None)
        else
          let found :=
            str "📄 Found " ++ Itoa (Z.of_nat (length lines))
            ++ str " added lines to scan" ++ [newline] in
          let findings := ScanLines NewSecretScanner lines in
          if (length findings =? 0)%nat
          then ([found; str "✅ No secrets detected in staged changes" ++ [newline]], None)
          else
            ([found;
              [newline] ++ str "⛔ " ++ Itoa (Z.of_nat (length findings))
              ++ str " secret(s) detected in staged changes:" ++ [newline; newline]]
             ++ flat_map report findings
             ++ [str "Commit aborted." ++ [newline]],
             Some SecretsDetected)
      end
    end.

(* ================================================================== *)
(** ** Vocabulary of the statements about findings *)

(** The Finding that [ScanLine] builds for the match [m] of [rule]. *)
Definition finding_of (rule : SecretRule) (filePath : gostring) (lineNum : Z)
    (content : gostring) (m : nat * mstate) : Finding :=
  {| Finding.RuleID := SecretRule.ID rule;
     Finding.RuleName := SecretRule.Name rule;
     Finding.FilePath := filePath;
     Finding.LineNum := lineNum;
     Finding.Content := content;
     Finding.Match := slice content (fst m) (m_pos (snd m));
     Finding.StartPos := Z.of_nat (fst m);
     Finding.EndPos := Z.of_nat (m_pos (snd m));
     Finding.Description := SecretRule.Description rule;
     Finding.Advice := SecretRule.Advice rule |}.

(** The byte [c] lies in the ranges of a class. *)
Definition byte_in (ranges : list (Z * Z)) (c : ascii) : bool :=
  in_ranges (byteZ c) ranges.

(** The number of leading bytes of [s] that lie in the ranges. *)
Fixpoint span_len (ranges : list (Z * Z)) (s : gostring) : nat :=
  match s with
  | c :: s' => if byte_in ranges c then S (span_len ranges s') else O
  | [] => O
  end.

(** The class of the letters and digits of ASCII, as the patterns write it. *)
Definition alnum_ranges : list (Z * Z) := [(65, 90); (97, 122); (48, 57)].
Definition is_alnum (c : ascii) : bool := byte_in alnum_ranges c.

(** The shape of the patterns of the token rules: a literal prefix, then
    [n] letters or digits, or [n] and more. *)
Definition token_pattern (prefix : gostring) (n : nat) (more : bool) : regex :=
  literals (map byteZ prefix)
    (Repeat n (if more then None else Some n) true (CharClass false alnum_ranges)).

(** The token rules: identifier, prefix, count, and whether more letters or
    digits may follow. *)
Definition token_rules : list (gostring * gostring * nat * bool) :=
  [ (str "OPENAI_API_KEY", str "sk-", 20%nat, true);
    (str "GITHUB_PAT", str "ghp_", 36%nat, false);
    (str "STRIPE_LIVE_PK", str "pk_live_", 24%nat, false);
    (str "STRIPE_LIVE_SK", str "sk_live_", 24%nat, false) ].

(** The least number of runes a match of [r] consumes. *)
Fixpoint min_runes (r : regex) : nat :=
  match r with
  | EmptyMatch | BeginText | EndText => 0
  | CharClass _ _ => 1
  | Capture _ a => min_runes a
  | Concat a b => min_runes a + min_runes b
  | Alternate a b => Nat.min (min_runes a) (min_runes b)
  | Repeat min _ _ a => min * min_runes a
  end.

(** Every end of [f] lies at least [n] bytes after the start. *)
Definition grows_by (n : nat) (f : mstate -> list mstate) : Prop :=
  forall st, Forall (fun x => (m_pos st + n <= m_pos x)%nat) (f st).

(* ================================================================== *)
(** ** Vocabulary of the statements about diffs *)

(** A file header with the path [P]. *)
Definition file_header_line (P : gostring) : gostring := str "+++ b/" ++ P.

(** The lines that can change the state of the loop of [parseDiff]: those
    that begin with a plus sign, a space, or the opening of a hunk header. *)
Definition has_effect (line : gostring) : bool :=
  HasPrefix line (str "+") || HasPrefix line (str " ") || HasPrefix line (str "@@ -").

(** A well-formed hunk header whose new-start is beyond the range of [int]. *)
Definition exceeds_int (line : gostring) : Prop :=
  exists a o1 n o2 tail,
    all_digits a /\ count_suffix o1 /\ all_digits n /\ count_suffix o2 /\
    line = hunk_header_line a o1 n o2 tail /\ MaxInt64 < decimal 0 n.

(* ================================================================== *)
(** ** Vocabulary of the statements about ignore files *)

(** The compiled form of a glob, [None] where [AddPattern] returns an
    error. *)
Definition compile_glob (glob : gostring) : option regex :=
  match globToRegex glob with
  | inl _ => None
  | inr regex => Compile regex
  end.

(** The regex list holds, entry by entry, the compiled forms of the
    patterns. *)
Definition well_formed (ic : IgnoreChecker) : Prop :=
  Forall2 (fun glob re => compile_glob glob = Some re) (patterns ic) (regexes ic).

(** The lines of an ignore file that stand for a pattern, trimmed. *)
Definition candidates (tokens : list gostring) : list gostring :=
  flat_map (fun token => match pattern_of_line token with
                         | Some line => [line]
                         | None => []
                         end) tokens.

Definition accepted (line : gostring) : bool :=
  match compile_glob line with Some _ => true | None => false end.

(** The translation of the glob stays within the syntax of regexp that the
    model of [regexp.Compile] covers. *)
Definition within_model (glob : gostring) : bool :=
  match globToRegex glob with
  | inl _ => true
  | inr regex =>
    match Parse regex with
    | PUnmodelled => false
    | _ => true
    end
  end.

(** A byte that [globToRegex] copies into the pattern, escaped where the
    syntax of regexp needs it: a byte of ASCII other than the star, the
    question mark and the opening bracket. *)
Definition plain_byte (c : ascii) : bool :=
  (byteZ c <? RuneSelf)
  && negb ((c =? "*")%char || (c =? "?")%char || (c =? "[")%char).

(** The translation of a run of plain bytes. *)
Definition escape_byte (c : ascii) : gostring :=
  if is_regex_special c then ["\"%char; c] else [c].

Definition escape (s : gostring) : gostring := flat_map escape_byte s.

(** The class of every rune but the slash. *)
Definition not_slash : regex := CharClass true [(47, 47)].

(** [s] is [lit1], then bytes without a slash, then [lit2]. *)
Definition star_matches (lit1 lit2 s : gostring) : Prop :=
  exists w, ~ In "/"%char w /\ s = lit1 ++ w ++ lit2.

(** [s] is [lit] followed by bytes without a newline. *)
Definition prefix_matches (lit s : gostring) : Prop :=
  exists w, ~ In newline w /\ s = lit ++ w.

(** A byte of ASCII that is no white space. *)
Definition ascii_nonspace (c : ascii) : bool :=
  (byteZ c <? RuneSelf) && negb (asciiSpace c).

(* ================================================================== *)
(** * Properties *)

(** ** Bytes and strings *)

Lemma byteZ_range (c : ascii) : 0 <= byteZ c < 256.
Proof.
  unfold byteZ. pose proof (N_ascii_bounded c). lia.
Qed.

Lemma byteZ_inj (c d : ascii) : byteZ c = byteZ d -> c = d.
Proof.
  unfold byteZ. intros H.
  rewrite <- (ascii_N_embedding c), <- (ascii_N_embedding d).
  f_equal. lia.
Qed.

Lemma byte_of_Z_byteZ (c : ascii) : byte_of_Z (byteZ c) = c.
Proof.
  unfold byte_of_Z, byteZ. rewrite N2Z.id. apply ascii_N_embedding.
Qed.


Lemma HasPrefix_inv (p s : gostring) :
  HasPrefix s p = true -> exists t, s = p ++ t.
Proof.
  revert s. induction p as [|c p IH]; intros s H; simpl in *.
  - now exists s.
  - destruct s as [|d s]; [discriminate|].
    apply andb_true_iff in H as [Hc Hp].
    apply Ascii.eqb_eq in Hc. subst d.
    destruct (IH _ Hp) as [t ->]. now exists t.
Qed.


Lemma length_slice (s : gostring) (i j : nat) :
  (i <= j <= length s)%nat -> length (slice s i j) = (j - i)%nat.
Proof.
  intros H. unfold slice. rewrite length_firstn, length_skipn. lia.
Qed.

(* ================================================================== *)
(** ** C1: masking *)

(** C1.  For every matched substring [s], [MaskSecret] returns a string of
    the length of [s]; if [s] has at most 8 bytes the result consists of
    mask characters only; otherwise its first 4 and last 4 bytes are those
    of [s] and every byte strictly between them is the mask character. *)
Theorem MaskSecret_shape (f : Finding) :
  let s := Finding.Match f in
  let m := MaskSecret f in
  length m = length s /\
  if (length s <=? 8)%nat then m = repeat "*"%char (length s)
  else slice m 0 4 = slice s 0 4 /\
       slice m (length s - 4) (length s) = slice s (length s - 4) (length s) /\
       slice m 4 (length s - 4) = repeat "*"%char (length s - 8).
Proof.
  cbv zeta. unfold MaskSecret, Repeat1.
  set (s := Finding.Match f).
  destruct (length s <=? 8)%nat eqn:Hlen.
  - split; [apply repeat_length | reflexivity].
  - apply Nat.leb_gt in Hlen.
    set (a := slice s 0 4).
    set (z := slice s (length s - 4) (length s)).
    set (mid := repeat "*"%char (length s - 8)).
    assert (Ha : length a = 4%nat).
    { unfold a. rewrite length_slice; lia. }
    assert (Hz : length z = 4%nat).
    { unfold z. rewrite length_slice; lia. }
    assert (Hmid : length mid = (length s - 8)%nat) by apply repeat_length.
    split; [|split; [|split]].
    + rewrite !length_app. lia.
    + unfold slice at 1. rewrite skipn_O, firstn_app.
      replace (4 - 0 - length a)%nat with 0%nat by lia.
      rewrite firstn_O, app_nil_r, firstn_all2 by lia. reflexivity.
    + unfold slice at 1.
      rewrite app_assoc, skipn_app.
      rewrite (skipn_all2 (a ++ mid)) by (rewrite length_app; lia).
      rewrite length_app.
      replace (length s - 4 - (length a + length mid))%nat with 0%nat by lia.
      rewrite skipn_O. cbn [app]. rewrite firstn_all2 by lia. reflexivity.
    + unfold slice at 1.
      rewrite skipn_app, (skipn_all2 a) by lia.
      replace (4 - length a)%nat with 0%nat by lia.
      rewrite skipn_O. cbn [app]. rewrite firstn_app.
      replace (length s - 4 - 4 - length mid)%nat with 0%nat by lia.
      rewrite firstn_O, app_nil_r, firstn_all2 by lia. reflexivity.
Qed.

(* ================================================================== *)
(** ** UTF-8 decoding *)

Lemma DecodeRune_ascii (c : ascii) (t : gostring) :
  byteZ c < RuneSelf -> DecodeRuneInString (c :: t) = (byteZ c, 1%nat).
Proof.
  intros H. unfold DecodeRuneInString.
  apply Z.ltb_lt in H. now rewrite H.
Qed.

Lemma DecodeRune_width (s : gostring) :
  s <> [] ->
  (1 <= snd (DecodeRuneInString s) <= length s)%nat.
Proof.
  destruct s as [|c0 t]; [congruence|]. intros _.
  unfold DecodeRuneInString.
  destruct (byteZ c0 <? RuneSelf); [simpl; lia|].
  destruct (first (byteZ c0)) as [[[sz lo] hi]|]; [|simpl; lia].
  destruct t as [|c1 t1]; [simpl; lia|].
  destruct (negb (between lo (byteZ c1) hi)); [simpl; lia|].
  destruct (sz <=? 2)%nat; [simpl; lia|].
  destruct t1 as [|c2 t2]; [simpl; lia|].
  destruct (negb (is_cont c2)); [simpl; lia|].
  destruct (sz <=? 3)%nat; [simpl; lia|].
  destruct t2 as [|c3 t3]; [simpl; lia|].
  destruct (negb (is_cont c3)); simpl; lia.
Qed.

Lemma lor_ge_pow2_l (n a b : Z) :
  0 <= n -> 2 ^ n <= a -> 0 <= b -> 2 ^ n <= Z.lor a b.
Proof.
  intros Hn Ha Hb.
  assert (0 < a) by (pose proof (Z.pow_pos_nonneg 2 n); lia).
  assert (0 <= Z.lor a b) by (apply Z.lor_nonneg; lia).
  assert (Hl : Z.log2 a <= Z.log2 (Z.lor a b)).
  { rewrite Z.log2_lor by lia. lia. }
  apply Z.log2_le_pow2 in Ha; [|lia].
  destruct (Z.eq_dec (Z.lor a b) 0) as [E|E].
  - rewrite E in Hl. change (Z.log2 0) with 0 in Hl.
    assert (Z.log2 a = 0) by (pose proof (Z.log2_nonneg a); lia).
    assert (n = 0) by lia. subst n.
    apply Z.lor_eq_0_iff in E. lia.
  - apply Z.log2_le_pow2; lia.
Qed.

Lemma lor_ge_pow2_r (n a b : Z) :
  0 <= n -> 0 <= a -> 2 ^ n <= b -> 2 ^ n <= Z.lor a b.
Proof.
  intros. rewrite Z.lor_comm. now apply lor_ge_pow2_l.
Qed.

Lemma maskx_eq (c : ascii) : maskx c = byteZ c mod 64.
Proof. unfold maskx. change 63 with (Z.ones 6). now rewrite Z.land_ones. Qed.

Lemma maskx_nonneg (c : ascii) : 0 <= maskx c.
Proof. rewrite maskx_eq. apply Z.mod_pos_bound. lia. Qed.

(** A byte from 0x80 on never decodes to an ASCII rune. *)
Lemma DecodeRune_high (c : ascii) (t : gostring) :
  RuneSelf <= byteZ c -> RuneSelf <= fst (DecodeRuneInString (c :: t)).
Proof.
  intros H. unfold DecodeRuneInString, RuneSelf in *.
  destruct (byteZ c <? 128) eqn:E; [apply Z.ltb_lt in E; lia|].
  pose proof (byteZ_range c) as Hc.
  set (s0 := byteZ c) in *.
  assert (Herr : 128 <= RuneError) by (unfold RuneError; lia).
  destruct (first s0) as [[[sz lo] hi]|] eqn:F; [|exact Herr].
  destruct t as [|c1 t1]; [exact Herr|].
  destruct (negb (between lo (byteZ c1) hi)) eqn:B1; [exact Herr|].
  apply negb_false_iff in B1. unfold between in B1.
  apply andb_true_iff in B1 as [B1 B1']. apply Z.leb_le in B1, B1'.
  pose proof (byteZ_range c1) as Hc1.
  pose proof (maskx_nonneg c1) as M1.
  assert (L5 : Z.land s0 31 = s0 mod 32) by (change 31 with (Z.ones 5); now rewrite Z.land_ones).
  assert (L4 : Z.land s0 15 = s0 mod 16) by (change 15 with (Z.ones 4); now rewrite Z.land_ones).
  assert (L3 : Z.land s0 7 = s0 mod 8) by (change 7 with (Z.ones 3); now rewrite Z.land_ones).
  pose proof (Z.div_mod s0 32 ltac:(lia)) as D5.
  pose proof (Z.mod_pos_bound s0 32 ltac:(lia)) as R5.
  pose proof (Z.div_mod s0 16 ltac:(lia)) as D4.
  pose proof (Z.mod_pos_bound s0 16 ltac:(lia)) as R4.
  pose proof (Z.div_mod s0 8 ltac:(lia)) as D3.
  pose proof (Z.mod_pos_bound s0 8 ltac:(lia)) as R3.
  pose proof (Z.div_mod (byteZ c1) 64 ltac:(lia)) as D1.
  pose proof (Z.mod_pos_bound (byteZ c1) 64 ltac:(lia)) as R1.
  pose proof (maskx_eq c1) as E1.
  unfold first, between in F.
  repeat match type of F with
  | (if ?b then _ else _) = _ =>
    let Hb := fresh "Hb" in destruct b eqn:Hb;
    [ injection F as <- <- <- | ]
  end; try discriminate;
  repeat match goal with
  | Hb : (_ && _) = true |- _ => apply andb_true_iff in Hb as [? ?]
  | Hb : (_ <=? _) = true |- _ => apply Z.leb_le in Hb
  | Hb : (_ =? _) = true |- _ => apply Z.eqb_eq in Hb
  end.
  all: cbn [Nat.leb].
  all: repeat match goal with
       | |- context [match ?l with [] => _ | _ :: _ => _ end] =>
         destruct l; [exact Herr|]
       | |- context [if negb (is_cont ?x) then _ else _] =>
         destruct (negb (is_cont x)); [exact Herr|]
       end.
  all: cbn [fst]; rewrite ?Z.shiftl_mul_pow2 by lia.
  all: change 128 with (2 ^ 7).
  (* two bytes *)
  1: apply lor_ge_pow2_l; [lia| |lia]; rewrite L5; change (2 ^ 7) with 128;
     change (2 ^ 6) with 64; lia.
  (* three bytes, 0xE0 *)
  1: apply lor_ge_pow2_r; [lia| |];
     [ rewrite L4; change (2 ^ 12) with 4096; lia
     | apply lor_ge_pow2_l; [lia| |apply maskx_nonneg];
       rewrite E1; change (2 ^ 7) with 128; change (2 ^ 6) with 64; lia ].
  (* three bytes *)
  1-3: apply lor_ge_pow2_l; [lia| |];
     [ rewrite L4; change (2 ^ 7) with 128; change (2 ^ 12) with 4096; lia
     | apply Z.lor_nonneg; split; [|apply maskx_nonneg];
       change (2 ^ 6) with 64; lia ].
  (* four bytes, 0xF0 *)
  1: apply lor_ge_pow2_r; [lia| |];
     [ rewrite L3; change (2 ^ 18) with 262144; lia
     | apply lor_ge_pow2_l; [lia| |];
       [ rewrite E1; change (2 ^ 7) with 128; change (2 ^ 12) with 4096; lia
       | apply Z.lor_nonneg; split; [|apply maskx_nonneg];
         pose proof (maskx_nonneg a); change (2 ^ 6) with 64; lia ] ].
  (* four bytes *)
  all: apply lor_ge_pow2_l; [lia| |];
     [ rewrite L3; change (2 ^ 7) with 128; change (2 ^ 18) with 262144; lia
     | apply Z.lor_nonneg; split;
       [ change (2 ^ 12) with 4096; lia
       | apply Z.lor_nonneg; split; [|apply maskx_nonneg];
         pose proof (maskx_nonneg a); change (2 ^ 6) with 64; lia ] ].
Qed.

(** A rune below 0x80 is decoded from the byte of that value alone. *)
Lemma DecodeRune_ascii_inv (c : ascii) (t : gostring) :
  fst (DecodeRuneInString (c :: t)) < RuneSelf ->
  DecodeRuneInString (c :: t) = (byteZ c, 1%nat).
Proof.
  intros H. destruct (Z_lt_le_dec (byteZ c) RuneSelf) as [L|G].
  - now apply DecodeRune_ascii.
  - pose proof (DecodeRune_high c t G). lia.
Qed.

(* ================================================================== *)
(** ** The matcher as a list of successes *)

Lemma orelse_None_r (a : option mstate) : orelse a None = a.
Proof. now destruct a. Qed.

Lemma orelse_assoc (a b c : option mstate) :
  orelse (orelse a b) c = orelse a (orelse b c).
Proof. now destruct a. Qed.

Lemma find_some_app (k : kont) (a b : list mstate) :
  find_some k (a ++ b) = orelse (find_some k a) (find_some k b).
Proof.
  induction a as [|x a IH]; simpl; [reflexivity|].
  now rewrite IH, orelse_assoc.
Qed.

Lemma find_some_ext (k k' : kont) (l : list mstate) :
  (forall x, k x = k' x) -> find_some k l = find_some k' l.
Proof.
  intros H. induction l as [|x l IH]; simpl; [reflexivity|].
  now rewrite H, IH.
Qed.

Lemma find_some_flat_map (k : kont) (f : mstate -> list mstate) (l : list mstate) :
  find_some k (flat_map f l) = find_some (fun x => find_some k (f x)) l.
Proof.
  induction l as [|x l IH]; simpl; [reflexivity|].
  now rewrite find_some_app, IH.
Qed.

Lemma find_some_map (k : kont) (f : mstate -> mstate) (l : list mstate) :
  find_some k (map f l) = find_some (fun x => k (f x)) l.
Proof.
  induction l as [|x l IH]; simpl; [reflexivity|]. now rewrite IH.
Qed.

Section Bodies.
Variable body : mstate -> kont -> option mstate.
Variable ebody : mstate -> list mstate.
Hypothesis body_ends : forall st k, body st k = find_some k (ebody st).

Lemma star_ends (greedy : bool) (fuel : nat) :
  forall st k, star body greedy fuel st k = find_some k (ends_star ebody greedy fuel st).
Proof.
  induction fuel as [|fuel IH]; intros st k; simpl.
  - now rewrite orelse_None_r.
  - rewrite body_ends.
    rewrite (find_some_ext _
               (fun st' => find_some k
                  (if (m_pos st <? m_pos st')%nat
                   then ends_star ebody greedy fuel st' else []))).
    2:{ intros x. destruct (m_pos st <? m_pos x)%nat; [apply IH | reflexivity]. }
    rewrite <- find_some_flat_map.
    destruct greedy; simpl.
    + rewrite find_some_app. simpl. now rewrite orelse_None_r.
    + reflexivity.
Qed.

Lemma upto_ends (greedy : bool) (n : nat) :
  forall st k, upto body greedy n st k = find_some k (ends_upto ebody greedy n st).
Proof.
  induction n as [|n IH]; intros st k; simpl.
  - now rewrite orelse_None_r.
  - rewrite body_ends.
    rewrite (find_some_ext _ (fun st' => find_some k (ends_upto ebody greedy n st')))
      by (intros; apply IH).
    rewrite <- find_some_flat_map.
    destruct greedy; simpl.
    + rewrite find_some_app. simpl. now rewrite orelse_None_r.
    + reflexivity.
Qed.

Lemma times_ends (n : nat) (tail : mstate -> kont -> option mstate)
    (etail : mstate -> list mstate) :
  (forall st k, tail st k = find_some k (etail st)) ->
  forall st k, times body n tail st k = find_some k (ends_times ebody n etail st).
Proof.
  intros Ht. induction n as [|n IH]; intros st k; simpl.
  - apply Ht.
  - rewrite body_ends.
    rewrite (find_some_ext _ (fun st' => find_some k (ends_times ebody n etail st')))
      by (intros; apply IH).
    now rewrite <- find_some_flat_map.
Qed.
End Bodies.

Lemma run_ends (r : regex) :
  forall st k, run r st k = find_some k (ends r st).
Proof.
  induction r as [| neg ranges | | | n a IH | a IHa b IHb | a IHa b IHb
                  | min max greedy a IH]; intros st k; cbn [run ends].
  - simpl. now rewrite orelse_None_r.
  - destruct (m_rest st); [reflexivity|].
    destruct (DecodeRuneInString _) as [c w].
    destruct (class_matches neg ranges c); simpl;
      [now rewrite orelse_None_r | reflexivity].
  - destruct (m_pos st =? 0)%nat; simpl; [now rewrite orelse_None_r | reflexivity].
  - destruct (m_rest st); simpl; [now rewrite orelse_None_r | reflexivity].
  - rewrite IH, find_some_map. reflexivity.
  - rewrite IHa, find_some_flat_map.
    apply find_some_ext. intros x. apply IHb.
  - now rewrite IHa, IHb, find_some_app.
  - apply times_ends; [exact IH|].
    intros st1 k1. destruct max as [m|].
    + now apply upto_ends.
    + now apply star_ends.
Qed.


Lemma exec_hd (r : regex) (st : mstate) :
  exec r st = hd_error (ends r (MState (m_pos st) (m_rest st) [])).
Proof.
  unfold exec. rewrite run_ends.
  destruct (ends r _); reflexivity.
Qed.

(* ================================================================== *)
(** ** Positions stay within the input *)

Lemma stays_within_flat_map s f g :
  stays_within s f -> stays_within s g ->
  stays_within s (fun st => flat_map g (f st)).
Proof.
  intros Hf Hg st Hst. apply Forall_flat_map.
  eapply Forall_impl; [|apply (Hf st Hst)].
  intros x [Hx Hle]. eapply Forall_impl; [|apply (Hg x Hx)].
  intros y [Hy Hle']. split; [assumption | lia].
Qed.

Lemma within_advance s st :
  within s st -> m_rest st <> [] ->
  within s (advance (snd (DecodeRuneInString (m_rest st))) st).
Proof.
  intros [Hpos Hrest] Hne.
  pose proof (DecodeRune_width _ Hne) as Hw.
  assert (Hl : length (m_rest st) = (length s - m_pos st)%nat)
    by (rewrite Hrest; apply length_skipn).
  set (w := snd (DecodeRuneInString (m_rest st))) in *.
  unfold within, advance; cbn [m_pos m_rest]. split; [lia|].
  rewrite Hrest, skipn_skipn. f_equal. lia.
Qed.

Lemma stays_within_star s body greedy fuel :
  stays_within s body -> stays_within s (ends_star body greedy fuel).
Proof.
  intros Hb. induction fuel as [|fuel IH]; intros st Hst; simpl.
  - constructor; [split; [assumption|lia] | constructor].
  - assert (Hagain :
      Forall (fun st' => within s st' /\ (m_pos st <= m_pos st')%nat)
        (flat_map (fun st' => if (m_pos st <? m_pos st')%nat
                              then ends_star body greedy fuel st' else [])
           (body st))).
    { apply Forall_flat_map.
      eapply Forall_impl; [|apply (Hb st Hst)].
      intros x [Hx Hle]. destruct (m_pos st <? m_pos x)%nat; [|constructor].
      eapply Forall_impl; [|apply (IH x Hx)].
      intros y [Hy Hle']. split; [assumption | lia]. }
    destruct greedy.
    + apply Forall_app. split; [assumption|].
      constructor; [split; [assumption|lia] | constructor].
    + constructor; [split; [assumption|lia] | assumption].
Qed.

Lemma stays_within_upto s body greedy n :
  stays_within s body -> stays_within s (ends_upto body greedy n).
Proof.
  intros Hb. induction n as [|n IH]; intros st Hst; simpl.
  - constructor; [split; [assumption|lia] | constructor].
  - pose proof (stays_within_flat_map _ _ _ Hb IH _ Hst) as Hagain.
    destruct greedy.
    + apply Forall_app. split; [assumption|].
      constructor; [split; [assumption|lia] | constructor].
    + constructor; [split; [assumption|lia] | assumption].
Qed.

Lemma stays_within_times s body n tail :
  stays_within s body -> stays_within s tail ->
  stays_within s (ends_times body n tail).
Proof.
  intros Hb Ht. induction n as [|n IH]; simpl.
  - exact Ht.
  - exact (stays_within_flat_map _ _ _ Hb IH).
Qed.

Lemma ends_within s (r : regex) : stays_within s (ends r).
Proof.
  induction r as [| neg ranges | | | n a IH | a IHa b IHb | a IHa b IHb
                  | min max greedy a IH]; cbn [ends].
  - intros st Hst. constructor; [split; [assumption|lia] | constructor].
  - intros st Hst. destruct (m_rest st) as [|c t] eqn:E; [constructor|].
    assert (Hne : m_rest st <> []) by (rewrite E; discriminate).
    pose proof (within_advance _ _ Hst Hne) as Hadv. rewrite E in Hadv.
    destruct (DecodeRuneInString (c :: t)) as [x w]. cbn [snd] in Hadv.
    destruct (class_matches neg ranges x); [|constructor].
    constructor; [|constructor].
    split; [assumption | unfold advance; cbn [m_pos]; lia].
  - intros st Hst. destruct (m_pos st =? 0)%nat; [|constructor].
    constructor; [split; [assumption|lia] | constructor].
  - intros st Hst. destruct (m_rest st); [|constructor].
    constructor; [split; [assumption|lia] | constructor].
  - intros st Hst. apply Forall_map.
    eapply Forall_impl; [|apply (IH st Hst)].
    intros x [Hx Hle]. split; [exact Hx | exact Hle].
  - exact (stays_within_flat_map _ _ _ IHa IHb).
  - intros st Hst. apply Forall_app. split; [apply IHa | apply IHb]; assumption.
  - apply stays_within_times; [exact IH|].
    intros st1 Hst1. destruct max as [m|].
    + now apply stays_within_upto.
    + now apply stays_within_star.
Qed.

Lemma exec_within s r st fin :
  within s st -> exec r st = Some fin ->
  within s fin /\ (m_pos st <= m_pos fin)%nat.
Proof.
  intros Hst H. rewrite exec_hd in H.
  assert (Hst0 : within s (MState (m_pos st) (m_rest st) [])) by exact Hst.
  pose proof (ends_within s r _ Hst0) as HF.
  destruct (ends r _) as [|x l]; [discriminate|].
  injection H as ->. inversion HF as [|? ? Hx _]; subst. exact Hx.
Qed.

Lemma search_within s r fuel :
  forall st a fin, within s st -> search r fuel st = Some (a, fin) ->
    within s fin /\ (m_pos st <= a <= m_pos fin)%nat.
Proof.
  induction fuel as [|fuel IH]; intros st a fin Hst; cbn [search];
    destruct (exec r st) as [e|] eqn:E.
  - intros [= <- <-]. destruct (exec_within _ _ _ _ Hst E). split; [assumption|lia].
  - destruct (m_rest st); discriminate.
  - intros [= <- <-]. destruct (exec_within _ _ _ _ Hst E). split; [assumption|lia].
  - destruct (m_rest st) as [|c t] eqn:R; [discriminate|].
    intros H.
    assert (Hne : m_rest st <> []) by (rewrite R; discriminate).
    pose proof (within_advance _ _ Hst Hne) as Hadv. rewrite R in Hadv.
    destruct (IH _ _ _ Hadv H) as [Hw Hle]. split; [assumption|].
    unfold advance in Hle; cbn [m_pos] in Hle. lia.
Qed.

Lemma allMatches_within s r fuel :
  forall st prev, within s st ->
    Forall (fun m => (fst m <= m_pos (snd m) <= length s)%nat)
      (allMatches r fuel st prev).
Proof.
  induction fuel as [|fuel IH]; intros st prev Hst; cbn [allMatches];
    [constructor|].
  destruct (search r (length (m_rest st)) st) as [[a fin]|] eqn:E; [|constructor].
  destruct (search_within _ _ _ _ _ _ Hst E) as [Hfin Hle].
  assert (Hm : (fst (a, fin) <= m_pos (snd (a, fin)) <= length s)%nat).
  { cbn [fst snd]. destruct Hfin. lia. }
  destruct (m_pos fin =? m_pos st)%nat.
  - assert (Htail :
      Forall (fun m => (fst m <= m_pos (snd m) <= length s)%nat)
        match m_rest st with
        | [] => []
        | _ :: _ =>
          allMatches r fuel
            (advance (snd (DecodeRuneInString (m_rest st))) st) (Some (m_pos fin))
        end).
    { destruct (m_rest st) as [|c t] eqn:R; [constructor|].
      apply IH. rewrite <- R. apply within_advance; [assumption|].
      rewrite R; discriminate. }
    destruct (match prev with Some e => negb (a =? e)%nat | None => true end);
      [constructor|]; assumption.
  - constructor; [assumption|]. apply IH.
    destruct Hfin as [H1 H2]. split; assumption.
Qed.

Lemma findAll_within (r : regex) (s : gostring) :
  Forall (fun m => (fst m <= m_pos (snd m) <= length s)%nat) (findAll r s).
Proof.
  apply allMatches_within. split; [cbn; lia | reflexivity].
Qed.

(* ================================================================== *)
(** ** C6: the positions of a finding *)

Lemma scan_matches_spec rule filePath lineNum content (r : regex)
    (pre l : list (nat * mstate)) :
  Forall
    (fun f =>
       exists m, In m l /\
         Finding.Content f = content /\
         Finding.StartPos f = Z.of_nat (fst m) /\
         Finding.EndPos f = Z.of_nat (m_pos (snd m)) /\
         Finding.Match f = slice content (fst m) (m_pos (snd m)))
    (scan_matches rule filePath lineNum content
       (map (fun m => (fst m, m_pos (snd m))) (pre ++ l)) (length pre)
       (map (submatches r content) l)).
Proof.
  revert pre. induction l as [|m l IH]; intros pre; cbn [map scan_matches];
    [constructor|].
  rewrite nth_error_map, nth_error_app2, Nat.sub_diag by lia.
  cbn [nth_error option_map].
  constructor.
  - exists m. cbn. auto.
  - specialize (IH (pre ++ [m])).
    rewrite <- app_assoc, length_app in IH. cbn [app length] in IH.
    rewrite Nat.add_1_r in IH.
    eapply Forall_impl; [|exact IH].
    intros f [m' [Hin H]]. exists m'. split; [now right | exact H].
Qed.

(** C6.  Every Finding produced by [ScanLine] satisfies
    [0 <= StartPos <= EndPos <= length(Content)], and [Match] is the
    substring [Content[StartPos:EndPos]]. *)
Theorem ScanLine_positions (s : SecretScanner) (filePath : gostring)
    (lineNum : Z) (content : gostring) :
  Forall
    (fun f =>
       0 <= Finding.StartPos f <= Finding.EndPos f /\
       Finding.EndPos f <= Z.of_nat (length (Finding.Content f)) /\
       Finding.Match f =
         slice (Finding.Content f) (Z.to_nat (Finding.StartPos f))
           (Z.to_nat (Finding.EndPos f)))
    (ScanLine s filePath lineNum content).
Proof.
  unfold ScanLine. apply Forall_flat_map, Forall_forall. intros rule _.
  set (r := SecretRule.Pattern rule).
  pose proof (scan_matches_spec rule filePath lineNum content r [] (findAll r content))
    as H.
  cbn [app length] in H.
  fold (FindAllStringIndex r content) in H.
  fold (FindAllStringSubmatch r content) in H.
  destruct (FindAllStringSubmatch r content) eqn:E; [constructor|].
  eapply Forall_impl; [|exact H].
  intros f [m [Hin [Hc [Hs [He Hm]]]]].
  pose proof (findAll_within r content) as HF.
  rewrite Forall_forall in HF. specialize (HF m Hin).
  rewrite Hc, Hs, He, Hm, !Nat2Z.id. repeat split; lia.
Qed.

(* ================================================================== *)
(** ** What the two patterns of differ.go require of a line *)

Lemma run_literal (c : Z) (st : mstate) (k : kont) (fin : mstate) :
  0 <= c < RuneSelf ->
  run (CharClass false [(c, c)]) st k = Some fin ->
  exists t, m_rest st = byte_of_Z c :: t /\ k (advance 1 st) = Some fin.
Proof.
  intros Hc H. cbn [run] in H.
  destruct (m_rest st) as [|c0 t] eqn:R; [discriminate|].
  destruct (DecodeRuneInString (c0 :: t)) as [x w] eqn:D.
  destruct (class_matches false [(c, c)] x) eqn:M; [|discriminate].
  unfold class_matches, in_ranges, between in M. cbn in M.
  rewrite orb_false_r in M. apply andb_true_iff in M as [M1 M2].
  apply Z.leb_le in M1, M2. assert (x = c) by lia. subst x.
  pose proof (DecodeRune_ascii_inv c0 t) as A. rewrite D in A. cbn [fst] in A.
  specialize (A ltac:(lia)). injection A as A1 A2. subst w.
  exists t. split; [|exact H].
  f_equal. rewrite A1. symmetry. apply byte_of_Z_byteZ.
Qed.

Lemma run_literals (cs : list Z) (r : regex) :
  Forall (fun c => 0 <= c < RuneSelf) cs ->
  forall st k fin,
    run (literals cs r) st k = Some fin ->
    HasPrefix (m_rest st) (map byte_of_Z cs) = true.
Proof.
  intros Hcs. induction Hcs as [|c cs Hc _ IH]; intros st k fin H;
    cbn [literals fold_right map HasPrefix] in *; [reflexivity|].
  apply run_literal in H; [|exact Hc].
  destruct H as [t [R H]]. rewrite R. rewrite Ascii.eqb_refl. cbn [andb].
  apply IH in H. unfold advance in H. cbn [m_rest] in H.
  rewrite R in H. exact H.
Qed.

Lemma search_begin_later (r : regex) (fuel : nat) :
  forall st, (0 < m_pos st)%nat -> search (Concat BeginText r) fuel st = None.
Proof.
  induction fuel as [|fuel IH]; intros st Hpos; cbn [search].
  - unfold exec. cbn [run m_pos].
    destruct (m_pos st =? 0)%nat eqn:E; [apply Nat.eqb_eq in E; lia|].
    destruct (m_rest st); reflexivity.
  - unfold exec. cbn [run m_pos].
    destruct (m_pos st =? 0)%nat eqn:E; [apply Nat.eqb_eq in E; lia|].
    destruct (m_rest st); [reflexivity|].
    apply IH. unfold advance. cbn [m_pos]. lia.
Qed.

(** A pattern that begins with [^] matches at offset 0 or not at all. *)
Lemma search_begin (r : regex) (s : gostring) (a : nat) (fin : mstate) :
  search (Concat BeginText r) (length s) (start_state s) = Some (a, fin) ->
  a = 0%nat /\ run r (start_state s) Some = Some fin.
Proof.
  destruct (length s) as [|fuel]; cbn [search]; unfold exec at 1;
    cbn [run start_state m_pos m_rest Nat.eqb].
  - destruct (run r (MState 0 s []) Some) eqn:E.
    + intros [= <- <-]. auto.
    + destruct s; discriminate.
  - destruct (run r (MState 0 s []) Some) eqn:E.
    + intros [= <- <-]. auto.
    + destruct s as [|c t]; [discriminate|].
      rewrite search_begin_later; [discriminate|].
      unfold advance. cbn [m_pos].
      pose proof (DecodeRune_width (c :: t) ltac:(discriminate)). lia.
Qed.

Lemma anchored_literals_prefix (cs : list Z) (r : regex) (line : gostring) m :
  Forall (fun c => 0 <= c < RuneSelf) cs ->
  FindStringSubmatch (Concat BeginText (literals cs r)) line = Some m ->
  HasPrefix line (map byte_of_Z cs) = true.
Proof.
  intros Hcs H. unfold FindStringSubmatch in H.
  destruct (search _ _ _) as [[a fin]|] eqn:E; [|discriminate].
  apply search_begin in E as [_ E].
  apply (run_literals cs r Hcs) in E. exact E.
Qed.

Lemma fileHeaderRegex_shape :
  exists r, fileHeaderRegex = Concat BeginText (literals [43; 43; 43; 32; 98; 47] r).
Proof. eexists. vm_compute. reflexivity. Qed.

Lemma hunkHeaderRegex_shape :
  exists r, hunkHeaderRegex = Concat BeginText (literals [64; 64; 32; 45] r).
Proof. eexists. vm_compute. reflexivity. Qed.

Lemma file_header_prefix (line : gostring) :
  is_file_header line = true -> HasPrefix line (str "+++ b/") = true.
Proof.
  unfold is_file_header. destruct fileHeaderRegex_shape as [r ->].
  destruct (FindStringSubmatch _ line) eqn:E; [|discriminate]. intros _.
  apply anchored_literals_prefix in E; [exact E|].
  repeat constructor; unfold RuneSelf; lia.
Qed.

Lemma hunk_header_prefix (line : gostring) m :
  FindStringSubmatch hunkHeaderRegex line = Some m ->
  HasPrefix line (str "@@ -") = true.
Proof.
  destruct hunkHeaderRegex_shape as [r ->]. intros E.
  apply anchored_literals_prefix in E; [exact E|].
  repeat constructor; unfold RuneSelf; lia.
Qed.

Lemma added_not_file_header (line : gostring) :
  is_added line = true -> FindStringSubmatch fileHeaderRegex line = None.
Proof.
  unfold is_added. intros H. apply andb_true_iff in H as [_ H].
  apply negb_true_iff in H.
  destruct (FindStringSubmatch fileHeaderRegex line) eqn:E; [|reflexivity].
  assert (F : is_file_header line = true) by (unfold is_file_header; now rewrite E).
  apply file_header_prefix, HasPrefix_inv in F as [t ->].
  cbn in H. discriminate.
Qed.

Lemma plus_not_hunk_header (line : gostring) :
  HasPrefix line (str "+") = true ->
  FindStringSubmatch hunkHeaderRegex line = None.
Proof.
  intros H. destruct (FindStringSubmatch hunkHeaderRegex line) eqn:E; [|reflexivity].
  apply hunk_header_prefix, HasPrefix_inv in E as [t ->]. cbn in H. discriminate.
Qed.

Lemma context_not_header (line : gostring) :
  is_context line = true ->
  FindStringSubmatch fileHeaderRegex line = None /\
  FindStringSubmatch hunkHeaderRegex line = None.
Proof.
  unfold is_context. intros H. split.
  - destruct (FindStringSubmatch fileHeaderRegex line) eqn:E; [|reflexivity].
    assert (F : is_file_header line = true) by (unfold is_file_header; now rewrite E).
    apply file_header_prefix, HasPrefix_inv in F as [t ->]. cbn in H. discriminate.
  - destruct (FindStringSubmatch hunkHeaderRegex line) eqn:E; [|reflexivity].
    apply hunk_header_prefix, HasPrefix_inv in E as [t ->]. cbn in H. discriminate.
Qed.

(** ** One round of the loop of [parseDiff] *)

Lemma parseLine_added (p : parser) (line : gostring) :
  is_added line = true ->
  parseLine p line =
    inr {| currentFile := currentFile p;
           currentLineNum := wrap64 (currentLineNum p + 1);
           lines := lines p ++
             [ {| DiffLine.FilePath := currentFile p;
                  DiffLine.LineNum := currentLineNum p;
                  DiffLine.Content := skipn 1 line |} ] |}.
Proof.
  intros H. unfold parseLine.
  rewrite (added_not_file_header line H).
  rewrite plus_not_hunk_header
    by (unfold is_added in H; apply andb_true_iff in H; tauto).
  unfold is_added in H. now rewrite H.
Qed.

Lemma parseLine_context (p : parser) (line : gostring) :
  is_context line = true ->
  parseLine p line =
    inr {| currentFile := currentFile p;
           currentLineNum := wrap64 (currentLineNum p + 1);
           lines := lines p |}.
Proof.
  intros H. unfold parseLine.
  destruct (context_not_header line H) as [-> ->].
  unfold is_context in H.
  destruct (HasPrefix line (str "+")) eqn:P.
  - apply HasPrefix_inv in P as [t ->]. cbn in H. discriminate.
  - cbn [andb]. now rewrite H.
Qed.

Lemma parseLine_hunk_header (p : parser) (line : gostring) (n : Z) :
  declares_new_start line n ->
  parseLine p line =
    inr {| currentFile := currentFile p; currentLineNum := n; lines := lines p |}.
Proof.
  intros [F [m [E A]]]. unfold parseLine.
  unfold is_file_header in F.
  destruct (FindStringSubmatch fileHeaderRegex line); [discriminate|].
  now rewrite E, A.
Qed.

(** A line that is no hunk header leaves the counter alone or advances it by
    one, and appends the record of the line if it is an added line. *)
Lemma parseLine_no_hunk (p : parser) (line : gostring) :
  is_hunk_header line = false ->
  exists file,
    (is_file_header line = false -> file = currentFile p) /\
    parseLine p line =
      inr {| currentFile := file;
             currentLineNum :=
               if is_added line || is_context line
               then wrap64 (currentLineNum p + 1) else currentLineNum p;
             lines := lines p ++
               if is_added line
               then [ {| DiffLine.FilePath := currentFile p;
                         DiffLine.LineNum := currentLineNum p;
                         DiffLine.Content := skipn 1 line |} ]
               else [] |}.
Proof.
  intros Hh.
  destruct (is_added line) eqn:A.
  { exists (currentFile p). rewrite parseLine_added by exact A. auto. }
  destruct (is_context line) eqn:C.
  { exists (currentFile p). rewrite parseLine_context by exact C.
    cbn [orb]. now rewrite app_nil_r. }
  cbn [orb]. rewrite app_nil_r.
  unfold is_hunk_header, is_file_header in *. unfold parseLine.
  destruct (FindStringSubmatch fileHeaderRegex line) as [m|].
  { exists (submatch m 1). split; [discriminate | reflexivity]. }
  cbn [negb andb] in Hh.
  destruct (FindStringSubmatch hunkHeaderRegex line); [discriminate|].
  unfold is_added in A. unfold is_context in C. rewrite A, C.
  exists (currentFile p). split; [reflexivity | now destruct p].
Qed.

(** Each round keeps the records so far and appends the record of a line
    that passes the third test. *)
Lemma parseLine_lines (p p' : parser) (line : gostring) :
  parseLine p line = inr p' ->
  lines p' = lines p ++
    (if is_added line
     then [ {| DiffLine.FilePath := currentFile p;
               DiffLine.LineNum := currentLineNum p;
               DiffLine.Content := skipn 1 line |} ]
     else []) /\
  (is_file_header line = false -> currentFile p' = currentFile p).
Proof.
  destruct (is_added line) eqn:A.
  { rewrite parseLine_added by exact A. intros [= <-]. cbn. auto. }
  unfold parseLine, is_file_header.
  destruct (FindStringSubmatch fileHeaderRegex line) as [m|].
  { intros [= <-]. cbn. rewrite app_nil_r. split; [reflexivity | discriminate]. }
  destruct (FindStringSubmatch hunkHeaderRegex line) as [m|].
  { destruct (Atoi (submatch m 1)); [discriminate|]. intros [= <-]. cbn.
    rewrite app_nil_r. auto. }
  unfold is_added in A. rewrite A.
  destruct (HasPrefix line (str " ")); intros [= <-]; cbn; rewrite app_nil_r; auto.
Qed.

(* ================================================================== *)
(** ** 64-bit arithmetic of the line counter *)

Lemma wrap64_range (z : Z) : MinInt64 <= wrap64 z <= MaxInt64.
Proof.
  unfold wrap64, MinInt64, MaxInt64.
  change (2 ^ 63) with 9223372036854775808.
  change (2 ^ 64) with 18446744073709551616.
  pose proof (Z.mod_pos_bound (z + 9223372036854775808) 18446744073709551616
                ltac:(lia)).
  lia.
Qed.

Lemma wrap64_small (z : Z) : MinInt64 <= z <= MaxInt64 -> wrap64 z = z.
Proof.
  unfold wrap64, MinInt64, MaxInt64. intros H.
  change (2 ^ 63) with 9223372036854775808.
  change (2 ^ 64) with 18446744073709551616.
  rewrite Z.mod_small by lia. lia.
Qed.


Lemma Atoi_range (s : gostring) (n : Z) :
  Atoi s = inr n -> MinInt64 <= n <= MaxInt64.
Proof.
  unfold Atoi.
  destruct (match s with
            | [] => (false, [])
            | c :: t =>
              if (c =? "-")%char then (true, t)
              else if (c =? "+")%char then (false, t) else (false, s)
            end) as [neg ds].
  destruct ds; [discriminate|].
  destruct (forallb is_digit _); [|discriminate].
  destruct (between MinInt64 _ MaxInt64) eqn:B; [|discriminate].
  intros [= <-]. unfold between in B.
  apply andb_true_iff in B as [B1 B2]. apply Z.leb_le in B1, B2.
  split; assumption.
Qed.

(* ================================================================== *)
(** ** The loop of [parseDiff] *)

Lemma parseLines_app (a b : list gostring) :
  forall p,
    parseLines p (a ++ b) =
      match parseLines p a with
      | inl err => inl err
      | inr p' => parseLines p' b
      end.
Proof.
  induction a as [|l a IH]; intros p; cbn [app parseLines]; [reflexivity|].
  destruct (parseLine p l); [reflexivity | apply IH].
Qed.

Lemma hunk_header_not_added (line : gostring) :
  is_hunk_header line = true -> is_added line = false.
Proof.
  unfold is_hunk_header, is_added. intros H.
  apply andb_true_iff in H as [_ H].
  destruct (FindStringSubmatch hunkHeaderRegex line) eqn:E; [|discriminate].
  destruct (HasPrefix line (str "+")) eqn:P; [|reflexivity].
  rewrite (plus_not_hunk_header line P) in E. discriminate.
Qed.

Lemma parseLine_hunk (p p' : parser) (line : gostring) :
  is_hunk_header line = true -> parseLine p line = inr p' ->
  lines p' = lines p /\ MinInt64 <= currentLineNum p' <= MaxInt64.
Proof.
  unfold is_hunk_header, is_file_header, parseLine. intros H.
  destruct (FindStringSubmatch fileHeaderRegex line); [discriminate|].
  destruct (FindStringSubmatch hunkHeaderRegex line) as [m|]; [|discriminate].
  destruct (Atoi (submatch m 1)) as [e|n] eqn:A; [discriminate|].
  intros [= <-]. cbn. split; [reflexivity | exact (Atoi_range _ _ A)].
Qed.

(** Each round keeps the records so far, appends the record of an added
    line and nothing else, and keeps the counter in the range of [int]. *)
Lemma parseLine_step (p p' : parser) (line : gostring) :
  parseLine p line = inr p' ->
  MinInt64 <= currentLineNum p <= MaxInt64 ->
  MinInt64 <= currentLineNum p' <= MaxInt64 /\
  lines p' = lines p ++
    if is_added line
    then [ {| DiffLine.FilePath := currentFile p;
              DiffLine.LineNum := currentLineNum p;
              DiffLine.Content := skipn 1 line |} ]
    else [].
Proof.
  intros H R. destruct (is_hunk_header line) eqn:Hh.
  - destruct (parseLine_hunk p p' line Hh H) as [L C].
    rewrite (hunk_header_not_added line Hh), app_nil_r. auto.
  - destruct (parseLine_no_hunk p line Hh) as [file [_ E]].
    rewrite E in H. injection H as <-. cbn [currentLineNum lines]. split.
    + destruct (is_added line || is_context line); [apply wrap64_range | exact R].
    + reflexivity.
Qed.

Lemma parseLines_records :
  forall tokens p p',
    parseLines p tokens = inr p' ->
    MinInt64 <= currentLineNum p <= MaxInt64 ->
    MinInt64 <= currentLineNum p' <= MaxInt64 /\
    exists new, lines p' = lines p ++ new /\
                length new = length (filter is_added tokens).
Proof.
  induction tokens as [|l tokens IH]; intros p p' H R; cbn [parseLines] in H.
  - injection H as <-. split; [exact R|]. exists []. now rewrite app_nil_r.
  - destruct (parseLine p l) as [e|p1] eqn:E; [discriminate|].
    destruct (parseLine_step p p1 l E R) as [R1 L1].
    destruct (IH p1 p' H R1) as [R' [new [L' N]]]. split; [exact R'|].
    rewrite L', L1, <- app_assoc. eexists. split; [reflexivity|].
    cbn [filter]. destruct (is_added l); cbn; now rewrite N.
Qed.

Lemma parser_init_range : MinInt64 <= currentLineNum parser_init <= MaxInt64.
Proof. cbn. unfold MinInt64, MaxInt64. lia. Qed.

(* ================================================================== *)
(** ** C3: the number of records *)

(** When [parseDiff] returns no error the number of DiffLine records is
    the number of lines that pass the third test of the loop; when it
    returns an error it returns no record. *)
Lemma parseDiff_record_count (diffOutput : gostring) :
  match parseDiff diffOutput with
  | (records, None) =>
    length records = length (filter is_added (fst (Scanner diffOutput)))
  | (records, Some _) => records = []
  end.
Proof.
  unfold parseDiff. destruct (Scanner diffOutput) as [tokens scanErr]. cbn [fst].
  destruct (parseLines parser_init tokens) as [e|p] eqn:E; [reflexivity|].
  destruct scanErr; [reflexivity|].
  destruct (parseLines_records tokens _ _ E parser_init_range) as [_ [new [L N]]].
  rewrite L. cbn. exact N.
Qed.

Lemma triple_plus_plus (line : gostring) :
  triple_plus line = true -> plus_line line = true.
Proof.
  unfold triple_plus, plus_line. intros H.
  apply HasPrefix_inv in H as [t ->]. reflexivity.
Qed.

Lemma file_header_triple_plus (line : gostring) :
  is_file_header line = true -> triple_plus line = true.
Proof.
  intros H. apply file_header_prefix, HasPrefix_inv in H as [t ->]. reflexivity.
Qed.

Lemma no_triple_plus_added (line : gostring) :
  triple_plus line = false -> is_added line = plus_line line.
Proof.
  unfold triple_plus, is_added, plus_line. intros ->. apply andb_true_r.
Qed.

Lemma no_triple_plus_advances (line : gostring) :
  triple_plus line = false -> advances line = in_new_file line.
Proof.
  intros H. unfold advances, in_new_file. now rewrite no_triple_plus_added.
Qed.

Lemma no_triple_plus_no_file_header (line : gostring) :
  triple_plus line = false -> is_file_header line = false.
Proof.
  intros H. destruct (is_file_header line) eqn:F; [|reflexivity].
  apply file_header_triple_plus in F. congruence.
Qed.

Lemma filter_no_triple_plus (ls : list gostring) :
  Forall (fun l => triple_plus l = false) ls ->
  filter is_added ls = filter plus_line ls /\
  filter advances ls = filter in_new_file ls /\
  Forall (fun l => is_file_header l = false) ls.
Proof.
  intros H. split; [|split].
  - apply filter_ext_in. intros l Hl. rewrite Forall_forall in H.
    apply no_triple_plus_added, H, Hl.
  - apply filter_ext_in. intros l Hl. rewrite Forall_forall in H.
    apply no_triple_plus_advances, H, Hl.
  - eapply Forall_impl; [|exact H]. apply no_triple_plus_no_file_header.
Qed.

(** Among the lines that begin with a plus sign and are no file header, the
    loop records those that do not begin with three plus signs. *)
Lemma plus_lines_split (tokens : list gostring) :
  (length (filter is_added tokens) + length (filter triple_plus_no_header tokens))%nat
  = length (filter plus_not_file_header tokens).
Proof.
  induction tokens as [|l tokens IH]; [reflexivity|]. cbn [filter].
  unfold is_added at 1, triple_plus_no_header at 1, plus_not_file_header at 1.
  fold (plus_line l). fold (triple_plus l).
  destruct (triple_plus l) eqn:T.
  - rewrite (triple_plus_plus l T). cbn [andb negb].
    destruct (is_file_header l); cbn [negb length]; lia.
  - rewrite (no_triple_plus_no_file_header l T). cbn [andb negb].
    destruct (plus_line l); cbn [andb length]; lia.
Qed.

(** C3 fails on the code.  In the diff of a new file whose second line is
    [++i;], three lines begin with [+] and are no file header, and
    [parseDiff] returns two records: the added line that git prints as
    [+++i;] is skipped, and the line after it is numbered 2 instead of 3.
    In general the records of an accepted diff fall short of the lines that
    begin with [+] and are no file header by the lines that begin with
    [+++] and are no file header. *)
Theorem parseDiff_drops_added_line :
  (let diffOutput :=
     str "diff --git a/a.c b/a.c" ++ [newline] ++ str "new file mode 100644" ++ [newline]
     ++ str "--- /dev/null" ++ [newline] ++ str "+++ b/a.c" ++ [newline]
     ++ str "@@ -0,0 +1,3 @@" ++ [newline] ++ str "+int i;" ++ [newline]
     ++ str "+++i;" ++ [newline] ++ str "+return i;" ++ [newline] in
   filter plus_not_file_header (fst (Scanner diffOutput))
     = [str "+int i;"; str "+++i;"; str "+return i;"] /\
   parseDiff diffOutput
     = ([ DiffLine.Make (str "a.c") 1 (str "int i;");
          DiffLine.Make (str "a.c") 2 (str "return i;") ], None))
  /\
  (forall diffOutput records,
     parseDiff diffOutput = (records, None) ->
     (length records
      + length (filter triple_plus_no_header (fst (Scanner diffOutput))))%nat
     = length (filter plus_not_file_header (fst (Scanner diffOutput)))).
Proof.
  split.
  - cbv zeta. split; vm_compute; reflexivity.
  - intros diffOutput records H.
    pose proof (parseDiff_record_count diffOutput) as C. rewrite H in C.
    rewrite C. apply plus_lines_split.
Qed.

(* ================================================================== *)
(** ** Numbering between two hunk headers *)

Lemma wrap64_add_l (a b : Z) : wrap64 (wrap64 a + b) = wrap64 (a + b).
Proof.
  unfold wrap64.
  replace ((a + 2 ^ 63) mod 2 ^ 64 - 2 ^ 63 + b + 2 ^ 63)
    with ((a + 2 ^ 63) mod 2 ^ 64 + b) by lia.
  rewrite Zplus_mod_idemp_l. f_equal. f_equal. lia.
Qed.

(** Over lines that hold no hunk header the loop never fails; the counter
    ends at its start plus the number of added and context lines, in the
    arithmetic of [int]. *)
Lemma parseLines_counter :
  forall body p,
    Forall (fun l => is_hunk_header l = false) body ->
    MinInt64 <= currentLineNum p <= MaxInt64 ->
    exists p2,
      parseLines p body = inr p2 /\
      currentLineNum p2 =
        wrap64 (currentLineNum p + Z.of_nat (length (filter advances body))) /\
      (Forall (fun l => is_file_header l = false) body ->
       currentFile p2 = currentFile p).
Proof.
  induction body as [|l body IH]; intros p Hb R.
  - exists p. cbn. rewrite Z.add_0_r, wrap64_small by exact R. auto.
  - inversion Hb as [|? ? Hl Hb']; subst.
    destruct (parseLine_no_hunk p l Hl) as [file [Hfile E]].
    cbn [parseLines]. rewrite E.
    match goal with |- context [parseLines ?q body] => set (p1 := q) end.
    assert (R1 : MinInt64 <= currentLineNum p1 <= MaxInt64).
    { subst p1. cbn [currentLineNum].
      destruct (is_added l || is_context l); [apply wrap64_range | exact R]. }
    destruct (IH p1 Hb' R1) as [p2 [E2 [C2 F2]]].
    exists p2. split; [exact E2|]. split.
    + rewrite C2. subst p1. cbn [currentLineNum filter]. unfold advances at 2.
      destruct (is_added l || is_context l).
      * rewrite wrap64_add_l. cbn [length]. f_equal. lia.
      * reflexivity.
    + intros Hf. inversion Hf as [|? ? Hfl Hf']; subst.
      rewrite (F2 Hf'). subst p1. cbn [currentFile]. exact (Hfile Hfl).
Qed.

(** The record of an added line: its place among the records and its
    number. *)
Lemma parseLines_numbering (p : parser) (pre : list gostring) (l : gostring)
    (post : list gostring) :
  Forall (fun x => is_hunk_header x = false) pre ->
  is_added l = true ->
  MinInt64 <= currentLineNum p <= MaxInt64 ->
  forall p2, parseLines p (pre ++ l :: post) = inr p2 ->
  exists file,
    (Forall (fun x => is_file_header x = false) pre -> file = currentFile p) /\
    nth_error (lines p2) (length (lines p) + length (filter is_added pre)) =
      Some {| DiffLine.FilePath := file;
              DiffLine.LineNum :=
                wrap64 (currentLineNum p + Z.of_nat (length (filter advances pre)));
              DiffLine.Content := skipn 1 l |}.
Proof.
  intros Hpre Hl R p2 H.
  destruct (parseLines_counter pre p Hpre R) as [pm [Em [Cm Fm]]].
  rewrite parseLines_app, Em in H. cbn [parseLines] in H.
  rewrite (parseLine_added pm l Hl) in H.
  destruct (parseLines_records pre p pm Em R) as [Rm [new [Lm Nm]]].
  match type of H with parseLines ?q post = _ => set (p1 := q) in H end.
  assert (R1 : MinInt64 <= currentLineNum p1 <= MaxInt64)
    by (subst p1; cbn [currentLineNum]; apply wrap64_range).
  destruct (parseLines_records post p1 p2 H R1) as [_ [more [L2 _]]].
  exists (currentFile pm). split; [exact Fm|].
  rewrite L2. subst p1. cbn [lines]. rewrite Lm, Cm, <- !app_assoc.
  rewrite nth_error_app2 by lia.
  replace (length (lines p) + length (filter is_added pre) - length (lines p))%nat
    with (length new) by lia.
  rewrite nth_error_app2 by lia. rewrite Nat.sub_diag. reflexivity.
Qed.

Lemma StronglySorted_map_filter (A : Type) (f : A -> Z) (g : A -> bool) (l : list A) :
  StronglySorted Z.lt (map f l) -> StronglySorted Z.lt (map f (filter g l)).
Proof.
  induction l as [|x l IH]; cbn [map filter]; intros H; [constructor|].
  inversion H as [|? ? Hs Hf]; subst.
  destruct (g x); [|now apply IH].
  cbn [map]. constructor; [now apply IH|].
  rewrite Forall_map in *. rewrite Forall_forall in *.
  intros y Hy. apply Hf. apply filter_In in Hy. tauto.
Qed.

(** Without overflow the numbers recorded between two hunk headers strictly
    increase. *)
Lemma parseLines_sorted :
  forall body p,
    Forall (fun l => is_hunk_header l = false) body ->
    MinInt64 <= currentLineNum p ->
    currentLineNum p + Z.of_nat (length body) <= MaxInt64 ->
    exists p2 new,
      parseLines p body = inr p2 /\
      lines p2 = lines p ++ new /\
      length new = length (filter is_added body) /\
      StronglySorted Z.lt (map DiffLine.LineNum new) /\
      Forall (fun d => currentLineNum p <= DiffLine.LineNum d) new.
Proof.
  induction body as [|l body IH]; intros p Hb Lo Hi.
  - exists p, []. cbn. rewrite app_nil_r. repeat split; constructor.
  - inversion Hb as [|? ? Hl Hb']; subst.
    destruct (parseLine_no_hunk p l Hl) as [file [_ E]].
    cbn [parseLines]. rewrite E. cbn [length] in Hi.
    match goal with |- context [parseLines ?q body] => set (p1 := q) end.
    assert (C1 : currentLineNum p1 =
                 if advances l then currentLineNum p + 1 else currentLineNum p).
    { subst p1. cbn [currentLineNum]. unfold advances.
      destruct (is_added l || is_context l); [|reflexivity].
      apply wrap64_small. lia. }
    assert (Hadv : is_added l = true -> advances l = true)
      by (unfold advances; intros ->; reflexivity).
    destruct (IH p1) as [p2 [new [E2 [L2 [N2 [S2 F2]]]]]];
      [exact Hb' | rewrite C1; destruct (advances l); lia
       | rewrite C1; destruct (advances l); lia |].
    exists p2. eexists. split; [exact E2|]. split.
    { rewrite L2. subst p1. cbn [lines]. rewrite <- app_assoc. reflexivity. }
    cbn [filter]. destruct (is_added l) eqn:A.
    + rewrite C1, (Hadv eq_refl) in F2.
      cbn [app length map]. split; [now rewrite N2|]. split.
      * constructor; [exact S2|]. rewrite Forall_map.
        eapply Forall_impl; [|exact F2]. cbn beta. cbn [DiffLine.LineNum].
        intros d Hd. lia.
      * constructor; [cbn [DiffLine.LineNum]; lia|].
        eapply Forall_impl; [|exact F2]. cbn beta. intros d Hd. lia.
    + cbn [app]. split; [exact N2|]. split; [exact S2|].
      rewrite C1 in F2.
      eapply Forall_impl; [|exact F2]. cbn beta. intros d Hd.
      destruct (advances l); lia.
Qed.

(* ================================================================== *)
(** ** C7: line numbers within a file *)

(** The records of the lines of a run that holds no hunk header have
    strictly increasing line numbers, for every file path as well, provided
    the counter does not pass the largest [int] within the run. *)
Lemma hunk_line_numbers_increase (diffOutput : gostring)
    (pre body post : list gostring) (p0 : parser) (records : list DiffLine) :
  fst (Scanner diffOutput) = pre ++ body ++ post ->
  parseDiff diffOutput = (records, None) ->
  parseLines parser_init pre = inr p0 ->
  Forall (fun l => is_hunk_header l = false) body ->
  currentLineNum p0 + Z.of_nat (length body) <= MaxInt64 ->
  exists new more,
    records = lines p0 ++ new ++ more /\
    length new = length (filter is_added body) /\
    StronglySorted Z.lt (map DiffLine.LineNum new) /\
    forall F, StronglySorted Z.lt (line_numbers_of F new).
Proof.
  intros Htok Hdiff Hpre Hbody Hi.
  unfold parseDiff in Hdiff.
  destruct (Scanner diffOutput) as [tokens scanErr]. cbn [fst] in Htok. subst tokens.
  destruct (parseLines parser_init (pre ++ body ++ post)) as [e|p] eqn:E;
    [discriminate|].
  destruct scanErr; [discriminate|]. injection Hdiff as <-.
  destruct (parseLines_records pre _ _ Hpre parser_init_range) as [R0 _].
  destruct (parseLines_sorted body p0 Hbody (proj1 R0) Hi)
    as [p1 [new [E1 [L1 [N1 [S1 _]]]]]].
  rewrite parseLines_app, Hpre, parseLines_app, E1 in E.
  assert (R1 : MinInt64 <= currentLineNum p1 <= MaxInt64)
    by (apply (parseLines_records body p0 p1 E1 R0)).
  destruct (parseLines_records post p1 p E R1) as [_ [more [L _]]].
  exists new, more. split; [rewrite L, L1, <- app_assoc; reflexivity|].
  split; [exact N1|]. split; [exact S1|].
  intros F. unfold line_numbers_of. now apply StronglySorted_map_filter.
Qed.








(** The proviso holds, for all files at once, where no line lowers the
    counter and every recorded line raises it: where every hunk header
    declares a new-start at or above the counter it meets. *)
Lemma counter_rises_keeps_order (tokens : list gostring) :
  forall p,
    Forall (fun d => DiffLine.LineNum d < currentLineNum p) (lines p) ->
    counter_rises p tokens = true ->
    keeps_order p tokens = true.
Proof.
  induction tokens as [|line tokens IH]; intros p B R;
    cbn [keeps_order counter_rises] in *; [reflexivity|].
  destruct (parseLine p line) as [e|p1] eqn:E; [reflexivity|].
  apply andb_true_iff in R as [R1 R].
  destruct (parseLine_lines p p1 line E) as [L _].
  assert (B1 : Forall (fun d => DiffLine.LineNum d < currentLineNum p1) (lines p1)).
  { rewrite L. apply Forall_app. split.
    - eapply Forall_impl; [|exact B]. cbn beta. intros d Hd.
      destruct (is_added line); [apply Z.ltb_lt in R1 | apply Z.leb_le in R1]; lia.
    - destruct (is_added line); constructor; [|constructor].
      cbn [DiffLine.LineNum]. now apply Z.ltb_lt in R1. }
  apply andb_true_iff. split; [|now apply IH].
  unfold above_records. apply forallb_forall. intros d Hd.
  rewrite Forall_forall in B1. apply orb_true_iff. right.
  apply Z.ltb_lt. now apply B1.
Qed.

Lemma counter_rises_from_start (tokens : list gostring) :
  counter_rises parser_init tokens = true -> keeps_order parser_init tokens = true.
Proof. apply counter_rises_keeps_order. constructor. Qed.


(* ================================================================== *)
(** ** The pattern of hunk headers on a well-formed header *)

Lemma hd_error_app (A : Type) (a b : list A) (x : A) :
  hd_error a = Some x -> hd_error (a ++ b) = Some x.
Proof. destruct a; [discriminate | auto]. Qed.

Lemma hd_error_flat_map (A B : Type) (f : A -> list B) (l : list A) (x : A) (y : B) :
  hd_error l = Some x -> hd_error (f x) = Some y ->
  hd_error (flat_map f l) = Some y.
Proof.
  destruct l as [|x0 l]; [discriminate|]. intros [= ->] H.
  cbn [flat_map]. now apply hd_error_app.
Qed.

Lemma first_Concat (a b : regex) (st st1 fin : mstate) :
  hd_error (ends a st) = Some st1 -> hd_error (ends b st1) = Some fin ->
  hd_error (ends (Concat a b) st) = Some fin.
Proof. cbn [ends]. apply hd_error_flat_map. Qed.

Lemma ends_ascii_literal (c : Z) (st : mstate) (t : gostring) :
  0 <= c < RuneSelf -> m_rest st = byte_of_Z c :: t ->
  ends (CharClass false [(c, c)]) st = [advance 1 st].
Proof.
  intros Hc R. cbn [ends]. rewrite R.
  assert (B : byteZ (byte_of_Z c) = c).
  { unfold byteZ, byte_of_Z. rewrite N_ascii_embedding; unfold RuneSelf in *; lia. }
  rewrite DecodeRune_ascii by (rewrite B; lia). rewrite B.
  unfold class_matches, in_ranges, between. cbn [existsb fst snd xorb].
  rewrite Z.leb_refl. reflexivity.
Qed.

Lemma first_literals (cs : list Z) (r : regex) :
  Forall (fun c => 0 <= c < RuneSelf) cs ->
  forall st t fin,
    m_rest st = map byte_of_Z cs ++ t ->
    hd_error (ends r (MState (m_pos st + length cs) t (m_caps st))) = Some fin ->
    hd_error (ends (literals cs r) st) = Some fin.
Proof.
  intros Hcs. induction Hcs as [|c cs Hc _ IH]; intros st t fin R H;
    cbn [literals fold_right map length app] in *.
  - rewrite Nat.add_0_r in H. rewrite <- R in H. now destruct st.
  - apply (first_Concat _ _ st (advance 1 st)).
    + now rewrite (ends_ascii_literal c st _ Hc R).
    + apply (IH (advance 1 st) t); unfold advance; cbn [m_pos m_rest m_caps].
      * rewrite R. reflexivity.
      * now replace (m_pos st + 1 + length cs)%nat with (m_pos st + S (length cs))%nat
          by lia.
Qed.

Lemma ends_digit (st : mstate) :
  ends digit st =
    match m_rest st with
    | c :: _ => if is_digit c then [advance 1 st] else []
    | [] => []
    end.
Proof.
  unfold digit. cbn [ends]. destruct (m_rest st) as [|c t]; [reflexivity|].
  unfold is_digit. destruct (between 48 (byteZ c) 57) eqn:B.
  - unfold between in B. apply andb_true_iff in B as [B1 B2].
    apply Z.leb_le in B1, B2.
    rewrite DecodeRune_ascii by (unfold RuneSelf; lia).
    unfold class_matches, in_ranges, between. cbn [existsb fst snd xorb].
    apply Z.leb_le in B1, B2. now rewrite B1, B2.
  - destruct (DecodeRuneInString (c :: t)) as [x w] eqn:D.
    unfold class_matches, in_ranges. cbn [existsb fst snd xorb orb].
    rewrite orb_false_r.
    destruct (between 48 x 57) eqn:Bx; [|reflexivity]. exfalso.
    unfold between in Bx. apply andb_true_iff in Bx as [B1 B2].
    apply Z.leb_le in B1, B2.
    pose proof (DecodeRune_ascii_inv c t) as A. rewrite D in A. cbn [fst] in A.
    specialize (A ltac:(unfold RuneSelf; lia)). injection A as -> _.
    unfold between in B. apply andb_false_iff in B as [B|B];
      [apply Z.leb_gt in B | apply Z.leb_gt in B]; lia.
Qed.

Lemma first_digit_star (ds : gostring) :
  Forall (fun c => is_digit c = true) ds ->
  forall fuel st rest,
    no_digit_ahead rest -> m_rest st = ds ++ rest -> (length ds <= fuel)%nat ->
    hd_error (ends_star (ends digit) true fuel st)
    = Some (MState (m_pos st + length ds) rest (m_caps st)).
Proof.
  intros Hds. induction Hds as [|d ds Hd _ IH]; intros fuel st rest Hrest R Hf;
    cbn [app length] in *.
  - rewrite Nat.add_0_r, <- R.
    destruct fuel; cbn [ends_star]; [now destruct st|].
    rewrite ends_digit, R.
    destruct rest as [|c rest']; cbn [flat_map app hd_error].
    + rewrite <- R. now destruct st.
    + cbn in Hrest. rewrite Hrest. cbn [flat_map app hd_error].
      rewrite <- R. now destruct st.
  - destruct fuel as [|fuel]; [lia|]. cbn [ends_star].
    rewrite ends_digit, R, Hd. cbn [flat_map]. rewrite app_nil_r.
    unfold advance at 1. cbn [m_pos].
    destruct (m_pos st <? m_pos st + 1)%nat eqn:P; [|apply Nat.ltb_ge in P; lia].
    apply hd_error_app.
    rewrite (IH fuel (advance 1 st) rest Hrest); unfold advance;
      cbn [m_pos m_rest m_caps]; [|rewrite R; reflexivity | lia].
    do 2 f_equal. lia.
Qed.

Lemma first_digits1 (ds rest : gostring) (st : mstate) :
  all_digits ds -> no_digit_ahead rest -> m_rest st = ds ++ rest ->
  hd_error (ends digits1 st)
  = Some (MState (m_pos st + length ds) rest (m_caps st)).
Proof.
  intros [Hne Hds] Hrest R. unfold digits1. cbn [ends ends_times].
  destruct ds as [|d ds]; [congruence|].
  inversion Hds as [|? ? Hd Hds']; subst.
  rewrite ends_digit, R. cbn [app]. rewrite Hd. cbn [flat_map]. rewrite app_nil_r.
  rewrite (first_digit_star ds Hds' _ _ rest Hrest); unfold advance;
    cbn [m_pos m_rest m_caps].
  - do 2 f_equal. cbn [length]. lia.
  - rewrite R. reflexivity.
  - rewrite R. cbn [app skipn]. rewrite length_app. lia.
Qed.

Lemma ends_optional (a : regex) (st : mstate) :
  ends (Repeat 0 (Some 1%nat) true a) st
  = flat_map (fun st' => [st']) (ends a st) ++ [st].
Proof. reflexivity. Qed.

Lemma first_optcount (o rest : gostring) (st : mstate) :
  count_suffix o -> HasPrefix rest (str " ") = true -> m_rest st = o ++ rest ->
  hd_error (ends optcount st)
  = Some (MState (m_pos st + length o) rest (m_caps st)).
Proof.
  intros Ho Hrest R. apply HasPrefix_inv in Hrest as [t ->].
  change (str " " ++ t) with (" "%char :: t) in *.
  unfold optcount. rewrite ends_optional.
  destruct Ho as [->|[ds [Hds ->]]].
  - cbn [app length] in *. rewrite Nat.add_0_r.
    assert (E : ends (Concat (CharClass false [(44, 44)]) digits1) st = []).
    { cbn [ends]. rewrite R. rewrite DecodeRune_ascii by reflexivity.
      reflexivity. }
    rewrite E. cbn [flat_map app hd_error]. rewrite <- R. now destruct st.
  - apply hd_error_app.
    apply (hd_error_flat_map _ _ _ _
             (MState (m_pos st + length (","%char :: ds)) (" "%char :: t) (m_caps st)));
      [|reflexivity].
    apply (first_Concat _ _ st (advance 1 st)).
    + rewrite (ends_ascii_literal 44 st (ds ++ " "%char :: t));
        [reflexivity | unfold RuneSelf; lia | exact R].
    + rewrite (first_digits1 ds (" "%char :: t)); unfold advance;
        cbn [m_pos m_rest m_caps]; try assumption.
      * do 2 f_equal. cbn [length]. lia.
      * reflexivity.
      * rewrite R. reflexivity.
Qed.

Lemma hunkHeaderRegex_parsed :
  hunkHeaderRegex =
    Concat BeginText
      (literals [64; 64; 32; 45]
         (Concat digits1
            (Concat optcount
               (literals [32; 43]
                  (Concat (Capture 1 digits1)
                     (Concat optcount
                        (literals [32; 64] (CharClass false [(64, 64)])))))))).
Proof. vm_compute. reflexivity. Qed.

Lemma first_Capture (n : nat) (a : regex) (st st1 : mstate) :
  hd_error (ends a st) = Some st1 ->
  hd_error (ends (Capture n a) st) = Some (set_cap n (m_pos st) st1).
Proof.
  change (ends (Capture n a) st) with (map (set_cap n (m_pos st)) (ends a st)).
  destruct (ends a st); [discriminate|]. now intros [= ->].
Qed.

Lemma count_suffix_no_digit (o rest : gostring) :
  count_suffix o -> HasPrefix rest (str " ") = true -> no_digit_ahead (o ++ rest).
Proof.
  intros [->|[ds [_ ->]]] H.
  - apply HasPrefix_inv in H as [t ->]. reflexivity.
  - reflexivity.
Qed.

Lemma slice_middle (pre mid post : gostring) :
  slice (pre ++ mid ++ post) (length pre) (length pre + length mid) = mid.
Proof.
  unfold slice. rewrite skipn_app, skipn_all, Nat.sub_diag, skipn_O. cbn [app].
  replace (length pre + length mid - length pre)%nat with (length mid) by lia.
  rewrite firstn_app, firstn_all, Nat.sub_diag, firstn_O. apply app_nil_r.
Qed.

(** The pattern of hunk headers on a line of the expected form: it matches at
    offset 0 and its group holds the digits of the new-start. *)
Lemma hunk_header_line_submatch (a o1 n o2 tail : gostring) :
  all_digits a -> count_suffix o1 -> all_digits n -> count_suffix o2 ->
  exists whole,
    FindStringSubmatch hunkHeaderRegex (hunk_header_line a o1 n o2 tail)
    = Some [whole; n].
Proof.
  intros Ha Ho1 Hn Ho2.
  set (line := hunk_header_line a o1 n o2 tail).
  set (from := (0 + 4 + length a + length o1 + 2)%nat).
  set (fin := MState (from + length n + length o2 + 2 + 1) tail
                [(1%nat, (from, (from + length n)%nat))]).
  assert (E : hd_error (ends hunkHeaderRegex (MState 0 line [])) = Some fin).
  { rewrite hunkHeaderRegex_parsed.
    apply (first_Concat _ _ _ (MState 0 line [])); [reflexivity|].
    apply (first_literals [64; 64; 32; 45] _
             ltac:(repeat constructor; unfold RuneSelf; lia) _
             (a ++ o1 ++ str " +" ++ n ++ o2 ++ str " @@" ++ tail));
      [reflexivity|]. cbn [m_pos m_caps length].
    eapply first_Concat.
    { apply (first_digits1 a (o1 ++ str " +" ++ n ++ o2 ++ str " @@" ++ tail));
        [exact Ha | now apply count_suffix_no_digit | reflexivity]. }
    cbn [m_pos m_caps].
    eapply first_Concat.
    { apply (first_optcount o1 (str " +" ++ n ++ o2 ++ str " @@" ++ tail));
        [exact Ho1 | reflexivity | reflexivity]. }
    cbn [m_pos m_caps].
    apply (first_literals [32; 43] _
             ltac:(repeat constructor; unfold RuneSelf; lia) _
             (n ++ o2 ++ str " @@" ++ tail)); [reflexivity|].
    cbn [m_pos m_caps length]. fold from.
    eapply first_Concat.
    { apply first_Capture.
      apply (first_digits1 n (o2 ++ str " @@" ++ tail));
        [exact Hn | now apply count_suffix_no_digit | reflexivity]. }
    cbn [set_cap m_pos m_rest m_caps].
    eapply first_Concat.
    { apply (first_optcount o2 (str " @@" ++ tail));
        [exact Ho2 | reflexivity | reflexivity]. }
    cbn [m_pos m_caps].
    apply (first_literals [32; 64] _
             ltac:(repeat constructor; unfold RuneSelf; lia) _
             ("@"%char :: tail)); [reflexivity|].
    cbn [m_pos m_caps length].
    rewrite (ends_ascii_literal 64 _ tail); [|unfold RuneSelf; lia | reflexivity].
    reflexivity. }
  exists (slice line 0 (m_pos fin)).
  unfold FindStringSubmatch.
  assert (S : search hunkHeaderRegex (length line) (start_state line)
              = Some (0%nat, fin)).
  { destruct (length line); cbn [search]; rewrite exec_hd;
      cbn [start_state m_pos m_rest]; rewrite E; reflexivity. }
  rewrite S. cbn [option_map]. unfold submatches. cbn [fst snd].
  replace (NumSubexp hunkHeaderRegex) with 1%nat by (vm_compute; reflexivity).
  cbn [seq map]. unfold fin at 2. cbn [m_caps lookup_cap Nat.eqb].
  do 3 f_equal.
  replace from with (length (str "@@ -" ++ a ++ o1 ++ str " +"))
    by (unfold from; rewrite !length_app; cbn [str list_ascii_of_string length]; lia).
  unfold line, hunk_header_line.
  rewrite <- (slice_middle (str "@@ -" ++ a ++ o1 ++ str " +") n
                (o2 ++ str " @@" ++ tail)) at 3.
  f_equal. rewrite <- !app_assoc. reflexivity.
Qed.

Lemma decimal_nonneg (ds : gostring) :
  Forall (fun c => is_digit c = true) ds ->
  forall acc, 0 <= acc -> 0 <= decimal acc ds.
Proof.
  intros H. induction H as [|c ds Hc _ IH]; intros acc Hacc; cbn [decimal];
    [exact Hacc|].
  apply IH. unfold is_digit, between in Hc.
  apply andb_true_iff in Hc as [Hc _]. apply Z.leb_le in Hc. lia.
Qed.

Lemma Atoi_digits (n : gostring) :
  all_digits n -> decimal 0 n <= MaxInt64 -> Atoi n = inr (decimal 0 n).
Proof.
  intros [Hne Hds] Hmax. unfold Atoi.
  destruct n as [|d ds]; [congruence|].
  inversion Hds as [|? ? Hd _]; subst.
  assert (Hm : (d =? "-")%char = false).
  { apply Ascii.eqb_neq. intros ->. discriminate Hd. }
  assert (Hp : (d =? "+")%char = false).
  { apply Ascii.eqb_neq. intros ->. discriminate Hd. }
  rewrite Hm, Hp.
  assert (F : forallb is_digit (d :: ds) = true).
  { apply forallb_forall. rewrite Forall_forall in Hds. exact Hds. }
  rewrite F.
  pose proof (decimal_nonneg (d :: ds) Hds 0 ltac:(lia)) as H0.
  unfold between.
  destruct (MinInt64 <=? decimal 0 (d :: ds)) eqn:L1;
    [|apply Z.leb_gt in L1; unfold MinInt64 in L1; lia].
  destruct (decimal 0 (d :: ds) <=? MaxInt64) eqn:L2;
    [reflexivity | apply Z.leb_gt in L2; lia].
Qed.

(** Every line of the form [@@ -a[,b] +n[,c] @@...], with [n] within the
    range of [int], declares the new-start [n]. *)
Lemma hunk_header_line_declares (a o1 n o2 tail : gostring) :
  all_digits a -> count_suffix o1 -> all_digits n -> count_suffix o2 ->
  decimal 0 n <= MaxInt64 ->
  declares_new_start (hunk_header_line a o1 n o2 tail) (decimal 0 n).
Proof.
  intros Ha Ho1 Hn Ho2 Hmax. split.
  - destruct (is_file_header _) eqn:F; [|reflexivity].
    apply file_header_prefix, HasPrefix_inv in F as [t F].
    unfold hunk_header_line in F. discriminate F.
  - destruct (hunk_header_line_submatch a o1 n o2 tail Ha Ho1 Hn Ho2) as [whole E].
    exists [whole; n]. split; [exact E|].
    now apply Atoi_digits.
Qed.

(* ================================================================== *)
(** ** C2: numbering after a hunk header *)

(** C2, amended.  A hunk header declaring new-start N sets the line counter
    to N.  Of the lines that follow, up to the next hunk header or the next
    line that begins with [+++], every added line (a line that begins with
    [+]) is recorded, under the current file, with the counter, and every
    added or context line advances the counter by one in the arithmetic of
    [int]: an added line is recorded at N plus the number of added and
    context lines between the header and it, hence at N right after the
    header.  In particular the header [@@ -10,0 +15,3 @@] causes the next
    three added lines, none beginning with [+++], to be recorded at 15, 16
    and 17.  Every line of the form [@@ -a[,b] +n[,c] @@...] whose [n] fits
    an [int] is such a header and declares [n]. *)
Theorem hunk_header_numbering :
  (forall a o1 n o2 tail : gostring,
     all_digits a -> count_suffix o1 -> all_digits n -> count_suffix o2 ->
     decimal 0 n <= MaxInt64 ->
     declares_new_start (hunk_header_line a o1 n o2 tail) (decimal 0 n))
  /\
  (forall (p : parser) (header : gostring) (N : Z) (body : list gostring),
     declares_new_start header N ->
     Forall (fun l => is_hunk_header l = false) body ->
     Forall (fun l => triple_plus l = false) body ->
     exists p1 p2,
       parseLine p header = inr p1 /\
       currentLineNum p1 = N /\
       lines p1 = lines p /\
       parseLines p1 body = inr p2 /\
       currentLineNum p2 = wrap64 (N + Z.of_nat (length (filter in_new_file body))) /\
       length (lines p2) = (length (lines p) + length (filter plus_line body))%nat /\
       forall pre l post,
         body = pre ++ l :: post -> plus_line l = true ->
         exists d,
           nth_error (lines p2) (length (lines p) + length (filter plus_line pre))
             = Some d /\
           DiffLine.FilePath d = currentFile p /\
           DiffLine.Content d = skipn 1 l /\
           DiffLine.LineNum d = wrap64 (N + Z.of_nat (length (filter in_new_file pre))) /\
           (N + Z.of_nat (length (filter in_new_file pre)) <= MaxInt64 ->
            DiffLine.LineNum d = N + Z.of_nat (length (filter in_new_file pre))))
  /\
  (forall (p : parser) (l1 l2 l3 : gostring),
     plus_line l1 = true -> plus_line l2 = true -> plus_line l3 = true ->
     triple_plus l1 = false -> triple_plus l2 = false -> triple_plus l3 = false ->
     exists p',
       parseLines p [str "@@ -10,0 +15,3 @@"; l1; l2; l3] = inr p' /\
       lines p' = lines p ++
         [ DiffLine.Make (currentFile p) 15 (skipn 1 l1);
           DiffLine.Make (currentFile p) 16 (skipn 1 l2);
           DiffLine.Make (currentFile p) 17 (skipn 1 l3) ]).
Proof.
  split; [exact hunk_header_line_declares | split].
  - intros p header N body Hh Hbody Hplus.
    pose proof (parseLine_hunk_header p header N Hh) as E1.
    destruct Hh as [_ [m [_ A]]]. pose proof (Atoi_range _ _ A) as RN.
    set (p1 := {| currentFile := currentFile p; currentLineNum := N;
                  lines := lines p |}) in *.
    destruct (parseLines_counter body p1 Hbody RN) as [p2 [E2 [C2 _]]].
    destruct (filter_no_triple_plus body Hplus) as [FA [FC _]].
    destruct (parseLines_records body p1 p2 E2 RN) as [_ [new [Ln Nn]]].
    exists p1, p2.
    split; [exact E1|]. split; [reflexivity|]. split; [reflexivity|].
    split; [exact E2|]. split; [now rewrite C2, FC|].
    split; [rewrite Ln, length_app, Nn, FA; reflexivity|].
    intros pre l post -> Hl.
    apply Forall_app in Hbody as [Hpre _].
    apply Forall_app in Hplus as [Ppre Pl].
    inversion Pl as [|? ? Tl _]; subst.
    destruct (filter_no_triple_plus pre Ppre) as [FApre [FCpre Fpre]].
    assert (Al : is_added l = true) by (now rewrite no_triple_plus_added).
    destruct (parseLines_numbering p1 pre l post Hpre Al RN p2 E2) as [file [Hf Hn]].
    rewrite (Hf Fpre), FApre, FCpre in Hn.
    eexists. split; [exact Hn|].
    cbn [DiffLine.FilePath DiffLine.Content DiffLine.LineNum currentFile p1].
    repeat split. intros Hle. apply wrap64_small.
    cbn [currentLineNum p1]. unfold MinInt64, MaxInt64 in *. lia.
  - intros p l1 l2 l3 H1 H2 H3 T1 T2 T3.
    assert (A1 : is_added l1 = true) by (now rewrite no_triple_plus_added).
    assert (A2 : is_added l2 = true) by (now rewrite no_triple_plus_added).
    assert (A3 : is_added l3 = true) by (now rewrite no_triple_plus_added).
    assert (Hh : declares_new_start (str "@@ -10,0 +15,3 @@") 15).
    { split; [vm_compute; reflexivity|].
      eexists. split; [vm_compute; reflexivity | vm_compute; reflexivity]. }
    cbn [parseLines]. rewrite (parseLine_hunk_header p _ 15 Hh).
    rewrite (parseLine_added _ l1 A1). rewrite (parseLine_added _ l2 A2).
    rewrite (parseLine_added _ l3 A3).
    eexists. split; [reflexivity|]. cbn [lines currentFile currentLineNum].
    rewrite <- !app_assoc. cbn [app].
    change (wrap64 (15 + 1)) with 16. change (wrap64 (16 + 1)) with 17.
    reflexivity.
Qed.

(** C2 as stated fails where context lines stand between the hunk header
    and the first added line: with new-start 5 and one context line, the
    first added line after the header is recorded at 6. *)
Lemma hunk_header_numbering_counterexample :
  let header := str "@@ -5,1 +5,2 @@" in
  let diffOutput :=
    str "+++ b/f.go" ++ [newline] ++ header ++ [newline]
    ++ str " kept" ++ [newline] ++ str "+new" ++ [newline] in
  declares_new_start header 5 /\
  parseDiff diffOutput = ([ DiffLine.Make (str "f.go") 6 (str "new") ], None).
Proof.
  cbv zeta. split.
  - split; [vm_compute; reflexivity|].
    eexists. split; [vm_compute; reflexivity | vm_compute; reflexivity].
  - vm_compute. reflexivity.
Qed.

(** The statement stops at a line that begins with [+++]: the loop neither
    records nor counts such a line, so that after the added line [++i;],
    which git prints as [+++i;], the next added line is recorded one too
    low. *)
Lemma hunk_numbering_after_triple_plus :
  exists p,
    parseLines parser_init
      [str "+++ b/a.c"; str "@@ -0,0 +1,3 @@"; str "+int i;"; str "+++i;";
       str "+return i;"] = inr p /\
    lines p = [ DiffLine.Make (str "a.c") 1 (str "int i;");
                DiffLine.Make (str "a.c") 2 (str "return i;") ].
Proof. eexists. split; vm_compute; reflexivity. Qed.

(* ================================================================== *)
(** ** C10: added lines before any header *)

(** C10, amended.  An added line (a line that begins with [+]) that stands
    in the diff text before the first hunk header and before the first line
    that begins with [+++] (a file header is such a line) is emitted as a
    DiffLine record, neither skipped nor the cause of an error, with the
    empty string as file path and, as line number, the number of added and
    context lines before it (in the arithmetic of [int]): counting up from
    0, the first such added line getting 0 unless context lines precede
    it. *)
Theorem headerless_added_lines (diffOutput : gostring) (pre : list gostring)
    (l : gostring) (post : list gostring) (records : list DiffLine) :
  fst (Scanner diffOutput) = pre ++ l :: post ->
  Forall (fun x => is_hunk_header x = false /\ triple_plus x = false) pre ->
  plus_line l = true -> triple_plus l = false ->
  parseDiff diffOutput = (records, None) ->
  (exists p, parseLines parser_init (pre ++ [l]) = inr p) /\
  exists d,
    nth_error records (length (filter plus_line pre)) = Some d /\
    DiffLine.FilePath d = [] /\
    DiffLine.Content d = skipn 1 l /\
    DiffLine.LineNum d = wrap64 (Z.of_nat (length (filter in_new_file pre))) /\
    (Z.of_nat (length pre) <= MaxInt64 ->
     DiffLine.LineNum d = Z.of_nat (length (filter in_new_file pre))) /\
    (Forall (fun x => is_context x = false) pre ->
     Z.of_nat (length pre) <= MaxInt64 ->
     DiffLine.LineNum d = Z.of_nat (length (filter plus_line pre))).
Proof.
  intros Htok Hpre Hl Tl Hdiff.
  assert (Hh : Forall (fun x => is_hunk_header x = false) pre)
    by (eapply Forall_impl; [|exact Hpre]; cbn; tauto).
  assert (Ht : Forall (fun x => triple_plus x = false) pre)
    by (eapply Forall_impl; [|exact Hpre]; cbn; tauto).
  destruct (filter_no_triple_plus pre Ht) as [FA [FC Hf]].
  assert (Al : is_added l = true) by (now rewrite no_triple_plus_added).
  split.
  - destruct (parseLines_counter pre parser_init Hh parser_init_range)
      as [pm [Em _]].
    rewrite parseLines_app, Em. cbn [parseLines].
    rewrite (parseLine_added pm l Al). eexists. reflexivity.
  - unfold parseDiff in Hdiff.
    destruct (Scanner diffOutput) as [tokens scanErr]. cbn [fst] in Htok.
    subst tokens.
    destruct (parseLines parser_init (pre ++ l :: post)) as [e|p] eqn:E;
      [discriminate|].
    destruct scanErr; [discriminate|]. injection Hdiff as <-.
    destruct (parseLines_numbering parser_init pre l post Hh Al
                parser_init_range p E) as [file [Hfile Hn]].
    rewrite (Hfile Hf), FA, FC in Hn.
    cbn [parser_init lines currentFile currentLineNum length Nat.add Z.add] in Hn.
    eexists. split; [exact Hn|].
    cbn [DiffLine.FilePath DiffLine.Content DiffLine.LineNum].
    pose proof (filter_length_le in_new_file pre) as Hle.
    split; [reflexivity|]. split; [reflexivity|]. split; [reflexivity|]. split.
    + intros Hlen. apply wrap64_small. unfold MinInt64, MaxInt64 in *. lia.
    + intros Hc Hlen.
      assert (Heq : filter in_new_file pre = filter plus_line pre).
      { apply filter_ext_in. intros x Hx. unfold in_new_file.
        rewrite Forall_forall in Hc. rewrite (Hc x Hx). apply orb_false_r. }
      rewrite <- Heq. apply wrap64_small. unfold MinInt64, MaxInt64 in *. lia.
Qed.

Lemma headerless_added_lines_witness :
  (exists p, parseLines parser_init ([str "diff --git a/x b/x"; str "+one"] ++ [str "+two"])
             = inr p) /\
  exists d,
    nth_error [ DiffLine.Make [] 0 (str "one"); DiffLine.Make [] 1 (str "two");
                DiffLine.Make (str "x") 7 (str "three") ] 1 = Some d /\
    DiffLine.FilePath d = [] /\
    DiffLine.Content d = str "two" /\
    DiffLine.LineNum d = wrap64 1 /\
    (2 <= MaxInt64 -> DiffLine.LineNum d = 1) /\
    (Forall (fun x => is_context x = false) [str "diff --git a/x b/x"; str "+one"] ->
     2 <= MaxInt64 ->
     DiffLine.LineNum d = 1).
Proof.
  apply (headerless_added_lines
           (str "diff --git a/x b/x" ++ [newline] ++ str "+one" ++ [newline]
            ++ str "+two" ++ [newline] ++ str "+++ b/x" ++ [newline]
            ++ str "@@ -6,0 +7,1 @@" ++ [newline] ++ str "+three" ++ [newline])
           [str "diff --git a/x b/x"; str "+one"] (str "+two")
           [str "+++ b/x"; str "@@ -6,0 +7,1 @@"; str "+three"]).
  - vm_compute. reflexivity.
  - repeat constructor.
  - vm_compute. reflexivity.
  - vm_compute. reflexivity.
  - vm_compute. reflexivity.
Defined.

(** C10 as stated fails where a context line comes first: the first added
    line before any header then gets line number 1, not 0. *)
Lemma headerless_added_lines_counterexample :
  parseDiff (str " kept" ++ [newline] ++ str "+new" ++ [newline])
  = ([ DiffLine.Make [] 1 (str "new") ], None).
Proof. vm_compute. reflexivity. Qed.

(** The statement stops at the first line that begins with [+++]: the loop
    neither records nor counts such a line. *)
Lemma headerless_triple_plus_skipped :
  parseDiff (str "+++x" ++ [newline] ++ str "+y" ++ [newline])
  = ([ DiffLine.Make [] 0 (str "y") ], None).
Proof. vm_compute. reflexivity. Qed.

(* ================================================================== *)
(** ** C8: the default rules on an OpenAI-style key *)

Lemma patterns_compile :
  Forall (fun rule => exists re, Parse (pattern rule) = POk re) default_rule_sources
  /\ (exists re, Parse (str "^\+\+\+ b/(.+)$") = POk re)
  /\ (exists re, Parse (str "^@@ -\d+(?:,\d+)? \+(\d+)(?:,\d+)? @@") = POk re).
Proof.
  split; [|split].
  - repeat constructor; eexists; vm_compute; reflexivity.
  - eexists; vm_compute; reflexivity.
  - eexists; vm_compute; reflexivity.
Qed.

(** C8.  Scanning the single line [API_KEY=sk-abc123def456ghi789jklmno]
    with the default rule library (its ten rules, all of which compile)
    yields exactly one Finding, that of the rule OPENAI_API_KEY; no other
    rule, the generic-API-key rule included, produces a finding on it. *)
Theorem openai_key_line_one_finding (filePath : gostring) (lineNum : Z) :
  map SecretRule.ID (rules NewSecretScanner) =
    [ str "OPENAI_API_KEY"; str "GITHUB_PAT"; str "AWS_ACCESS_KEY";
      str "AWS_SECRET_KEY"; str "STRIPE_LIVE_PK"; str "STRIPE_LIVE_SK";
      str "SLACK_TOKEN"; str "JWT_TOKEN"; str "GENERIC_API_KEY"; str "PRIVATE_KEY" ]
  /\
  map (fun f => (Finding.RuleID f, Finding.FilePath f, Finding.LineNum f,
                 Finding.Match f, Finding.StartPos f, Finding.EndPos f))
      (ScanLine NewSecretScanner filePath lineNum
         (str "API_KEY=sk-abc123def456ghi789jklmno"))
  = [ (str "OPENAI_API_KEY", filePath, lineNum,
       str "sk-abc123def456ghi789jklmno", 8, 35) ].
Proof. split; vm_compute; reflexivity. Qed.

(* ================================================================== *)
(** ** C9: a rejected pattern leaves the checker as it was *)

(** C9.  [AddPattern] is atomic on error: if it returns an error, the
    stored pattern list and the compiled regex list are unchanged, so the
    rejected pattern influences no later [ShouldIgnore] decision. *)
Theorem AddPattern_error_atomic (ic : IgnoreChecker) (pattern : gostring)
    (ic' : IgnoreChecker) (err : error) :
  AddPattern ic pattern = (ic', Some err) ->
  patterns ic' = patterns ic /\
  regexes ic' = regexes ic /\
  forall filePath, ShouldIgnore ic' filePath = ShouldIgnore ic filePath.
Proof.
  unfold AddPattern.
  destruct (globToRegex pattern) as [e|regex].
  - intros [= <- _]. auto.
  - destruct (Compile regex) as [compiled|].
    + discriminate.
    + intros [= <- _]. auto.
Qed.

Lemma AddPattern_error_atomic_witness :
  let ic := fst (AddPattern NewIgnoreChecker (str "*.md")) in
  patterns ic = [str "*.md"] /\
  patterns (fst (AddPattern ic (str "docs/[a-"))) = patterns ic /\
  regexes (fst (AddPattern ic (str "docs/[a-"))) = regexes ic /\
  forall filePath,
    ShouldIgnore (fst (AddPattern ic (str "docs/[a-"))) filePath
    = ShouldIgnore ic filePath.
Proof.
  cbv zeta. split; [vm_compute; reflexivity|].
  apply (AddPattern_error_atomic
           (fst (AddPattern NewIgnoreChecker (str "*.md"))) (str "docs/[a-")
           (fst (AddPattern (fst (AddPattern NewIgnoreChecker (str "*.md")))
                   (str "docs/[a-")))
           (Errorf (str "invalid glob pattern: ") ErrUnterminatedClass)).
  vm_compute. reflexivity.
Defined.

(** Both causes of rejection occur: a glob that [globToRegex] refuses and a
    translation that [regexp.Compile] refuses. *)
Lemma AddPattern_rejections :
  snd (AddPattern NewIgnoreChecker (str "docs/[a-"))
    = Some (Errorf (str "invalid glob pattern: ") ErrUnterminatedClass) /\
  globToRegex (str "[z-a]") = inr (str "^[z-a]$") /\
  Parse (str "^[z-a]$") = PSyntaxError /\
  snd (AddPattern NewIgnoreChecker (str "[z-a]"))
    = Some (Errorf (str "failed to compile pattern: ") ErrRegexp).
Proof. repeat split; vm_compute; reflexivity. Qed.

(* ================================================================== *)
(** ** C4: ignore patterns and whole-string matching *)

(** The second half of C4 holds: [ShouldIgnore] returns true exactly when
    some loaded pattern matches the normalized path or its last element. *)
Lemma ShouldIgnore_iff (ic : IgnoreChecker) (filePath : gostring) :
  ShouldIgnore ic filePath = true <->
  exists regex, In regex (regexes ic) /\
    (MatchString regex (ToSlash filePath) = true \/
     MatchString regex (Base (ToSlash filePath)) = true).
Proof.
  unfold ShouldIgnore. rewrite existsb_exists.
  split; intros [r [Hin H]]; exists r; split; try assumption.
  - now apply orb_true_iff in H.
  - now apply orb_true_iff.
Qed.

(** C4 fails on the code.  The glob [[\][]|]] is accepted by [AddPattern];
    its translation is parsed as an alternation at top level, one branch
    anchored at the start only and the other at the end only.  The compiled
    pattern then matches the first byte of the path [[id]/page.tsx] although
    it matches neither the entire path nor its entire last element, and
    [ShouldIgnore] returns true. *)
Theorem ignore_pattern_not_anchored :
  let glob := str "[\][]|]" in
  let path := str "[id]/page.tsx" in
  let regex :=
    Alternate (Concat BeginText (CharClass false [(93, 93); (91, 91)]))
              (Concat (CharClass false [(93, 93)]) EndText) in
  AddPattern NewIgnoreChecker glob
    = ({| patterns := [glob]; regexes := [regex] |}, None) /\
  globToRegex glob = inr (str "^[\][]|]$") /\
  MatchString regex path = true /\
  FindAllStringIndex regex path = [(0%nat, 1%nat)] /\
  matches_entire regex path = false /\
  matches_entire regex (Base path) = false /\
  ShouldIgnore (fst (AddPattern NewIgnoreChecker glob)) path = true.
Proof.
  cbv zeta.
  split; [vm_compute; reflexivity|].
  split; [vm_compute; reflexivity|].
  split; [vm_compute; reflexivity|].
  split; [vm_compute; reflexivity|].
  split; [vm_compute; reflexivity|].
  split; vm_compute; reflexivity.
Qed.

(* ================================================================== *)
(** ** The bytes one decoding step consumes *)

Lemma first_lo (b0 : Z) (sz : nat) (lo hi : Z) :
  first b0 = Some (sz, lo, hi) -> RuneSelf <= lo.
Proof.
  unfold first, RuneSelf.
  repeat match goal with
  | |- (if ?b then _ else _) = _ -> _ => destruct b
  end; intros [= <- <- <-] || discriminate; lia.
Qed.

(** A step is one byte wide, or consumes bytes from 0x80 on only. *)
Lemma DecodeRune_bytes (s : gostring) :
  s <> [] ->
  let d := snd (DecodeRuneInString s) in
  d = 1%nat \/ Forall (fun b => RuneSelf <= byteZ b) (firstn d s).
Proof.
  destruct s as [|c0 t]; [congruence|]. intros _. cbv zeta.
  unfold DecodeRuneInString.
  destruct (byteZ c0 <? RuneSelf) eqn:E0; [left; reflexivity|].
  apply Z.ltb_ge in E0.
  destruct (first (byteZ c0)) as [[[sz lo] hi]|] eqn:F; [|left; reflexivity].
  apply first_lo in F.
  destruct t as [|c1 t1]; [left; reflexivity|].
  destruct (negb (between lo (byteZ c1) hi)) eqn:B1; [left; reflexivity|].
  apply negb_false_iff in B1. unfold between in B1.
  apply andb_true_iff in B1 as [B1 _]. apply Z.leb_le in B1.
  assert (H1 : RuneSelf <= byteZ c1) by lia.
  destruct (sz <=? 2)%nat.
  { right. cbn. repeat constructor; assumption. }
  destruct t1 as [|c2 t2]; [left; reflexivity|].
  destruct (negb (is_cont c2)) eqn:B2; [left; reflexivity|].
  apply negb_false_iff in B2. unfold is_cont, between in B2.
  apply andb_true_iff in B2 as [B2 _]. apply Z.leb_le in B2.
  destruct (sz <=? 3)%nat.
  { right. cbn. repeat constructor; assumption. }
  destruct t2 as [|c3 t3]; [left; reflexivity|].
  destruct (negb (is_cont c3)) eqn:B3; [left; reflexivity|].
  apply negb_false_iff in B3. unfold is_cont, between in B3.
  apply andb_true_iff in B3 as [B3 _]. apply Z.leb_le in B3.
  right. cbn. repeat constructor; assumption.
Qed.

Lemma newline_byte : byteZ newline = 10.
Proof. reflexivity. Qed.

(** A step that yields a rune other than the newline consumes no newline. *)
Lemma DecodeRune_no_newline (s : gostring) :
  s <> [] ->
  fst (DecodeRuneInString s) <> 10 ->
  ~ In newline (firstn (snd (DecodeRuneInString s)) s).
Proof.
  intros Hne Hr Hin.
  destruct (DecodeRune_bytes s Hne) as [H1|HF].
  - destruct s as [|c t]; [congruence|]. rewrite H1 in Hin. cbn in Hin.
    destruct Hin as [E|[]]. subst c.
    rewrite DecodeRune_ascii in Hr by reflexivity.
    apply Hr. reflexivity.
  - rewrite Forall_forall in HF. specialize (HF _ Hin).
    rewrite newline_byte in HF. unfold RuneSelf in HF. lia.
Qed.

(** A byte other than the newline never decodes to the newline. *)
Lemma DecodeRune_not_newline (c : ascii) (t : gostring) :
  c <> newline -> fst (DecodeRuneInString (c :: t)) <> 10.
Proof.
  intros Hc. destruct (Z_lt_le_dec (byteZ c) RuneSelf) as [L|G].
  - rewrite DecodeRune_ascii by exact L. cbn. intros E.
    apply Hc, byteZ_inj. now rewrite newline_byte.
  - pose proof (DecodeRune_high c t G). unfold RuneSelf in *. lia.
Qed.

(** A step never runs across an ASCII byte. *)
Lemma DecodeRune_boundary (w : gostring) (a : ascii) (t : gostring) :
  w <> [] -> byteZ a < RuneSelf ->
  (snd (DecodeRuneInString (w ++ a :: t)) <= length w)%nat.
Proof.
  intros Hw Ha.
  assert (Hne : w ++ a :: t <> []) by (destruct w; discriminate).
  destruct (DecodeRune_bytes _ Hne) as [H1|HF].
  - rewrite H1. destruct w; [congruence | cbn; lia].
  - set (d := snd (DecodeRuneInString (w ++ a :: t))) in *.
    destruct (le_lt_dec d (length w)) as [L|G]; [exact L|].
    exfalso. rewrite Forall_forall in HF.
    assert (Hin : In a (firstn d (w ++ a :: t))).
    { rewrite firstn_app.
      apply in_or_app. right.
      destruct (d - length w)%nat as [|k] eqn:K; [lia|]. cbn. now left. }
    specialize (HF _ Hin). lia.
Qed.

(* ================================================================== *)
(** ** What the translation of the double star accepts *)

Lemma ends_dot (st : mstate) :
  ends dot st =
    match m_rest st with
    | [] => []
    | _ :: _ =>
      if (fst (DecodeRuneInString (m_rest st)) =? 10) then []
      else [advance (snd (DecodeRuneInString (m_rest st))) st]
    end.
Proof.
  unfold dot. cbn [ends]. destruct (m_rest st) as [|c t]; [reflexivity|].
  destruct (DecodeRuneInString (c :: t)) as [x d]. cbn [fst snd].
  unfold class_matches, in_ranges, between. cbn [existsb fst snd].
  rewrite orb_false_r.
  destruct (x =? 10) eqn:E.
  - apply Z.eqb_eq in E. subst. reflexivity.
  - apply Z.eqb_neq in E.
    destruct (10 <=? x) eqn:L1, (x <=? 10) eqn:L2; cbn; try reflexivity.
    apply Z.leb_le in L1, L2. lia.
Qed.

Lemma dotstar_sound (fuel : nat) :
  forall st x,
    In x (ends_star (ends dot) true fuel st) ->
    exists w, ~ In newline w /\ m_rest st = w ++ m_rest x /\
              m_pos x = (m_pos st + length w)%nat /\ m_caps x = m_caps st.
Proof.
  induction fuel as [|fuel IH]; intros st x; cbn [ends_star].
  - intros [<-|[]]. exists []. cbn. auto.
  - intros H. apply in_app_or in H as [H|[<-|[]]].
    2:{ exists []. cbn. auto. }
    apply in_flat_map in H as [st1 [H1 H]].
    rewrite ends_dot in H1.
    destruct (m_rest st) as [|c t] eqn:R; [contradiction|].
    destruct (fst (DecodeRuneInString (c :: t)) =? 10) eqn:E; [contradiction|].
    apply Z.eqb_neq in E. destruct H1 as [<-|[]].
    destruct (m_pos st <? _)%nat; [|contradiction].
    destruct (IH _ _ H) as [w [Hw [Hr [Hp Hc]]]].
    set (d := snd (DecodeRuneInString (c :: t))) in *.
    unfold advance in Hr, Hp, Hc. cbn [m_rest m_pos m_caps] in Hr, Hp, Hc.
    rewrite R in Hr.
    exists (firstn d (c :: t) ++ w). repeat split.
    + intros Hin. apply in_app_or in Hin as [Hin|Hin]; [|contradiction].
      revert Hin. apply DecodeRune_no_newline; [discriminate | exact E].
    + rewrite <- app_assoc, <- Hr. symmetry. apply firstn_skipn.
    + rewrite Hp, length_app, length_firstn.
      pose proof (DecodeRune_width (c :: t) ltac:(discriminate)). fold d in H0.
      lia.
    + exact Hc.
Qed.

Lemma In_skipn_in (n : nat) (l : gostring) (x : ascii) :
  In x (skipn n l) -> In x l.
Proof.
  intros H. rewrite <- (firstn_skipn n l). apply in_or_app. now right.
Qed.

Lemma ends_star_self (body : mstate -> list mstate) (fuel : nat) (st : mstate) :
  In st (ends_star body true fuel st).
Proof.
  destruct fuel; cbn [ends_star]; [now left|].
  apply in_or_app. right. now left.
Qed.

Lemma dotstar_complete (a : ascii) (t : gostring) :
  byteZ a < RuneSelf ->
  forall n w fuel st,
    (length w <= n)%nat -> (length w <= fuel)%nat ->
    ~ In newline w -> m_rest st = w ++ a :: t ->
    In (MState (m_pos st + length w) (a :: t) (m_caps st))
       (ends_star (ends dot) true fuel st).
Proof.
  intros Ha. induction n as [|n IH]; intros w fuel st Hn Hf Hw R.
  - destruct w; [|cbn in Hn; lia].
    cbn [length app] in *. rewrite Nat.add_0_r, <- R.
    destruct st as [p0 r0 c0]. apply ends_star_self.
  - destruct (list_eq_dec ascii_dec w []) as [->|Hwne].
    { cbn [length app] in *. rewrite Nat.add_0_r, <- R.
      destruct st as [p0 r0 c0]. apply ends_star_self. }
    assert (Hlen : (1 <= length w)%nat) by (destruct w; [congruence | cbn; lia]).
    destruct fuel as [|fuel]; [lia|].
    assert (Hne : m_rest st <> []) by (rewrite R; destruct w; discriminate).
    pose proof (DecodeRune_width _ Hne) as Hd.
    pose proof (DecodeRune_boundary w a t Hwne Ha) as Hb.
    rewrite <- R in Hb.
    assert (E : fst (DecodeRuneInString (m_rest st)) <> 10).
    { rewrite R. destruct w as [|c w']; [congruence|]. cbn [app].
      apply DecodeRune_not_newline. intros ->. apply Hw. now left. }
    set (d := snd (DecodeRuneInString (m_rest st))) in *.
    cbn [ends_star]. apply in_or_app. left.
    apply in_flat_map. exists (advance d st). split.
    + rewrite ends_dot. destruct (m_rest st) as [|c0 r0] eqn:R0; [congruence|].
      apply Z.eqb_neq in E. rewrite E. left. reflexivity.
    + unfold advance at 1. cbn [m_pos].
      destruct (m_pos st <? m_pos st + d)%nat eqn:P;
        [|apply Nat.ltb_ge in P; lia].
      specialize (IH (skipn d w) fuel (advance d st)).
      unfold advance in IH. cbn [m_pos m_rest m_caps] in IH.
      rewrite length_skipn in IH.
      replace (m_pos st + d + (length w - d))%nat
        with (m_pos st + length w)%nat in IH by lia.
      apply IH; try lia.
      * intros Hin. apply Hw. revert Hin. apply In_skipn_in.
      * rewrite R, skipn_app.
        replace (d - length w)%nat with 0%nat by lia. reflexivity.
Qed.

Lemma find_some_exact (l : list mstate) (st' : mstate) :
  find_some (fun x => if mstate_eqb x st' then Some x else None) l = Some st'
  <-> In st' l.
Proof.
  unfold mstate_eqb. induction l as [|x l IH]; cbn [find_some In].
  - split; [discriminate | contradiction].
  - destruct (mstate_eq_dec x st') as [->|N]; cbn [orelse].
    + split; auto.
    + rewrite IH. split; [auto | intros [E|H]; [contradiction | exact H]].
Qed.

Lemma reaches_ends (r : regex) (st st' : mstate) :
  reaches r st st' <-> In st' (ends r st).
Proof. unfold reaches. rewrite run_ends. apply find_some_exact. Qed.

(** The translation of the double star followed by a slash accepts a
    prefix that ends in a slash and holds no newline; it accepts the empty
    prefix at the very start of the path only. *)
Lemma doublestar_slash_accepts (st st' : mstate) :
  reaches doublestar_slash st st' <->
  (m_pos st = 0%nat /\ st' = st) \/
  (exists w, ~ In newline w /\
             m_rest st = w ++ "/"%char :: m_rest st' /\
             m_pos st' = (m_pos st + length w + 1)%nat /\
             m_caps st' = m_caps st).
Proof.
  rewrite reaches_ends. unfold doublestar_slash.
  cbn [ends ends_times Nat.sub]. fold dot. rewrite in_app_iff.
  split.
  - intros [H|H].
    + right. apply in_flat_map in H as [st1 [H1 H]].
      apply dotstar_sound in H1 as [w [Hw [Hr [Hp Hc]]]].
      destruct (m_rest st1) as [|c t] eqn:R; [contradiction|].
      destruct (DecodeRuneInString (c :: t)) as [x d] eqn:D.
      destruct (class_matches false [(47, 47)] x) eqn:M; [|contradiction].
      destruct H as [<-|[]].
      unfold class_matches, in_ranges, between in M. cbn in M.
      rewrite orb_false_r in M. apply andb_true_iff in M as [M1 M2].
      apply Z.leb_le in M1, M2. assert (x = 47) by lia. subst x.
      pose proof (DecodeRune_ascii_inv c t) as A. rewrite D in A.
      specialize (A ltac:(cbn; unfold RuneSelf; lia)).
      injection A as A1 A2. subst d.
      assert (c = "/"%char) by (apply byteZ_inj; rewrite <- A1; reflexivity).
      subst c. exists w. unfold advance. cbn [m_rest m_pos m_caps].
      rewrite R. cbn [skipn]. repeat split; try assumption. lia.
    + left. destruct (m_pos st =? 0)%nat eqn:E; [|contradiction].
      apply Nat.eqb_eq in E. destruct H as [<-|[]]. auto.
  - intros [[Hp ->]|[w [Hw [Hr [Hp Hc]]]]].
    + right. rewrite Hp. cbn. now left.
    + left. apply in_flat_map.
      exists (MState (m_pos st + length w) ("/"%char :: m_rest st') (m_caps st)).
      split.
      * apply (dotstar_complete "/"%char (m_rest st') ltac:(cbn; unfold RuneSelf; lia)
                 (length w) w); try lia; try assumption.
        rewrite Hr, length_app. cbn. lia.
      * cbn [ends m_rest]. rewrite DecodeRune_ascii by (cbn; unfold RuneSelf; lia).
        change (class_matches false [(47, 47)] (byteZ "/")) with true. cbn iota.
        left. unfold advance. cbn [m_pos m_rest m_caps skipn].
        destruct st' as [p' r' c']. cbn [m_pos m_rest m_caps] in *. subst.
        f_equal; lia.
Qed.

(* ================================================================== *)
(** ** The loop of [globToRegex] *)

(** The fuel never runs out: any amount from the length of the glob on
    gives the same result. *)
Lemma globToRegex_loop_fuel :
  forall n fuel1 fuel2 glob regex,
    (length glob <= n)%nat -> (length glob <= fuel1)%nat ->
    (length glob <= fuel2)%nat ->
    globToRegex_loop fuel1 glob regex = globToRegex_loop fuel2 glob regex.
Proof.
  induction n as [|n IH]; intros fuel1 fuel2 glob regex Hn H1 H2.
  - destruct glob; [|cbn in Hn; lia]. now destruct fuel1, fuel2.
  - destruct glob as [|c t]; [now destruct fuel1, fuel2|].
    destruct fuel1 as [|f1]; [cbn in H1; lia|].
    destruct fuel2 as [|f2]; [cbn in H2; lia|].
    cbn [globToRegex_loop].
    repeat match goal with
    | |- context [if ?b then _ else _] => destruct b
    end; try reflexivity;
      apply IH; rewrite length_skipn; cbn [length] in *; lia.
Qed.

(** The loop only ever appends to the pattern built so far. *)
Lemma globToRegex_loop_acc :
  forall fuel glob acc regex,
    globToRegex_loop fuel glob (acc ++ regex) =
      match globToRegex_loop fuel glob regex with
      | inl err => inl err
      | inr r => inr (acc ++ r)
      end.
Proof.
  induction fuel as [|fuel IH]; intros glob acc regex.
  - destruct glob; cbn [globToRegex_loop]; now rewrite app_assoc.
  - destruct glob as [|c t]; cbn [globToRegex_loop]; [now rewrite app_assoc|].
    repeat match goal with
    | |- context [if ?b then _ else _] => destruct b
    end; try reflexivity; rewrite <- app_assoc; apply IH.
Qed.

(* ================================================================== *)
(** ** C5: the double star followed by a slash *)

(** Wherever the loop of [globToRegex] stands at the token of two stars and
    a slash it emits [(?:.*/|^)], so a glob that begins with the token is
    translated to that group followed by the translation of the rest.  The
    compiled group accepts any prefix that ends in the path separator and
    holds no newline, and accepts the empty prefix only where the match
    stands at the start of the path.  The glob [**/*test*] matches both
    [a/b/footest.go] and [test.js]. *)
Lemma doublestar_slash_translation :
  (forall fuel glob regex,
     globToRegex_loop (S fuel) (str "**/" ++ glob) regex
     = globToRegex_loop fuel glob (regex ++ str "(?:.*/|^)")) /\
  (forall glob,
     globToRegex (str "**/" ++ glob) =
       match globToRegex glob with
       | inl err => inl err
       | inr r => inr (str "^(?:.*/|^)" ++ skipn 1 r)
       end) /\
  Compile (str "(?:.*/|^)") = Some doublestar_slash /\
  (forall st st',
     reaches doublestar_slash st st' <->
     (m_pos st = 0%nat /\ st' = st) \/
     (exists w, ~ In newline w /\
                m_rest st = w ++ "/"%char :: m_rest st' /\
                m_pos st' = (m_pos st + length w + 1)%nat /\
                m_caps st' = m_caps st)) /\
  (let ic := fst (AddPattern NewIgnoreChecker (str "**/*test*")) in
   snd (AddPattern NewIgnoreChecker (str "**/*test*")) = None /\
   ShouldIgnore ic (str "a/b/footest.go") = true /\
   ShouldIgnore ic (str "test.js") = true).
Proof.
  split; [|split; [|split; [|split]]].
  - intros fuel glob regex. reflexivity.
  - intros glob. unfold globToRegex.
    change (length (str "**/" ++ glob)) with (S (S (S (length glob)))).
    change (globToRegex_loop (S (S (S (length glob)))) (str "**/" ++ glob) (str "^"))
      with (globToRegex_loop (S (S (length glob))) glob (str "^" ++ str "(?:.*/|^)")).
    rewrite (globToRegex_loop_fuel (length glob) (S (S (length glob))) (length glob))
      by lia.
    assert (E : forall acc,
               globToRegex_loop (length glob) glob acc =
                 match globToRegex_loop (length glob) glob [] with
                 | inl err => inl err
                 | inr r => inr (acc ++ r)
                 end).
    { intros acc. rewrite <- (app_nil_r acc) at 1. apply globToRegex_loop_acc. }
    rewrite (E (str "^" ++ str "(?:.*/|^)")), (E (str "^")).
    destruct (globToRegex_loop (length glob) glob []); reflexivity.
  - vm_compute. reflexivity.
  - exact doublestar_slash_accepts.
  - cbv zeta. split; [vm_compute; reflexivity|].
    split; vm_compute; reflexivity.
Qed.

(** C5 fails on the code.  The glob [src/**/x.go] is accepted and translated
    to [^src/(?:.*/|^)x\.go$].  With one or more directory segments at the
    place of the token the path is ignored; with none, [src/x.go], it is
    not, although the specification and the comment in the code promise any
    number of directories: the empty alternative of the group that stands for the
    token is [^], which succeeds at the start of the path only. *)
Theorem doublestar_slash_zero_segments :
  (let glob := str "src/**/x.go" in
   let ic := fst (AddPattern NewIgnoreChecker glob) in
   globToRegex glob = inr (str "^src/(?:.*/|^)x\.go$") /\
   snd (AddPattern NewIgnoreChecker glob) = None /\
   ShouldIgnore ic (str "src/lib/x.go") = true /\
   ShouldIgnore ic (str "src/a/b/x.go") = true /\
   ShouldIgnore ic (str "src/x.go") = false)
  /\
  Compile (str "(?:.*/|^)") = Some doublestar_slash /\
  (forall st st',
     reaches doublestar_slash st st' <->
     (m_pos st = 0%nat /\ st' = st) \/
     (exists w, ~ In newline w /\
                m_rest st = w ++ "/"%char :: m_rest st' /\
                m_pos st' = (m_pos st + length w + 1)%nat /\
                m_caps st' = m_caps st)).
Proof.
  split; [|split].
  - cbv zeta.
    split; [vm_compute; reflexivity|]. split; [vm_compute; reflexivity|].
    split; [vm_compute; reflexivity|]. split; vm_compute; reflexivity.
  - vm_compute. reflexivity.
  - exact doublestar_slash_accepts.
Qed.

(* ================================================================== *)
(** * Further properties of the code *)

(** ** rules.go: what ScanLine reports *)

Lemma scan_matches_map rule filePath lineNum content (r : regex)
    (pre l : list (nat * mstate)) :
  scan_matches rule filePath lineNum content
    (map (fun m => (fst m, m_pos (snd m))) (pre ++ l)) (length pre)
    (map (submatches r content) l)
  = map (finding_of rule filePath lineNum content) l.
Proof.
  revert pre. induction l as [|m l IH]; intros pre; cbn [map scan_matches];
    [reflexivity|].
  rewrite nth_error_map, nth_error_app2, Nat.sub_diag by lia.
  cbn [nth_error option_map]. f_equal.
  specialize (IH (pre ++ [m])).
  rewrite <- app_assoc, length_app in IH. cbn [app length] in IH.
  rewrite Nat.add_1_r in IH. exact IH.
Qed.

Lemma ScanLine_findAll (s : SecretScanner) filePath lineNum content :
  ScanLine s filePath lineNum content =
    flat_map
      (fun rule =>
         map (finding_of rule filePath lineNum content)
           (findAll (SecretRule.Pattern rule) content))
      (rules s).
Proof.
  unfold ScanLine. apply flat_map_ext. intros rule.
  pose proof (scan_matches_map rule filePath lineNum content
                (SecretRule.Pattern rule) [] (findAll (SecretRule.Pattern rule) content)) as H.
  cbn [app length] in H.
  unfold FindAllStringSubmatch, FindAllStringIndex.
  destruct (findAll (SecretRule.Pattern rule) content) as [|m l] eqn:E;
    [reflexivity|].
  cbn [map] in *. exact H.
Qed.

Lemma findAll_nil_iff (r : regex) (s : gostring) :
  findAll r s = [] <-> MatchString r s = false.
Proof.
  unfold findAll, MatchString, start_state.
  cbn [allMatches m_rest m_pos].
  destruct (search r (length s) (MState 0 s [])) as [[a fin]|];
    [|split; reflexivity].
  split; [|discriminate].
  destruct (m_pos fin =? 0)%nat; discriminate.
Qed.

Lemma allMatches_sorted s r fuel :
  forall st prev, within s st ->
    Forall (fun m => (m_pos st <= fst m)%nat) (allMatches r fuel st prev) /\
    StronglySorted (fun m m' => (m_pos (snd m) <= fst m')%nat)
      (allMatches r fuel st prev).
Proof.
  induction fuel as [|fuel IH]; intros st prev Hst; cbn [allMatches];
    [split; constructor|].
  destruct (search r (length (m_rest st)) st) as [[a fin]|] eqn:E;
    [|split; constructor].
  destruct (search_within _ _ _ _ _ _ Hst E) as [Hfin Hle].
  destruct (m_pos fin =? m_pos st)%nat eqn:Eb.
  - apply Nat.eqb_eq in Eb.
    assert (Htail :
      Forall (fun m => (m_pos fin < fst m)%nat)
        match m_rest st with
        | [] => []
        | _ :: _ =>
          allMatches r fuel
            (advance (snd (DecodeRuneInString (m_rest st))) st) (Some (m_pos fin))
        end /\
      StronglySorted (fun m m' => (m_pos (snd m) <= fst m')%nat)
        match m_rest st with
        | [] => []
        | _ :: _ =>
          allMatches r fuel
            (advance (snd (DecodeRuneInString (m_rest st))) st) (Some (m_pos fin))
        end).
    { destruct (m_rest st) as [|c t] eqn:R; [split; constructor|].
      assert (Hne : m_rest st <> []) by (rewrite R; discriminate).
      pose proof (within_advance _ _ Hst Hne) as Hadv.
      pose proof (DecodeRune_width _ Hne) as Hw.
      rewrite R in Hadv, Hw.
      destruct (IH _ (Some (m_pos fin)) Hadv) as [H1 H2]. split; [|exact H2].
      eapply Forall_impl; [|exact H1]. intros m Hm.
      unfold advance in Hm; cbn [m_pos] in Hm. lia. }
    destruct Htail as [H1 H2].
    assert (H1' : Forall (fun m => (m_pos st <= fst m)%nat)
        match m_rest st with
        | [] => []
        | _ :: _ =>
          allMatches r fuel
            (advance (snd (DecodeRuneInString (m_rest st))) st) (Some (m_pos fin))
        end).
    { eapply Forall_impl; [|exact H1]. intros m Hm. cbn beta in Hm. lia. }
    destruct (match prev with Some e => negb (a =? e)%nat | None => true end).
    + split.
      * constructor; [cbn; lia | exact H1'].
      * constructor; [exact H2|].
        eapply Forall_impl; [|exact H1]. intros m Hm. cbn beta in Hm. cbn [snd]. lia.
    + split; assumption.
  - assert (Hw : within s (MState (m_pos fin) (m_rest fin) [])).
    { destruct Hfin as [Ha Hb]. split; assumption. }
    destruct (IH _ (Some (m_pos fin)) Hw) as [H1 H2]. cbn [m_pos] in H1.
    split.
    + constructor; [cbn; lia|].
      eapply Forall_impl; [|exact H1]. intros m Hm. cbn beta in Hm. lia.
    + constructor; [exact H2|]. exact H1.
Qed.

Lemma StronglySorted_map_iff (A B : Type) (R : B -> B -> Prop) (f : A -> B) (l : list A) :
  StronglySorted (fun x y => R (f x) (f y)) l -> StronglySorted R (map f l).
Proof.
  induction 1 as [|x l Hs IH Hf]; cbn [map]; constructor; [assumption|].
  apply Forall_map. exact Hf.
Qed.

Lemma ScanLine_nil_iff (s : SecretScanner) filePath lineNum content :
  ScanLine s filePath lineNum content = [] <->
  forall rule, In rule (rules s) ->
    MatchString (SecretRule.Pattern rule) content = false.
Proof.
  rewrite ScanLine_findAll. split.
  - intros H rule Hin.
    apply findAll_nil_iff.
    destruct (findAll (SecretRule.Pattern rule) content) as [|m l] eqn:E;
      [reflexivity|].
    assert (Hf : In (finding_of rule filePath lineNum content m)
                   (flat_map
                      (fun rule =>
                         map (finding_of rule filePath lineNum content)
                           (findAll (SecretRule.Pattern rule) content))
                      (rules s))).
    { apply in_flat_map. exists rule. split; [assumption|]. rewrite E. now left. }
    rewrite H in Hf. destruct Hf.
  - intros H. induction (rules s) as [|rule l IH]; [reflexivity|].
    cbn [flat_map].
    assert (E : findAll (SecretRule.Pattern rule) content = []).
    { apply findAll_nil_iff, H. now left. }
    rewrite E. cbn [map app]. apply IH. intros r Hr. apply H. now right.
Qed.

Lemma ScanLine_reports (s : SecretScanner) filePath lineNum content :
  forall rule, In rule (rules s) ->
    MatchString (SecretRule.Pattern rule) content = true ->
    exists f, In f (ScanLine s filePath lineNum content) /\
      Finding.RuleID f = SecretRule.ID rule.
Proof.
  rewrite ScanLine_findAll. intros rule Hin HM.
  destruct (findAll (SecretRule.Pattern rule) content) as [|m l] eqn:E.
  - apply findAll_nil_iff in E. congruence.
  - exists (finding_of rule filePath lineNum content m). split; [|reflexivity].
    apply in_flat_map. exists rule. split; [assumption|].
    rewrite E. now left.
Qed.

(** X2.  Every finding carries the arguments of the call and the fields of a
    rule of the scanner whose pattern matches the content; a rule whose
    pattern matches is reported; nothing is reported exactly when no pattern
    matches; the findings number the matches of all the patterns. *)
Theorem ScanLine_reports_matching_rules (s : SecretScanner) (filePath : gostring)
    (lineNum : Z) (content : gostring) :
  Forall
    (fun f =>
       Finding.FilePath f = filePath /\ Finding.LineNum f = lineNum /\
       Finding.Content f = content /\
       exists rule, In rule (rules s) /\
         MatchString (SecretRule.Pattern rule) content = true /\
         Finding.RuleID f = SecretRule.ID rule /\
         Finding.RuleName f = SecretRule.Name rule /\
         Finding.Description f = SecretRule.Description rule /\
         Finding.Advice f = SecretRule.Advice rule)
    (ScanLine s filePath lineNum content)
  /\
  (forall rule, In rule (rules s) ->
     MatchString (SecretRule.Pattern rule) content = true ->
     exists f, In f (ScanLine s filePath lineNum content) /\
       Finding.RuleID f = SecretRule.ID rule)
  /\
  (ScanLine s filePath lineNum content = [] <->
   forall rule, In rule (rules s) ->
     MatchString (SecretRule.Pattern rule) content = false)
  /\
  length (ScanLine s filePath lineNum content) =
    list_sum
      (map (fun rule => length (FindAllStringIndex (SecretRule.Pattern rule) content))
         (rules s)).
Proof.
  split; [|split; [|split]].
  - rewrite ScanLine_findAll.
    apply Forall_flat_map, Forall_forall. intros rule Hin.
    apply Forall_map, Forall_forall. intros m Hm. cbn.
    repeat split. exists rule. repeat split; try assumption.
    destruct (MatchString (SecretRule.Pattern rule) content) eqn:E; [reflexivity|].
    apply findAll_nil_iff in E. rewrite E in Hm. destruct Hm.
  - apply ScanLine_reports.
  - apply ScanLine_nil_iff.
  - rewrite ScanLine_findAll.
    induction (rules s) as [|rule l IH]; [reflexivity|].
    cbn [flat_map map list_sum]. rewrite length_app, IH.
    unfold FindAllStringIndex. rewrite !length_map. reflexivity.
Qed.

(** X3.  The findings are grouped by rule, in the order of the rules; those of
    one rule go from left to right and do not overlap. *)
Theorem ScanLine_matches_ordered (s : SecretScanner) (filePath : gostring)
    (lineNum : Z) (content : gostring) :
  ScanLine s filePath lineNum content =
    flat_map (fun rule => ScanLine {| rules := [rule] |} filePath lineNum content)
      (rules s)
  /\
  forall rule,
    StronglySorted (fun f g => Finding.EndPos f <= Finding.StartPos g)
      (ScanLine {| rules := [rule] |} filePath lineNum content).
Proof.
  split.
  - rewrite ScanLine_findAll. apply flat_map_ext. intros rule.
    rewrite ScanLine_findAll. cbn [rules flat_map]. now rewrite app_nil_r.
  - intros rule. rewrite ScanLine_findAll. cbn [rules flat_map].
    rewrite app_nil_r. apply StronglySorted_map_iff.
    assert (Hw : within content (start_state content)).
    { split; [cbn; lia | reflexivity]. }
    destruct (allMatches_sorted content (SecretRule.Pattern rule)
                (S (length content)) (start_state content) None Hw) as [_ H].
    fold (findAll (SecretRule.Pattern rule) content) in H.
    induction H as [|m l Hs IH Hf]; constructor; [exact IH|].
    eapply Forall_impl; [|exact Hf]. intros m' Hm'. cbn beta in Hm'.
    cbn [finding_of Finding.EndPos Finding.StartPos]. lia.
Qed.

(** X4.  ScanLines is the concatenation of the scans of the lines; a batch is
    clean exactly when no line matches a pattern. *)
Theorem ScanLines_clean_iff (s : SecretScanner) (lines1 lines2 : list DiffLine) :
  ScanLines s (lines1 ++ lines2) = ScanLines s lines1 ++ ScanLines s lines2 /\
  (forall f, In f (ScanLines s lines1) <->
     exists line, In line lines1 /\
       In f (ScanLine s (DiffLine.FilePath line) (DiffLine.LineNum line)
               (DiffLine.Content line))) /\
  (ScanLines s lines1 = [] <->
   forall line rule, In line lines1 -> In rule (rules s) ->
     MatchString (SecretRule.Pattern rule) (DiffLine.Content line) = false).
Proof.
  unfold ScanLines. repeat split.
  - apply flat_map_app.
  - intros H. apply in_flat_map in H. exact H.
  - intros H. apply in_flat_map. exact H.
  - intros H line rule Hl Hr.
    assert (E : ScanLine s (DiffLine.FilePath line) (DiffLine.LineNum line)
                  (DiffLine.Content line) = []).
    { destruct (ScanLine s (DiffLine.FilePath line) (DiffLine.LineNum line)
                  (DiffLine.Content line)) as [|f l] eqn:E; [reflexivity|].
      assert (Hf : In f (flat_map
                (fun line => ScanLine s (DiffLine.FilePath line)
                               (DiffLine.LineNum line) (DiffLine.Content line)) lines1)).
      { apply in_flat_map. exists line. split; [assumption|]. rewrite E. now left. }
      rewrite H in Hf. destruct Hf. }
    apply (proj1 (ScanLine_nil_iff s (DiffLine.FilePath line)
                    (DiffLine.LineNum line) (DiffLine.Content line))); assumption.
  - intros H. induction lines1 as [|line l IH]; [reflexivity|].
    cbn [flat_map].
    rewrite (proj2 (ScanLine_nil_iff s (DiffLine.FilePath line)
                      (DiffLine.LineNum line) (DiffLine.Content line)));
      [|intros rule Hr; apply H; [now left | assumption]].
    apply IH. intros line' rule Hl Hr. apply H; [now right | assumption].
Qed.

(** ** rules.go: loadDefaultRules *)

Lemma loadDefaultRules_fold (rows : list rule_source) :
  forall s,
    rules
      (fold_left
         (fun (s : SecretScanner) (rule : rule_source) =>
            match Compile (pattern rule) with
            | None => s
            | Some compiled =>
              {| rules := rules s ++
                   [ {| SecretRule.ID := id rule;
                        SecretRule.Name := name rule;
                        SecretRule.Pattern := compiled;
                        SecretRule.Description := description rule;
                        SecretRule.Advice := advice rule |} ] |}
            end) rows s)
    = rules s ++
      flat_map
        (fun rule =>
           match Compile (pattern rule) with
           | None => []
           | Some compiled =>
             [ {| SecretRule.ID := id rule;
                  SecretRule.Name := name rule;
                  SecretRule.Pattern := compiled;
                  SecretRule.Description := description rule;
                  SecretRule.Advice := advice rule |} ]
           end) rows.
Proof.
  induction rows as [|row rows IH]; intros s; cbn [fold_left flat_map].
  - now rewrite app_nil_r.
  - rewrite IH. destruct (Compile (pattern row)); cbn [rules app].
    + now rewrite <- app_assoc.
    + reflexivity.
Qed.

(** X1.  LoadDefaultRules skips no row of its table: it appends, after the
    rules the scanner holds, one rule per row in the order of the table, with
    the compiled pattern of the row. *)
Theorem loadDefaultRules_appends_every_row (s : SecretScanner) :
  rules (loadDefaultRules s) = rules s ++ rules NewSecretScanner /\
  map (fun rule => (SecretRule.ID rule, SecretRule.Name rule,
                    Some (SecretRule.Pattern rule),
                    SecretRule.Description rule, SecretRule.Advice rule))
      (rules NewSecretScanner)
  = map (fun row => (id row, name row, Compile (pattern row),
                     description row, advice row))
      default_rule_sources.
Proof.
  split.
  - unfold NewSecretScanner, loadDefaultRules.
    rewrite !loadDefaultRules_fold. reflexivity.
  - vm_compute. reflexivity.
Qed.

(** ** Classes of ASCII bytes *)

Lemma in_ranges_high (ranges : list (Z * Z)) (x : Z) :
  Forall (fun lh => snd lh < RuneSelf) ranges -> RuneSelf <= x ->
  in_ranges x ranges = false.
Proof.
  intros H Hx. unfold in_ranges. induction H as [|[lo hi] l Hh _ IH];
    cbn [existsb fst snd] in *; [reflexivity|].
  rewrite IH, orb_false_r. unfold between.
  apply andb_false_iff. right. apply Z.leb_gt. lia.
Qed.

Lemma ends_ascii_class (ranges : list (Z * Z)) (st : mstate) :
  Forall (fun lh => snd lh < RuneSelf) ranges ->
  ends (CharClass false ranges) st =
    match m_rest st with
    | c :: _ => if byte_in ranges c then [advance 1 st] else []
    | [] => []
    end.
Proof.
  intros H. cbn [ends]. destruct (m_rest st) as [|c t]; [reflexivity|].
  unfold class_matches, byte_in. cbn [xorb].
  destruct (byteZ c <? RuneSelf) eqn:A.
  - apply Z.ltb_lt in A. now rewrite DecodeRune_ascii.
  - apply Z.ltb_ge in A.
    pose proof (DecodeRune_high c t A) as Hh.
    destruct (DecodeRuneInString (c :: t)) as [x w]. cbn [fst] in Hh.
    now rewrite !in_ranges_high.
Qed.

Lemma span_len_le (ranges : list (Z * Z)) (s : gostring) :
  (span_len ranges s <= length s)%nat.
Proof.
  induction s as [|c s IH]; cbn [span_len length]; [lia|].
  destruct (byte_in ranges c); lia.
Qed.

Lemma span_len_firstn (ranges : list (Z * Z)) (s : gostring) :
  Forall (fun c => byte_in ranges c = true) (firstn (span_len ranges s) s).
Proof.
  induction s as [|c s IH]; cbn [span_len]; [constructor|].
  destruct (byte_in ranges c) eqn:B; cbn [firstn]; constructor; assumption.
Qed.

Lemma span_len_stop (ranges : list (Z * Z)) (s : gostring) (b : ascii) :
  nth_error s (span_len ranges s) = Some b -> byte_in ranges b = false.
Proof.
  induction s as [|c s IH]; cbn [span_len]; [discriminate|].
  destruct (byte_in ranges c) eqn:B; cbn [nth_error].
  - exact IH.
  - now intros [= <-].
Qed.

Lemma span_len_app (ranges : list (Z * Z)) (key rest : gostring) :
  Forall (fun c => byte_in ranges c = true) key ->
  (length key <= span_len ranges (key ++ rest))%nat.
Proof.
  induction 1 as [|c key Hc _ IH]; cbn [app span_len length]; [lia|].
  rewrite Hc. lia.
Qed.

(** [n] mandatory bytes of the class. *)
Lemma ends_times_class (ranges : list (Z * Z)) (tail : mstate -> list mstate) :
  Forall (fun lh => snd lh < RuneSelf) ranges ->
  forall n st,
    ends_times (ends (CharClass false ranges)) n tail st =
      if (n <=? span_len ranges (m_rest st))%nat
      then tail (MState (m_pos st + n) (skipn n (m_rest st)) (m_caps st))
      else [].
Proof.
  intros H. induction n as [|n IH]; intros st; cbn [ends_times].
  - cbn [Nat.leb skipn]. rewrite Nat.add_0_r. now destruct st.
  - rewrite ends_ascii_class by assumption.
    destruct (m_rest st) as [|c t] eqn:R; cbn [span_len]; [reflexivity|].
    destruct (byte_in ranges c); [|reflexivity].
    cbn [flat_map]. rewrite app_nil_r, IH.
    unfold advance; cbn [m_pos m_rest m_caps]. rewrite R. cbn [skipn Nat.leb].
    now replace (m_pos st + 1 + n)%nat with (m_pos st + S n)%nat by lia.
Qed.

(** The greedy star of the class takes the whole run first. *)
Lemma first_class_star (ranges : list (Z * Z)) :
  Forall (fun lh => snd lh < RuneSelf) ranges ->
  forall fuel st, (span_len ranges (m_rest st) <= fuel)%nat ->
    hd_error (ends_star (ends (CharClass false ranges)) true fuel st)
    = Some (MState (m_pos st + span_len ranges (m_rest st))
              (skipn (span_len ranges (m_rest st)) (m_rest st)) (m_caps st)).
Proof.
  intros H. induction fuel as [|fuel IH]; intros st Hf; cbn [ends_star].
  - assert (E : span_len ranges (m_rest st) = 0%nat) by lia.
    rewrite E, Nat.add_0_r. now destruct st.
  - rewrite ends_ascii_class by assumption.
    destruct (m_rest st) as [|c t] eqn:R; cbn [span_len] in *.
    + cbn [flat_map app hd_error skipn]. rewrite Nat.add_0_r, <- R. now destruct st.
    + destruct (byte_in ranges c).
      * cbn [flat_map]. rewrite app_nil_r. unfold advance at 1. cbn [m_pos].
        destruct (m_pos st <? m_pos st + 1)%nat eqn:P;
          [|apply Nat.ltb_ge in P; lia].
        apply hd_error_app. rewrite IH;
          unfold advance; cbn [m_pos m_rest m_caps]; rewrite R; cbn [skipn];
          [|lia].
        do 2 f_equal. lia.
      * cbn [flat_map app hd_error skipn]. rewrite Nat.add_0_r, <- R.
        now destruct st.
Qed.

Lemma map_byte_of_Z_byteZ (s : gostring) : map byte_of_Z (map byteZ s) = s.
Proof.
  induction s as [|c s IH]; cbn [map]; [reflexivity|].
  now rewrite byte_of_Z_byteZ, IH.
Qed.

Lemma HasPrefix_app_true (p t : gostring) : HasPrefix (p ++ t) p = true.
Proof.
  induction p as [|c p IH]; cbn [app HasPrefix]; [reflexivity|].
  now rewrite Ascii.eqb_refl, IH.
Qed.

Lemma HasPrefix_skipn (p s : gostring) :
  HasPrefix s p = true -> s = p ++ skipn (length p) s.
Proof.
  intros H. destruct (HasPrefix_inv _ _ H) as [t ->].
  now rewrite skipn_app, skipn_all, Nat.sub_diag.
Qed.

Lemma ends_Concat (a b : regex) (st : mstate) :
  ends (Concat a b) st = flat_map (ends b) (ends a st).
Proof. reflexivity. Qed.

Lemma ends_Repeat (min : nat) (max : option nat) (greedy : bool) (a : regex)
    (st : mstate) :
  ends (Repeat min max greedy a) st =
    ends_times (ends a) min
      (fun st1 =>
         match max with
         | None => ends_star (ends a) greedy (S (length (m_rest st1))) st1
         | Some m => ends_upto (ends a) greedy (m - min) st1
         end) st.
Proof. reflexivity. Qed.

Lemma span_len_skipn (ranges : list (Z * Z)) (n : nat) :
  forall s, (n <= span_len ranges s)%nat ->
    span_len ranges (skipn n s) = (span_len ranges s - n)%nat.
Proof.
  induction n as [|n IH]; intros s Hn; cbn [skipn]; [lia|].
  destruct s as [|c t]; cbn [span_len] in *; [lia|].
  destruct (byte_in ranges c); [|lia].
  rewrite IH by lia. lia.
Qed.

(** A chain of literal ASCII bytes in front of [r]. *)
Lemma ends_literals (cs : gostring) (r : regex) :
  Forall (fun c => byteZ c < RuneSelf) cs ->
  forall st,
    ends (literals (map byteZ cs) r) st =
      if HasPrefix (m_rest st) cs
      then ends r (MState (m_pos st + length cs) (skipn (length cs) (m_rest st))
                     (m_caps st))
      else [].
Proof.
  induction 1 as [|c cs Hc _ IH]; intros st;
    cbn [map literals fold_right HasPrefix length skipn].
  - rewrite Nat.add_0_r. now destruct st.
  - change (fold_right (fun c r => Concat (CharClass false [(c, c)]) r) r (map byteZ cs))
      with (literals (map byteZ cs) r).
    rewrite ends_Concat.
    rewrite ends_ascii_class by (repeat constructor; exact Hc).
    destruct (m_rest st) as [|d t] eqn:R; [reflexivity|].
    unfold byte_in, in_ranges, between. cbn [existsb fst snd].
    rewrite orb_false_r.
    destruct (Ascii.eqb d c) eqn:E.
    + apply Ascii.eqb_eq in E. subst d. rewrite !Z.leb_refl.
      cbn [andb flat_map]. rewrite app_nil_r, IH.
      unfold advance; cbn [m_pos m_rest m_caps]. rewrite R. cbn [skipn].
      now replace (m_pos st + 1 + length cs)%nat with (m_pos st + S (length cs))%nat
        by lia.
    + destruct ((byteZ c <=? byteZ d) && (byteZ d <=? byteZ c)) eqn:B;
        [|reflexivity].
      apply andb_true_iff in B as [B1 B2]. apply Z.leb_le in B1, B2.
      assert (d = c) by (apply byteZ_inj; lia). subst d.
      now rewrite Ascii.eqb_refl in E.
Qed.

(** What one execution of a token pattern finds. *)
Lemma exec_token_pattern (prefix : gostring) (n : nat) (more : bool) (st : mstate) :
  Forall (fun c => byteZ c < RuneSelf) prefix ->
  let after := skipn (length prefix) (m_rest st) in
  let k := span_len alnum_ranges after in
  exec (token_pattern prefix n more) st =
    if HasPrefix (m_rest st) prefix && (n <=? k)%nat
    then
      let len := if more then k else n in
      Some (MState (m_pos st + length prefix + len) (skipn len after) [])
    else None.
Proof.
  intros Hp after k. rewrite exec_hd. unfold token_pattern.
  rewrite ends_literals by assumption. cbn [m_rest m_pos m_caps].
  destruct (HasPrefix (m_rest st) prefix); [|reflexivity]. cbn [andb].
  fold after. rewrite ends_Repeat.
  assert (Ha : Forall (fun lh : Z * Z => snd lh < RuneSelf) alnum_ranges).
  { repeat constructor. }
  rewrite ends_times_class by assumption. cbn [m_rest m_pos m_caps]. fold k.
  destruct (n <=? k)%nat eqn:N; [|reflexivity]. apply Nat.leb_le in N.
  destruct more.
  - rewrite first_class_star by (assumption || (cbn [m_rest];
      pose proof (span_len_le alnum_ranges (skipn n after)); lia)).
    cbn [m_rest m_pos m_caps].
    rewrite span_len_skipn by exact N. fold k.
    rewrite skipn_skipn. do 2 f_equal; [lia|]. f_equal. lia.
  - rewrite Nat.sub_diag. cbn [ends_upto hd_error]. reflexivity.
Qed.

(** ** Where the search looks and what it returns *)

Lemma exec_caps (r : regex) (st : mstate) :
  exec r st = exec r (MState (m_pos st) (m_rest st) []).
Proof. reflexivity. Qed.

Lemma search_exec s r fuel :
  forall st a fin, within s st -> search r fuel st = Some (a, fin) ->
    exec r (MState a (skipn a s) []) = Some fin.
Proof.
  induction fuel as [|fuel IH]; intros st a fin Hst; cbn [search];
    destruct (exec r st) as [e|] eqn:E.
  - intros [= <- <-]. rewrite exec_caps in E. destruct Hst as [_ R].
    now rewrite R in E.
  - destruct (m_rest st); discriminate.
  - intros [= <- <-]. rewrite exec_caps in E. destruct Hst as [_ R].
    now rewrite R in E.
  - destruct (m_rest st) as [|c t] eqn:R; [discriminate|].
    intros H.
    assert (Hne : m_rest st <> []) by (rewrite R; discriminate).
    pose proof (within_advance _ _ Hst Hne) as Hadv. rewrite R in Hadv.
    exact (IH _ _ _ Hadv H).
Qed.

Lemma allMatches_exec s r fuel :
  forall st prev, within s st ->
    Forall (fun m => exec r (MState (fst m) (skipn (fst m) s) []) = Some (snd m))
      (allMatches r fuel st prev).
Proof.
  induction fuel as [|fuel IH]; intros st prev Hst; cbn [allMatches];
    [constructor|].
  destruct (search r (length (m_rest st)) st) as [[a fin]|] eqn:E; [|constructor].
  pose proof (search_exec _ _ _ _ _ _ Hst E) as Hx.
  destruct (search_within _ _ _ _ _ _ Hst E) as [Hfin Hle].
  destruct (m_pos fin =? m_pos st)%nat.
  - assert (Htail :
      Forall (fun m => exec r (MState (fst m) (skipn (fst m) s) []) = Some (snd m))
        match m_rest st with
        | [] => []
        | _ :: _ =>
          allMatches r fuel
            (advance (snd (DecodeRuneInString (m_rest st))) st) (Some (m_pos fin))
        end).
    { destruct (m_rest st) as [|c t] eqn:R; [constructor|].
      apply IH. rewrite <- R. apply within_advance; [assumption|].
      rewrite R; discriminate. }
    destruct (match prev with Some e => negb (a =? e)%nat | None => true end);
      [constructor|]; assumption.
  - constructor; [assumption|]. apply IH.
    destruct Hfin as [H1 H2]. split; assumption.
Qed.

Lemma findAll_exec (r : regex) (s : gostring) :
  Forall (fun m => exec r (MState (fst m) (skipn (fst m) s) []) = Some (snd m))
    (findAll r s).
Proof.
  apply allMatches_exec. split; [cbn; lia | reflexivity].
Qed.

(** The search tries every offset at which an ASCII byte stands. *)
Lemma search_finds (r : regex) (a : ascii) (t : gostring) :
  byteZ a < RuneSelf ->
  forall n pre st fuel,
    (length pre <= n)%nat -> (length pre <= fuel)%nat ->
    m_rest st = pre ++ a :: t ->
    exec r (MState (m_pos st + length pre) (a :: t) []) <> None ->
    search r fuel st <> None.
Proof.
  intros Ha. induction n as [|n IH]; intros pre st fuel Hn Hf R Hx.
  - destruct pre; [|cbn in Hn; lia]. cbn [app length] in *.
    rewrite Nat.add_0_r, <- R, <- exec_caps in Hx.
    destruct fuel; cbn [search]; destruct (exec r st); congruence.
  - destruct pre as [|c pre].
    + cbn [app length] in *.
      rewrite Nat.add_0_r, <- R, <- exec_caps in Hx.
      destruct fuel; cbn [search]; destruct (exec r st); congruence.
    + destruct fuel as [|fuel]; [cbn in Hf; lia|]. cbn [search].
      destruct (exec r st); [discriminate|]. rewrite R. cbn [app].
      change (c :: pre ++ a :: t) with ((c :: pre) ++ a :: t).
      pose proof (DecodeRune_boundary (c :: pre) a t ltac:(discriminate) Ha) as Hb.
      pose proof (DecodeRune_width ((c :: pre) ++ a :: t) ltac:(discriminate)) as Hw.
      set (w := snd (DecodeRuneInString ((c :: pre) ++ a :: t))) in *.
      apply (IH (skipn w (c :: pre))).
      * rewrite length_skipn. cbn [length] in *. lia.
      * rewrite length_skipn. cbn [length] in *. lia.
      * unfold advance. cbn [m_rest]. rewrite R.
        change (c :: pre ++ a :: t) with ((c :: pre) ++ a :: t).
        rewrite skipn_app.
        replace (w - length (c :: pre))%nat with 0%nat by lia. reflexivity.
      * unfold advance. cbn [m_pos]. rewrite length_skipn.
        replace (m_pos st + w + (length (c :: pre) - w))%nat
          with (m_pos st + length (c :: pre))%nat by lia.
        exact Hx.
Qed.

Lemma MatchString_finds (r : regex) (pre : gostring) (a : ascii) (t : gostring) :
  byteZ a < RuneSelf ->
  exec r (MState (length pre) (a :: t) []) <> None ->
  MatchString r (pre ++ a :: t) = true.
Proof.
  intros Ha Hx. unfold MatchString.
  pose proof (search_finds r a t Ha (length pre) pre (start_state (pre ++ a :: t))
                (length (pre ++ a :: t)) (Nat.le_refl _)) as H.
  destruct (search r (length (pre ++ a :: t)) (start_state (pre ++ a :: t)));
    [reflexivity|].
  exfalso. apply H; [rewrite length_app; lia | reflexivity | exact Hx | reflexivity].
Qed.

(** ** rules.go: the token rules *)

Lemma token_rule_patterns (id prefix : gostring) (n : nat) (more : bool) :
  In (id, prefix, n, more) token_rules ->
  prefix <> [] /\
  Forall (fun c => byteZ c < RuneSelf) prefix /\
  (exists rule, In rule (rules NewSecretScanner) /\ SecretRule.ID rule = id /\
     SecretRule.Pattern rule = token_pattern prefix n more) /\
  (forall rule, In rule (rules NewSecretScanner) -> SecretRule.ID rule = id ->
     SecretRule.Pattern rule = token_pattern prefix n more).
Proof.
  intros H. cbn [token_rules In] in H.
  assert (D : SecretRule.t).
  { exact (SecretRule.Make [] [] EmptyMatch [] []). }
  destruct H as [H|[H|[H|[H|[]]]]]; injection H as <- <- <- <-;
    (split; [discriminate|]);
    (split; [repeat constructor|]);
    (split;
     [| intros rule Hin Hid; vm_compute in Hin;
        repeat (destruct Hin as [<-|Hin]; [try discriminate Hid; reflexivity|]);
        destruct Hin]).
  - exists (nth 0 (rules NewSecretScanner) D).
    split; [apply nth_In; vm_compute; lia | split; reflexivity].
  - exists (nth 1 (rules NewSecretScanner) D).
    split; [apply nth_In; vm_compute; lia | split; reflexivity].
  - exists (nth 4 (rules NewSecretScanner) D).
    split; [apply nth_In; vm_compute; lia | split; reflexivity].
  - exists (nth 5 (rules NewSecretScanner) D).
    split; [apply nth_In; vm_compute; lia | split; reflexivity].
Qed.

Lemma span_len_all (ranges : list (Z * Z)) (n : nat) (s : gostring) :
  (n <= span_len ranges s)%nat ->
  Forall (fun c => byte_in ranges c = true) (firstn n s).
Proof.
  revert s. induction n as [|n IH]; intros s Hn; cbn [firstn]; [constructor|].
  destruct s as [|c t]; cbn [span_len] in *; [lia|].
  destruct (byte_in ranges c) eqn:B; [|lia].
  constructor; [assumption|]. apply IH. lia.
Qed.

(** X5.  A line that holds the prefix of a token rule followed by enough
    letters or digits is reported under that rule, whatever stands before
    and after. *)
Theorem token_rules_detect (id prefix : gostring) (n : nat) (more : bool)
    (filePath : gostring) (lineNum : Z) (pre key post : gostring) :
  In (id, prefix, n, more) token_rules ->
  Forall (fun c => is_alnum c = true) key -> (n <= length key)%nat ->
  exists f,
    In f (ScanLine NewSecretScanner filePath lineNum (pre ++ prefix ++ key ++ post)) /\
    Finding.RuleID f = id.
Proof.
  intros Hin Hkey Hn.
  destruct (token_rule_patterns _ _ _ _ Hin) as [Hne [Hp [[rule [Hr [Hid Hpat]]] _]]].
  destruct (ScanLine_reports NewSecretScanner filePath lineNum
              (pre ++ prefix ++ key ++ post) rule Hr) as [f [Hf Hfid]].
  - rewrite Hpat. destruct prefix as [|a p]; [congruence|].
    cbn [app]. apply MatchString_finds.
    + now inversion Hp.
    + change (a :: p ++ key ++ post) with ((a :: p) ++ key ++ post).
      rewrite exec_token_pattern by assumption. cbn [m_rest m_pos].
      rewrite HasPrefix_app_true, skipn_app, skipn_all, Nat.sub_diag.
      cbn [app skipn andb].
      pose proof (span_len_app alnum_ranges key post Hkey) as Hs.
      destruct (n <=? span_len alnum_ranges (key ++ post))%nat eqn:N;
        [discriminate|]. apply Nat.leb_gt in N. lia.
  - exists f. split; [assumption | congruence].
Qed.

Lemma token_rules_detect_witness :
  exists f,
    In f (ScanLine NewSecretScanner (str "config.py") 3
            (str "token = '" ++ str "ghp_" ++ str "0123456789abcdefghijklmnopqrstuvwxyz"
             ++ str "'")) /\
    Finding.RuleID f = str "GITHUB_PAT".
Proof.
  apply (token_rules_detect (str "GITHUB_PAT") (str "ghp_") 36 false).
  - cbn. tauto.
  - repeat constructor.
  - cbn. lia.
Defined.

(** X6.  A finding of a token rule is the prefix of the rule followed by
    letters and digits only: exactly the count of the rule, or for the rule
    that allows more the whole run of them, at least the count. *)
Theorem token_rules_shape (id prefix : gostring) (n : nat) (more : bool)
    (filePath : gostring) (lineNum : Z) (content : gostring) (f : Finding) :
  In (id, prefix, n, more) token_rules ->
  In f (ScanLine NewSecretScanner filePath lineNum content) ->
  Finding.RuleID f = id ->
  exists key,
    Finding.Match f = prefix ++ key /\
    Forall (fun c => is_alnum c = true) key /\
    if more
    then (n <= length key)%nat /\
         forall b, nth_error content (Z.to_nat (Finding.EndPos f)) = Some b ->
                   is_alnum b = false
    else length key = n.
Proof.
  intros Hin Hf Hid.
  destruct (token_rule_patterns _ _ _ _ Hin) as [Hne [Hp [_ Hpat]]].
  rewrite ScanLine_findAll in Hf. apply in_flat_map in Hf as [rule [Hr Hf]].
  apply in_map_iff in Hf as [m [<- Hm]].
  cbn [finding_of Finding.RuleID Finding.Match Finding.EndPos] in *.
  specialize (Hpat rule Hr Hid).
  pose proof (findAll_exec (SecretRule.Pattern rule) content) as Hx.
  pose proof (findAll_within (SecretRule.Pattern rule) content) as Hw.
  rewrite Forall_forall in Hx, Hw. specialize (Hx m Hm). specialize (Hw m Hm).
  destruct m as [a fin]. cbn [fst snd] in *.
  rewrite Hpat, exec_token_pattern in Hx by assumption. cbn [m_rest m_pos] in Hx.
  set (after := skipn (length prefix) (skipn a content)) in *.
  set (k := span_len alnum_ranges after) in *.
  destruct (HasPrefix (skipn a content) prefix) eqn:HP; [|discriminate].
  destruct (n <=? k)%nat eqn:N; [|discriminate]. apply Nat.leb_le in N.
  cbn [andb] in Hx. injection Hx as <-. cbn [m_pos] in *.
  apply HasPrefix_skipn in HP. fold after in HP.
  set (len := if more then k else n) in *.
  assert (Hlen : (len <= k)%nat) by (subst len; destruct more; lia).
  pose proof (span_len_le alnum_ranges after) as Hk. fold k in Hk.
  exists (firstn len after). split; [|split].
  - unfold slice.
    replace (a + length prefix + len - a)%nat with (length prefix + len)%nat by lia.
    rewrite HP, firstn_app_2. reflexivity.
  - apply span_len_all. fold k. exact Hlen.
  - rewrite length_firstn. subst len. destruct more.
    + split; [lia|]. intros b Hb. rewrite Nat2Z.id in Hb.
      apply (span_len_stop alnum_ranges after). fold k.
      rewrite <- Hb. unfold after. rewrite !nth_error_skipn. f_equal. lia.
    + lia.
Qed.

Lemma token_rules_shape_witness :
  In (finding_of (nth 0 (rules NewSecretScanner) (SecretRule.Make [] [] EmptyMatch [] []))
        (str "a.env") 1 (str "API_KEY=sk-abc123def456ghi789jklmno;")
        (8%nat, MState 35 (str ";") []))
     (ScanLine NewSecretScanner (str "a.env") 1 (str "API_KEY=sk-abc123def456ghi789jklmno;")) /\
  exists key,
    str "sk-abc123def456ghi789jklmno" = str "sk-" ++ key /\
    Forall (fun c => is_alnum c = true) key /\
    (20 <= length key)%nat /\
    forall b, nth_error (str "API_KEY=sk-abc123def456ghi789jklmno;") 35 = Some b ->
              is_alnum b = false.
Proof.
  assert (Hf : In (finding_of (nth 0 (rules NewSecretScanner)
                                 (SecretRule.Make [] [] EmptyMatch [] []))
                     (str "a.env") 1 (str "API_KEY=sk-abc123def456ghi789jklmno;")
                     (8%nat, MState 35 (str ";") []))
                  (ScanLine NewSecretScanner (str "a.env") 1
                     (str "API_KEY=sk-abc123def456ghi789jklmno;"))).
  { vm_compute. left. reflexivity. }
  split; [exact Hf|].
  exact (token_rules_shape (str "OPENAI_API_KEY") (str "sk-") 20 true
           (str "a.env") 1 (str "API_KEY=sk-abc123def456ghi789jklmno;") _
           ltac:(cbn; tauto) Hf eq_refl).
Defined.

(** ** differ.go: the two header patterns, read as grammars *)

Lemma search_anchored (r : regex) (s : gostring) :
  search (Concat BeginText r) (length s) (start_state s) =
    option_map (fun fin => (0%nat, fin)) (hd_error (ends r (start_state s))).
Proof.
  assert (E : exec (Concat BeginText r) (start_state s)
              = hd_error (ends r (start_state s))).
  { rewrite exec_hd, ends_Concat. cbn [start_state m_pos m_rest ends Nat.eqb flat_map].
    now rewrite app_nil_r. }
  destruct (length s) as [|fuel]; cbn [search]; rewrite E;
    destruct (hd_error (ends r (start_state s))) as [fin|]; try reflexivity.
  - cbn [start_state m_rest]. now destruct s.
  - cbn [start_state m_rest option_map]. destruct s as [|c t]; [reflexivity|].
    apply search_begin_later. unfold advance. cbn [m_pos].
    pose proof (DecodeRune_width (c :: t) ltac:(discriminate)). lia.
Qed.

Lemma fileHeaderRegex_parsed :
  fileHeaderRegex =
    Concat BeginText
      (literals (map byteZ (str "+++ b/"))
         (Concat (Capture 1 (Repeat 1 None true dot)) EndText)).
Proof. vm_compute. reflexivity. Qed.

(** The greedy star of the dot runs to the end of a text without newline. *)
Lemma first_dotstar_all :
  forall n st fuel,
    (length (m_rest st) <= n)%nat -> (length (m_rest st) <= fuel)%nat ->
    ~ In newline (m_rest st) ->
    hd_error (ends_star (ends dot) true fuel st)
    = Some (MState (m_pos st + length (m_rest st)) [] (m_caps st)).
Proof.
  induction n as [|n IH]; intros st fuel Hn Hf Hnl.
  - destruct (m_rest st) as [|c t] eqn:R; [|cbn in Hn; lia].
    cbn [length]. rewrite Nat.add_0_r.
    destruct fuel; cbn [ends_star]; [now destruct st; cbn in R; subst|].
    rewrite ends_dot, R. cbn [flat_map app hd_error].
    destruct st; cbn in R; now subst.
  - destruct (m_rest st) as [|c t] eqn:R.
    + cbn [length]. rewrite Nat.add_0_r.
      destruct fuel; cbn [ends_star]; [now destruct st; cbn in R; subst|].
      rewrite ends_dot, R. cbn [flat_map app hd_error].
      destruct st; cbn in R; now subst.
    + destruct fuel as [|fuel]; [cbn in Hf; lia|]. cbn [ends_star].
      rewrite ends_dot, R.
      assert (Hc : c <> newline) by (intros ->; apply Hnl; now left).
      pose proof (DecodeRune_not_newline c t Hc) as Hd.
      apply Z.eqb_neq in Hd. rewrite Hd. cbn [flat_map]. rewrite app_nil_r.
      pose proof (DecodeRune_width (c :: t) ltac:(discriminate)) as Hw.
      set (w := snd (DecodeRuneInString (c :: t))) in *.
      unfold advance at 1. cbn [m_pos].
      destruct (m_pos st <? m_pos st + w)%nat eqn:P;
        [|apply Nat.ltb_ge in P; lia].
      apply hd_error_app. rewrite IH; unfold advance; cbn [m_pos m_rest m_caps];
        rewrite ?R, ?length_skipn; cbn [length] in *; try lia.
      * do 2 f_equal. lia.
      * intros Hin. apply Hnl. right.
        destruct w as [|w]; [lia|]. cbn [skipn] in Hin.
        eapply In_skipn_in. exact Hin.
Qed.

Lemma dotplus_sound (st x : mstate) :
  In x (ends (Repeat 1 None true dot) st) ->
  exists w, w <> [] /\ ~ In newline w /\ m_rest st = w ++ m_rest x /\
            m_pos x = (m_pos st + length w)%nat /\ m_caps x = m_caps st.
Proof.
  rewrite ends_Repeat. cbn [ends_times]. intros H.
  apply in_flat_map in H as [st1 [H1 H]].
  rewrite ends_dot in H1.
  destruct (m_rest st) as [|c t] eqn:R; [contradiction|].
  destruct (fst (DecodeRuneInString (c :: t)) =? 10) eqn:E; [contradiction|].
  apply Z.eqb_neq in E. destruct H1 as [<-|[]].
  destruct (dotstar_sound _ _ _ H) as [w [Hw [Hr [Hp Hc]]]].
  pose proof (DecodeRune_width (c :: t) ltac:(discriminate)) as Hd.
  set (d := snd (DecodeRuneInString (c :: t))) in *.
  unfold advance in Hr, Hp, Hc. cbn [m_rest m_pos m_caps] in Hr, Hp, Hc.
  rewrite R in Hr.
  exists (firstn d (c :: t) ++ w). repeat split.
  - destruct d as [|d]; [lia|]. discriminate.
  - intros Hin. apply in_app_or in Hin as [Hin|Hin]; [|contradiction].
    revert Hin. apply DecodeRune_no_newline; [discriminate | exact E].
  - rewrite <- app_assoc, <- Hr. symmetry. apply firstn_skipn.
  - rewrite Hp, length_app, length_firstn. lia.
  - exact Hc.
Qed.

Lemma first_dotplus (st : mstate) :
  m_rest st <> [] -> ~ In newline (m_rest st) ->
  hd_error (ends (Repeat 1 None true dot) st)
  = Some (MState (m_pos st + length (m_rest st)) [] (m_caps st)).
Proof.
  intros Hne Hnl. rewrite ends_Repeat. cbn [ends_times]. rewrite ends_dot.
  destruct (m_rest st) as [|c t] eqn:R; [congruence|].
  assert (Hc : c <> newline) by (intros ->; apply Hnl; now left).
  pose proof (DecodeRune_not_newline c t Hc) as Hd.
  apply Z.eqb_neq in Hd. rewrite Hd. cbn [flat_map]. rewrite app_nil_r.
  pose proof (DecodeRune_width (c :: t) ltac:(discriminate)) as Hw.
  set (w := snd (DecodeRuneInString (c :: t))) in *.
  rewrite (first_dotstar_all (length (c :: t))); unfold advance;
    cbn [m_pos m_rest m_caps]; rewrite ?R, ?length_skipn; cbn [length] in *;
    try lia.
  - do 2 f_equal. lia.
  - intros Hin. apply Hnl. right.
    destruct w as [|w]; [lia|]. cbn [skipn] in Hin.
    eapply In_skipn_in. exact Hin.
Qed.

Lemma slice_all (s : gostring) : slice s 0 (length s) = s.
Proof. unfold slice. rewrite Nat.sub_0_r. cbn [skipn]. apply firstn_all. Qed.

Lemma slice_suffix (p s : gostring) :
  slice (p ++ s) (length p) (length p + length s) = s.
Proof.
  unfold slice. rewrite skipn_app, skipn_all, Nat.sub_diag. cbn [app skipn].
  replace (length p + length s - length p)%nat with (length s) by lia.
  apply firstn_all.
Qed.

(** What the file-header pattern finds in a line of the form it is meant
    for. *)
Lemma file_header_line_submatch (P : gostring) :
  P <> [] -> ~ In newline P ->
  FindStringSubmatch fileHeaderRegex (file_header_line P)
  = Some [file_header_line P; P].
Proof.
  intros Hne Hnl. unfold FindStringSubmatch.
  rewrite fileHeaderRegex_parsed, search_anchored.
  rewrite ends_literals by (repeat constructor).
  unfold file_header_line. cbn [start_state m_rest m_pos m_caps].
  rewrite HasPrefix_app_true, skipn_app, skipn_all, Nat.sub_diag.
  cbn [app skipn length Nat.add].
  rewrite (first_Concat _ _ _
             (set_cap 1 6 (MState (6 + length P) [] []))
             (set_cap 1 6 (MState (6 + length P) [] []))).
  - cbn [option_map]. unfold submatches. cbn [fst snd set_cap m_pos m_caps].
    replace (NumSubexp _) with 1%nat by reflexivity.
    cbn [seq map lookup_cap Nat.eqb].
    change (6 + length P)%nat with (length (str "+++ b/") + length P)%nat.
    rewrite <- length_app, slice_all.
    change 6%nat with (length (str "+++ b/")) at 1.
    rewrite length_app, slice_suffix. reflexivity.
  - apply (first_Capture 1 _ (MState 6 P [])).
    now rewrite first_dotplus.
  - reflexivity.
Qed.

(** Whatever the file-header pattern matches has that form. *)
Lemma file_header_match_sound (line : gostring) (m : list gostring) :
  FindStringSubmatch fileHeaderRegex line = Some m ->
  exists P, P <> [] /\ ~ In newline P /\ line = file_header_line P.
Proof.
  unfold FindStringSubmatch.
  rewrite fileHeaderRegex_parsed, search_anchored.
  rewrite ends_literals by (repeat constructor).
  cbn [start_state m_rest m_pos m_caps].
  destruct (HasPrefix line (str "+++ b/")) eqn:HP; [|discriminate].
  apply HasPrefix_skipn in HP.
  destruct (hd_error _) as [fin|] eqn:E; [|discriminate]. intros _.
  assert (Hin : In fin (ends (Concat (Capture 1 (Repeat 1 None true dot)) EndText)
                          (MState (0 + length (str "+++ b/"))
                             (skipn (length (str "+++ b/")) line) []))).
  { destruct (ends _ _); [discriminate|]. injection E as ->. now left. }
  rewrite ends_Concat in Hin. apply in_flat_map in Hin as [x [Hx Hfin]].
  change (ends (Capture 1 (Repeat 1 None true dot)) ?st)
    with (map (set_cap 1 (m_pos st)) (ends (Repeat 1 None true dot) st)) in Hx.
  apply in_map_iff in Hx as [y [<- Hy]].
  apply dotplus_sound in Hy as [w [Hw [Hnl [Hr _]]]].
  cbn [ends set_cap m_rest] in Hfin.
  destruct (m_rest y); [|contradiction].
  cbn [m_rest] in Hr. rewrite app_nil_r in Hr.
  exists w. repeat split; try assumption.
  unfold file_header_line. rewrite <- Hr. exact HP.
Qed.

Lemma digitstar_sound (fuel : nat) :
  forall st x,
    In x (ends_star (ends digit) true fuel st) ->
    exists ds, Forall (fun c => is_digit c = true) ds /\ m_rest st = ds ++ m_rest x.
Proof.
  induction fuel as [|fuel IH]; intros st x; cbn [ends_star].
  - intros [<-|[]]. exists []. split; [constructor | reflexivity].
  - intros H. apply in_app_or in H as [H|[<-|[]]].
    2:{ exists []. split; [constructor | reflexivity]. }
    apply in_flat_map in H as [st1 [H1 H]].
    rewrite ends_digit in H1.
    destruct (m_rest st) as [|c t] eqn:R; [contradiction|].
    destruct (is_digit c) eqn:D; [|contradiction].
    destruct H1 as [<-|[]].
    destruct (m_pos st <? _)%nat; [|contradiction].
    destruct (IH _ _ H) as [ds [Hds Hr]].
    unfold advance in Hr. cbn [m_rest] in Hr. rewrite R in Hr. cbn [skipn] in Hr.
    exists (c :: ds). split; [now constructor|]. cbn [app]. now rewrite Hr.
Qed.

Lemma digits1_sound (st x : mstate) :
  In x (ends digits1 st) ->
  exists ds, all_digits ds /\ m_rest st = ds ++ m_rest x.
Proof.
  unfold digits1. rewrite ends_Repeat. cbn [ends_times]. intros H.
  apply in_flat_map in H as [st1 [H1 H]].
  rewrite ends_digit in H1.
  destruct (m_rest st) as [|c t] eqn:R; [contradiction|].
  destruct (is_digit c) eqn:D; [|contradiction].
  destruct H1 as [<-|[]].
  destruct (digitstar_sound _ _ _ H) as [ds [Hds Hr]].
  unfold advance in Hr. cbn [m_rest] in Hr. rewrite R in Hr. cbn [skipn] in Hr.
  exists (c :: ds). split; [split; [discriminate | now constructor]|].
  cbn [app]. now rewrite Hr.
Qed.

Lemma optcount_sound (st x : mstate) :
  In x (ends optcount st) ->
  exists o, count_suffix o /\ m_rest st = o ++ m_rest x.
Proof.
  unfold optcount. rewrite ends_optional. intros H.
  apply in_app_or in H as [H|[<-|[]]].
  2:{ exists []. split; [now left | reflexivity]. }
  apply in_flat_map in H as [y [Hy [<-|[]]]].
  rewrite ends_Concat in Hy. apply in_flat_map in Hy as [z [Hz Hy]].
  rewrite (ends_ascii_class [(44, 44)]) in Hz by (repeat constructor).
  destruct (m_rest st) as [|c t] eqn:R; [contradiction|].
  destruct (byte_in [(44, 44)] c) eqn:B; [|contradiction].
  destruct Hz as [<-|[]].
  assert (c = ","%char).
  { unfold byte_in, in_ranges, between in B. cbn [existsb fst snd] in B.
    rewrite orb_false_r in B. apply andb_true_iff in B as [B1 B2].
    apply Z.leb_le in B1, B2. apply byteZ_inj.
    change (byteZ ","%char) with 44. lia. }
  subst c.
  apply digits1_sound in Hy as [ds [Hds Hr]].
  unfold advance in Hr. cbn [m_rest] in Hr. rewrite R in Hr. cbn [skipn] in Hr.
  exists (","%char :: ds). split; [right; now exists ds|].
  cbn [app]. now rewrite Hr.
Qed.

(** Whatever the hunk-header pattern matches is a well-formed hunk header,
    and the first submatch is its new-start. *)
Lemma hunk_header_match_sound (line : gostring) (m : list gostring) :
  FindStringSubmatch hunkHeaderRegex line = Some m ->
  exists a o1 n o2 tail whole,
    all_digits a /\ count_suffix o1 /\ all_digits n /\ count_suffix o2 /\
    line = hunk_header_line a o1 n o2 tail /\ m = [whole; n].
Proof.
  intros Hm.
  assert (Hd : exists a o1 n o2 tail,
             all_digits a /\ count_suffix o1 /\ all_digits n /\ count_suffix o2 /\
             line = hunk_header_line a o1 n o2 tail).
  { revert Hm. unfold FindStringSubmatch.
    rewrite hunkHeaderRegex_parsed, search_anchored.
    change [64; 64; 32; 45] with (map byteZ (str "@@ -")).
    change [32; 43] with (map byteZ (str " +")).
    change [32; 64] with (map byteZ (str " @")).
    rewrite ends_literals by (repeat constructor).
    cbn [start_state m_rest m_pos m_caps].
    destruct (HasPrefix line (str "@@ -")) eqn:HP; [|discriminate].
    apply HasPrefix_skipn in HP.
    destruct (hd_error _) as [fin|] eqn:E; [|discriminate]. intros _.
    match type of E with hd_error ?l = _ => assert (Hin : In fin l) end.
    { destruct (ends _ _); [discriminate|]. injection E as ->. now left. }
    clear E.
    rewrite ends_Concat in Hin. apply in_flat_map in Hin as [x1 [H1 Hin]].
    apply digits1_sound in H1 as [a [Ha R1]]. cbn [m_rest] in R1.
    rewrite ends_Concat in Hin. apply in_flat_map in Hin as [x2 [H2 Hin]].
    apply optcount_sound in H2 as [o1 [Ho1 R2]].
    rewrite ends_literals in Hin by (repeat constructor).
    destruct (HasPrefix (m_rest x2) (str " +")) eqn:HP3; [|contradiction].
    apply HasPrefix_skipn in HP3.
    rewrite ends_Concat in Hin. apply in_flat_map in Hin as [x4 [H4 Hin]].
    change (ends (Capture 1 digits1) ?st)
      with (map (set_cap 1 (m_pos st)) (ends digits1 st)) in H4.
    apply in_map_iff in H4 as [y [<- Hy]].
    apply digits1_sound in Hy as [n [Hn R4]]. cbn [m_rest] in R4.
    rewrite ends_Concat in Hin. apply in_flat_map in Hin as [x5 [H5 Hin]].
    apply optcount_sound in H5 as [o2 [Ho2 R5]]. cbn [set_cap m_rest] in R5.
    rewrite ends_literals in Hin by (repeat constructor).
    destruct (HasPrefix (m_rest x5) (str " @")) eqn:HP6; [|contradiction].
    apply HasPrefix_skipn in HP6.
    rewrite (ends_ascii_class [(64, 64)]) in Hin by (repeat constructor).
    cbn [m_rest] in Hin.
    destruct (skipn (length (str " @")) (m_rest x5)) as [|c tail] eqn:R6;
      [contradiction|].
    destruct (byte_in [(64, 64)] c) eqn:B; [|contradiction].
    assert (c = "@"%char).
    { unfold byte_in, in_ranges, between in B. cbn [existsb fst snd] in B.
      rewrite orb_false_r in B. apply andb_true_iff in B as [B1 B2].
      apply Z.leb_le in B1, B2. apply byteZ_inj.
      change (byteZ "@"%char) with 64. lia. }
    subst c.
    exists a, o1, n, o2, tail. repeat split; try assumption; try apply Ha;
      try apply Hn.
    unfold hunk_header_line.
    rewrite HP, R1, R2, HP3, R4, R5, HP6. reflexivity. }
  destruct Hd as [a [o1 [n [o2 [tail [Ha [Ho1 [Hn [Ho2 Hl]]]]]]]]].
  destruct (hunk_header_line_submatch a o1 n o2 tail Ha Ho1 Hn Ho2) as [whole Hw].
  exists a, o1, n, o2, tail, whole. repeat split; try assumption;
    try apply Ha; try apply Hn.
  rewrite <- Hl in Hw. congruence.
Qed.

(** ** differ.go: what a line does to the state of the loop *)

Lemma Atoi_overflow (n : gostring) :
  all_digits n -> MaxInt64 < decimal 0 n -> Atoi n = inl ErrRange.
Proof.
  intros [Hne Hds] Hmax. unfold Atoi.
  destruct n as [|d ds]; [congruence|].
  inversion Hds as [|? ? Hd _]; subst.
  assert (Hm : (d =? "-")%char = false).
  { apply Ascii.eqb_neq. intros ->. discriminate Hd. }
  assert (Hp : (d =? "+")%char = false).
  { apply Ascii.eqb_neq. intros ->. discriminate Hd. }
  rewrite Hm, Hp.
  assert (F : forallb is_digit (d :: ds) = true).
  { apply forallb_forall. rewrite Forall_forall in Hds. exact Hds. }
  rewrite F. unfold between.
  destruct (decimal 0 (d :: ds) <=? MaxInt64) eqn:L2;
    [apply Z.leb_le in L2; lia|].
  now rewrite andb_false_r.
Qed.

Lemma hunk_header_line_not_file_header (a o1 n o2 tail : gostring) :
  FindStringSubmatch fileHeaderRegex (hunk_header_line a o1 n o2 tail) = None.
Proof.
  destruct (FindStringSubmatch fileHeaderRegex _) as [m|] eqn:E; [|reflexivity].
  assert (F : is_file_header (hunk_header_line a o1 n o2 tail) = true).
  { unfold is_file_header. now rewrite E. }
  apply file_header_prefix in F. discriminate F.
Qed.

(** The loop fails on a line exactly when the line is a hunk header whose
    new-start is beyond the range of [int]. *)
Lemma parseLine_error_iff (p : parser) (line : gostring) (err : error) :
  parseLine p line = inl err <->
  exceeds_int line /\ err = Errorf (str "failed to parse line number: ") ErrRange.
Proof.
  split.
  - unfold parseLine.
    destruct (FindStringSubmatch fileHeaderRegex line); [discriminate|].
    destruct (FindStringSubmatch hunkHeaderRegex line) as [m|] eqn:E.
    + destruct (hunk_header_match_sound _ _ E)
        as [a [o1 [n [o2 [tail [whole [Ha [Ho1 [Hn [Ho2 [Hl ->]]]]]]]]]]].
      cbn [submatch nth].
      destruct (Z_le_gt_dec (decimal 0 n) MaxInt64) as [Hle|Hgt].
      * now rewrite Atoi_digits.
      * rewrite Atoi_overflow by (assumption || lia). intros [= <-].
        split; [|reflexivity].
        exists a, o1, n, o2, tail. repeat split; try assumption;
          try apply Ha; try apply Hn. lia.
    + destruct (_ && _); [discriminate|]. destruct (HasPrefix _ _); discriminate.
  - intros [[a [o1 [n [o2 [tail [Ha [Ho1 [Hn [Ho2 [-> Hgt]]]]]]]]]] ->].
    unfold parseLine. rewrite hunk_header_line_not_file_header.
    destruct (hunk_header_line_submatch a o1 n o2 tail Ha Ho1 Hn Ho2) as [whole ->].
    cbn [submatch nth]. now rewrite Atoi_overflow.
Qed.

Lemma parseLines_error_iff (tokens : list gostring) :
  forall p,
    (exists err, parseLines p tokens = inl err) <-> Exists exceeds_int tokens.
Proof.
  induction tokens as [|line tokens IH]; intros p; cbn [parseLines].
  - split; [intros [err H]; discriminate | intros H; inversion H].
  - destruct (parseLine p line) as [e|p'] eqn:E.
    + apply parseLine_error_iff in E as [E _].
      split; [intros _; now left | intros _; now exists e].
    + rewrite IH. split; [intros H; now right|].
      intros H. inversion H as [? ? Hx|]; subst; [|assumption].
      exfalso.
      assert (Hp : parseLine p line
                   = inl (Errorf (str "failed to parse line number: ") ErrRange)).
      { apply parseLine_error_iff. now split. }
      congruence.
Qed.

Lemma parseLines_error_value (tokens : list gostring) :
  forall p err, parseLines p tokens = inl err ->
    err = Errorf (str "failed to parse line number: ") ErrRange.
Proof.
  induction tokens as [|line tokens IH]; intros p err; cbn [parseLines];
    [discriminate|].
  destruct (parseLine p line) as [e|p'] eqn:E.
  - intros [= <-]. now apply parseLine_error_iff in E.
  - apply IH.
Qed.

Lemma scan_tokens_error (raw : list gostring) :
  (snd (scan_tokens raw) = None <->
   Forall (fun l => Z.of_nat (length l) < MaxScanTokenSize) raw) /\
  (forall err, snd (scan_tokens raw) = Some err -> err = ErrTooLong).
Proof.
  induction raw as [|l raw [IH1 IH2]]; cbn [scan_tokens].
  - split; [split; [constructor | reflexivity] | discriminate].
  - destruct (MaxScanTokenSize <=? Z.of_nat (length l)) eqn:L.
    + apply Z.leb_le in L. split.
      * split; [discriminate|]. intros H. inversion H; subst. lia.
      * now intros err [= <-].
    + apply Z.leb_gt in L. destruct (scan_tokens raw) as [toks e].
      cbn [snd] in *. split; [|exact IH2].
      rewrite IH1. split; [intros H; now constructor|].
      intros H. now inversion H.
Qed.

(** X8.  ParseDiff fails in two cases only, a line of 65536 bytes or more and
    a hunk header whose new-start exceeds the range of int, and in both it
    returns no record. *)
Theorem parseDiff_failures (diffOutput : gostring) :
  (snd (parseDiff diffOutput) = None <->
   Forall (fun l => Z.of_nat (length l) < MaxScanTokenSize) (raw_lines diffOutput []) /\
   Forall (fun l => ~ exceeds_int l) (fst (Scanner diffOutput)))
  /\
  (forall err, snd (parseDiff diffOutput) = Some err ->
     fst (parseDiff diffOutput) = [] /\
     (err = Errorf (str "failed to parse line number: ") ErrRange \/
      err = Errorf (str "error reading diff output: ") ErrTooLong)).
Proof.
  unfold parseDiff, Scanner.
  destruct (scan_tokens_error (raw_lines diffOutput [])) as [S1 S2].
  destruct (scan_tokens (raw_lines diffOutput [])) as [tokens scanErr].
  cbn [fst snd] in *.
  pose proof (parseLines_error_iff tokens parser_init) as HE.
  rewrite <- S1.
  destruct (parseLines parser_init tokens) as [e|p] eqn:E; cbn [fst snd].
  - split.
    + split; [discriminate|]. intros [_ H]. exfalso.
      assert (Hx : Exists exceeds_int tokens) by (apply HE; now exists e).
      apply Exists_exists in Hx as [l [Hl Hx]].
      rewrite Forall_forall in H. exact (H l Hl Hx).
    + intros err [= <-]. split; [reflexivity|]. left.
      exact (parseLines_error_value _ _ _ E).
  - destruct scanErr as [se|]; cbn [fst snd].
    + split; [split; [discriminate | intros [H _]; discriminate]|].
      intros err [= <-]. split; [reflexivity|]. right.
      now rewrite (S2 se eq_refl).
    + split; [|discriminate]. split; [|reflexivity].
      intros _. split; [reflexivity|].
      apply Forall_forall. intros l Hl Hx.
      assert (Hex : Exists exceeds_int tokens).
      { apply Exists_exists. now exists l. }
      apply HE in Hex as [err Herr]. discriminate.
Qed.

Lemma HasPrefix_trans (s p q : gostring) :
  HasPrefix s (p ++ q) = true -> HasPrefix s p = true.
Proof.
  intros H. apply HasPrefix_inv in H as [t ->]. rewrite <- app_assoc.
  apply HasPrefix_app_true.
Qed.

Lemma parseLine_no_effect (p : parser) (line : gostring) :
  has_effect line = false -> parseLine p line = inr p.
Proof.
  unfold has_effect. intros H.
  apply orb_false_iff in H as [H H3]. apply orb_false_iff in H as [H1 H2].
  unfold parseLine.
  destruct (FindStringSubmatch fileHeaderRegex line) as [m|] eqn:E.
  { assert (F : is_file_header line = true) by (unfold is_file_header; now rewrite E).
    apply file_header_prefix in F.
    apply (HasPrefix_trans line (str "+") (str "++ b/")) in F. congruence. }
  destruct (FindStringSubmatch hunkHeaderRegex line) as [m|] eqn:E2.
  { apply hunk_header_prefix in E2. congruence. }
  rewrite H1, H2. reflexivity.
Qed.

(** A line that has no effect, or an effect, keeps it when the scanner
    drops its carriage return. *)
Lemma HasPrefix_snoc_CR (prefix : gostring) :
  ~ In carriage_return prefix ->
  forall x, prefix <> [] ->
    HasPrefix (x ++ [carriage_return]) prefix = HasPrefix x prefix.
Proof.
  induction prefix as [|c prefix IH]; intros Hin x Hne; [congruence|].
  destruct x as [|d x]; cbn [app HasPrefix].
  - destruct (carriage_return =? c)%char eqn:E; [|reflexivity].
    apply Ascii.eqb_eq in E. exfalso. apply Hin. now left.
  - destruct prefix as [|c' prefix'].
    + now destruct x.
    + f_equal. apply IH; [|discriminate].
      intros H. apply Hin. now right.
Qed.

Lemma has_effect_dropCR (l : gostring) : has_effect (dropCR l) = has_effect l.
Proof.
  unfold dropCR. destruct (rev l) as [|c r] eqn:R; [reflexivity|].
  destruct (c =? carriage_return)%char eqn:E; [|reflexivity].
  apply Ascii.eqb_eq in E. subst c.
  assert (L : l = rev r ++ [carriage_return]).
  { rewrite <- (rev_involutive l), R. reflexivity. }
  rewrite L. unfold has_effect.
  rewrite !HasPrefix_snoc_CR; try discriminate; try reflexivity;
    cbn; intros H; repeat (destruct H as [H|H]; [discriminate H|]); exact H.
Qed.

Lemma scan_tokens_short (raw : list gostring) :
  Forall (fun l => Z.of_nat (length l) < MaxScanTokenSize) raw ->
  scan_tokens raw = (map dropCR raw, None).
Proof.
  intros H. induction H as [|l raw Hl _ IH]; cbn [scan_tokens map]; [reflexivity|].
  destruct (MaxScanTokenSize <=? Z.of_nat (length l)) eqn:L;
    [apply Z.leb_le in L; lia|].
  now rewrite IH.
Qed.

Lemma parseLines_filter_has_effect (tokens : list gostring) :
  forall p, parseLines p (filter has_effect tokens) = parseLines p tokens.
Proof.
  induction tokens as [|line tokens IH]; intros p; cbn [filter]; [reflexivity|].
  destruct (has_effect line) eqn:H; cbn [parseLines].
  - destruct (parseLine p line); [reflexivity | apply IH].
  - rewrite parseLine_no_effect by exact H. apply IH.
Qed.

Lemma map_filter_dropCR (raw : list gostring) :
  map dropCR (filter has_effect raw) = filter has_effect (map dropCR raw).
Proof.
  induction raw as [|l raw IH]; cbn [filter map]; [reflexivity|].
  rewrite has_effect_dropCR. destruct (has_effect l); cbn [map]; now rewrite IH.
Qed.

(** X9.  Only the lines that begin with a plus sign, a space or the opening
    of a hunk header act on the result of parseDiff: in a diff text whose
    lines are all shorter than 65536 bytes, the other lines, the removed
    lines among them, can be left out without changing what parseDiff
    returns. *)
Theorem parseDiff_other_lines_ignored (diffOutput kept : gostring) :
  Forall (fun l => Z.of_nat (length l) < MaxScanTokenSize) (raw_lines diffOutput []) ->
  raw_lines kept [] = filter has_effect (raw_lines diffOutput []) ->
  parseDiff kept = parseDiff diffOutput.
Proof.
  intros Hshort Hkept. unfold parseDiff, Scanner. rewrite Hkept.
  assert (Hshort' : Forall (fun l => Z.of_nat (length l) < MaxScanTokenSize)
                      (filter has_effect (raw_lines diffOutput []))).
  { apply Forall_forall. intros l Hl. apply filter_In in Hl as [Hl _].
    rewrite Forall_forall in Hshort. now apply Hshort. }
  rewrite (scan_tokens_short _ Hshort), (scan_tokens_short _ Hshort').
  rewrite map_filter_dropCR, parseLines_filter_has_effect. reflexivity.
Qed.

Lemma parseDiff_other_lines_ignored_witness :
  parseDiff (str "+++ b/f.go" ++ [newline] ++ str "@@ -3 +3 @@" ++ [newline]
             ++ str "+new" ++ [newline])
  = parseDiff (str "diff --git a/f.go b/f.go" ++ [newline]
               ++ str "--- a/f.go" ++ [newline] ++ str "+++ b/f.go" ++ [newline]
               ++ str "@@ -3 +3 @@" ++ [newline] ++ str "-old" ++ [newline]
               ++ str "+new" ++ [newline]).
Proof.
  apply (parseDiff_other_lines_ignored
           (str "diff --git a/f.go b/f.go" ++ [newline]
            ++ str "--- a/f.go" ++ [newline] ++ str "+++ b/f.go" ++ [newline]
            ++ str "@@ -3 +3 @@" ++ [newline] ++ str "-old" ++ [newline]
            ++ str "+new" ++ [newline])
           (str "+++ b/f.go" ++ [newline] ++ str "@@ -3 +3 @@" ++ [newline]
            ++ str "+new" ++ [newline])).
  - repeat constructor.
  - vm_compute. reflexivity.
Defined.

Lemma parseLines_lines (tokens : list gostring) :
  forall p p', parseLines p tokens = inr p' ->
    exists new,
      lines p' = lines p ++ new /\
      map DiffLine.Content new = map (skipn 1) (filter is_added tokens) /\
      (Forall (fun l => is_file_header l = false) tokens ->
       currentFile p' = currentFile p /\
       Forall (fun d => DiffLine.FilePath d = currentFile p) new).
Proof.
  induction tokens as [|line tokens IH]; intros p p'; cbn [parseLines].
  - intros [= <-]. exists []. rewrite app_nil_r. repeat split. constructor.
  - destruct (parseLine p line) as [e|p1] eqn:E; [discriminate|]. intros H.
    destruct (parseLine_lines _ _ _ E) as [L1 F1].
    destruct (IH _ _ H) as [new [L [C F]]].
    exists ((if is_added line
             then [ {| DiffLine.FilePath := currentFile p;
                       DiffLine.LineNum := currentLineNum p;
                       DiffLine.Content := skipn 1 line |} ]
             else []) ++ new).
    split; [|split].
    + now rewrite L, L1, <- app_assoc.
    + cbn [filter]. destruct (is_added line); cbn [map app]; now rewrite C.
    + intros HF. inversion HF as [|? ? Hl Ht]; subst.
      destruct (F Ht) as [F2 F3]. rewrite (F1 Hl) in *. split; [exact F2|].
      apply Forall_app. split; [|exact F3].
      destruct (is_added line); repeat constructor.
Qed.

(** X10.  On success the records are the added lines in input order, each
    without its leading plus sign. *)
Theorem parseDiff_records_are_added_lines (diffOutput : gostring) :
  match parseDiff diffOutput with
  | (records, None) =>
    map DiffLine.Content records
    = map (skipn 1) (filter is_added (fst (Scanner diffOutput)))
  | (_, Some _) => True
  end.
Proof.
  unfold parseDiff. destruct (Scanner diffOutput) as [tokens scanErr]. cbn [fst].
  destruct (parseLines parser_init tokens) as [e|p] eqn:E; [exact I|].
  destruct scanErr; [exact I|].
  destruct (parseLines_lines _ _ _ E) as [new [L [C _]]].
  rewrite L. exact C.
Qed.

Lemma raw_lines_no_newline (s : gostring) :
  forall cur, ~ In newline cur ->
    Forall (fun l => ~ In newline l) (raw_lines s cur).
Proof.
  induction s as [|c s IH]; intros cur Hc; cbn [raw_lines].
  - destruct cur; constructor; [|constructor].
    intros H. apply in_rev in H. exact (Hc H).
  - destruct (c =? newline)%char eqn:E.
    + constructor.
      * intros H. apply in_rev in H. exact (Hc H).
      * apply IH. intros [].
    + apply IH. intros [H|H]; [|exact (Hc H)].
      apply Ascii.eqb_neq in E. congruence.
Qed.

Lemma dropCR_incl (l : gostring) (c : ascii) : In c (dropCR l) -> In c l.
Proof.
  unfold dropCR. destruct (rev l) as [|d r] eqn:R; [trivial|].
  destruct (d =? carriage_return)%char; [|trivial].
  intros H. apply in_rev in H. apply in_rev. rewrite R. now right.
Qed.

Lemma Scanner_no_newline (input : gostring) :
  Forall (fun l => ~ In newline l) (fst (Scanner input)).
Proof.
  unfold Scanner.
  pose proof (raw_lines_no_newline input [] (fun H => H)) as H.
  induction H as [|l raw Hl _ IH]; cbn [scan_tokens]; [constructor|].
  destruct (MaxScanTokenSize <=? Z.of_nat (length l)); [constructor|].
  destruct (scan_tokens raw) as [toks e]. cbn [fst] in *.
  constructor; [|exact IH].
  intros Hin. apply Hl. now apply dropCR_incl.
Qed.

(** X7.  The two header patterns accept exactly the lines of the intended form:
    a file header is [+++ b/] followed by a non-empty path, and its first
    submatch is the path; a hunk header begins
    [@@ -digits[,digits] +digits[,digits] @@], and its first submatch is the
    third run of digits. *)
Theorem header_patterns_grammar :
  (forall line m,
     FindStringSubmatch fileHeaderRegex line = Some m <->
     exists P, P <> [] /\ ~ In newline P /\
               line = file_header_line P /\ m = [line; P]) /\
  (forall line,
     (exists m, FindStringSubmatch hunkHeaderRegex line = Some m) <->
     exists a o1 n o2 tail,
       all_digits a /\ count_suffix o1 /\ all_digits n /\ count_suffix o2 /\
       line = hunk_header_line a o1 n o2 tail) /\
  (forall a o1 n o2 tail m,
     all_digits a -> count_suffix o1 -> all_digits n -> count_suffix o2 ->
     FindStringSubmatch hunkHeaderRegex (hunk_header_line a o1 n o2 tail) = Some m ->
     submatch m 1 = n).
Proof.
  split; [|split].
  - intros line m. split.
    + intros H. destruct (file_header_match_sound _ _ H) as [P [Hne [Hnl ->]]].
      exists P. split; [assumption|]. split; [assumption|]. split; [reflexivity|].
      rewrite file_header_line_submatch in H by assumption.
      injection H as <-. reflexivity.
    + intros [P [Hne [Hnl [-> ->]]]]. now apply file_header_line_submatch.
  - intros line. split.
    + intros [m H].
      destruct (hunk_header_match_sound _ _ H)
        as [a [o1 [n [o2 [tail [whole [Ha [Ho1 [Hn [Ho2 [Hl _]]]]]]]]]]].
      now exists a, o1, n, o2, tail.
    + intros [a [o1 [n [o2 [tail [Ha [Ho1 [Hn [Ho2 ->]]]]]]]]].
      destruct (hunk_header_line_submatch a o1 n o2 tail Ha Ho1 Hn Ho2) as [whole H].
      now exists [whole; n].
  - intros a o1 n o2 tail m Ha Ho1 Hn Ho2 H.
    destruct (hunk_header_line_submatch a o1 n o2 tail Ha Ho1 Hn Ho2) as [whole Hw].
    rewrite Hw in H. injection H as <-. reflexivity.
Qed.

Lemma parseLine_file_header (p : parser) (P : gostring) :
  P <> [] -> ~ In newline P ->
  parseLine p (file_header_line P)
  = inr {| currentFile := P; currentLineNum := currentLineNum p; lines := lines p |}.
Proof.
  intros Hne Hnl. unfold parseLine.
  now rewrite file_header_line_submatch.
Qed.

(** X11.  When parseDiff succeeds, the lines that follow a file header, up to
    the next file header, and that begin with [+] and not with [+++] are
    the ones recorded for that stretch, in order, each under the path of
    that header; a line there that begins with [+++] gives no record. *)
Theorem parseDiff_file_attribution (diffOutput : gostring) (pre : list gostring)
    (P : gostring) (body post : list gostring) (records : list DiffLine) :
  fst (Scanner diffOutput) = pre ++ file_header_line P :: body ++ post ->
  P <> [] ->
  Forall (fun l => is_file_header l = false) body ->
  parseDiff diffOutput = (records, None) ->
  exists before new after,
    records = before ++ new ++ after /\
    length before = length (filter is_added pre) /\
    map DiffLine.Content new = map (skipn 1) (filter is_added body) /\
    Forall (fun d => DiffLine.FilePath d = P) new.
Proof.
  intros Htok Hne Hbody Hparse.
  pose proof (Scanner_no_newline diffOutput) as Hnl.
  unfold parseDiff in Hparse.
  destruct (Scanner diffOutput) as [tokens scanErr]. cbn [fst] in *. subst tokens.
  destruct (parseLines parser_init _) as [e|pf] eqn:E; [discriminate|].
  destruct scanErr; [discriminate|]. injection Hparse as <-.
  rewrite parseLines_app in E.
  destruct (parseLines parser_init pre) as [e|p1] eqn:E1; [discriminate|].
  cbn [parseLines] in E.
  assert (HP : ~ In newline P).
  { apply Forall_app in Hnl as [_ Hnl]. inversion Hnl as [|? ? Hh _]; subst.
    intros Hin. apply Hh. unfold file_header_line. apply in_or_app. now right. }
  rewrite parseLine_file_header in E by assumption.
  rewrite parseLines_app in E.
  destruct (parseLines _ body) as [e|p3] eqn:E3; [discriminate|].
  destruct (parseLines_lines _ _ _ E1) as [before [L1 [C1 _]]].
  destruct (parseLines_lines _ _ _ E3) as [new [L3 [C3 F3]]].
  destruct (parseLines_lines _ _ _ E) as [after [L [_ _]]].
  cbn [lines currentFile] in *. destruct (F3 Hbody) as [_ F].
  exists before, new, after. repeat split.
  - rewrite L, L3, L1. cbn [parser_init lines app]. now rewrite <- app_assoc.
  - rewrite <- (length_map DiffLine.Content), C1, length_map. reflexivity.
  - exact C3.
  - exact F.
Qed.

Lemma parseDiff_file_attribution_witness :
  exists before new after,
    [ DiffLine.Make [] 0 (str "x"); DiffLine.Make (str "a.go") 3 (str "y");
      DiffLine.Make (str "a.go") 4 (str "+z"); DiffLine.Make (str "b.go") 1 (str "w") ]
    = before ++ new ++ after /\
    length before = 1%nat /\
    map DiffLine.Content new = [str "y"; str "+z"] /\
    Forall (fun d => DiffLine.FilePath d = str "a.go") new.
Proof.
  apply (parseDiff_file_attribution
           (str "+x" ++ [newline] ++ str "+++ b/a.go" ++ [newline]
            ++ str "@@ -2,0 +3,2 @@" ++ [newline] ++ str "+y" ++ [newline]
            ++ str "++z" ++ [newline] ++ str "+++ b/b.go" ++ [newline]
            ++ str "@@ -0,0 +1 @@" ++ [newline] ++ str "+w" ++ [newline])
           [str "+x"] (str "a.go")
           [str "@@ -2,0 +3,2 @@"; str "+y"; str "++z"]
           [str "+++ b/b.go"; str "@@ -0,0 +1 @@"; str "+w"]).
  - vm_compute. reflexivity.
  - discriminate.
  - repeat constructor.
  - vm_compute. reflexivity.
Defined.

(** ** ignore.go: AddPattern, LoadIgnoreFile and ShouldIgnore *)

Lemma AddPattern_compile_glob (ic : IgnoreChecker) (pattern : gostring) :
  match compile_glob pattern with
  | Some re =>
    AddPattern ic pattern =
      ({| patterns := patterns ic ++ [pattern]; regexes := regexes ic ++ [re] |}, None)
  | None =>
    fst (AddPattern ic pattern) = ic /\
    snd (AddPattern ic pattern) = snd (AddPattern NewIgnoreChecker pattern) /\
    snd (AddPattern ic pattern) <> None
  end.
Proof.
  unfold compile_glob, AddPattern.
  destruct (globToRegex pattern) as [e|rx]; [repeat split; discriminate|].
  destruct (Compile rx); [reflexivity | repeat split; discriminate].
Qed.

Lemma ShouldIgnore_app (p1 p2 : list gostring) (r1 r2 : list regex) (filePath : gostring) :
  ShouldIgnore {| patterns := p1 ++ p2; regexes := r1 ++ r2 |} filePath
  = ShouldIgnore {| patterns := p1; regexes := r1 |} filePath
    || ShouldIgnore {| patterns := p2; regexes := r2 |} filePath.
Proof. unfold ShouldIgnore. cbn [regexes]. apply existsb_app. Qed.

(** X12.  A successful AddPattern appends the pattern and its compiled form;
    the paths ignored afterwards are those ignored before and those the new
    pattern matches, as a whole path or as a base name. *)
Theorem AddPattern_success (ic ic' : IgnoreChecker) (pattern : gostring) :
  AddPattern ic pattern = (ic', None) ->
  exists re,
    compile_glob pattern = Some re /\
    GetPatterns ic' = GetPatterns ic ++ [pattern] /\
    regexes ic' = regexes ic ++ [re] /\
    forall filePath,
      ShouldIgnore ic' filePath =
        ShouldIgnore ic filePath
        || (MatchString re (ToSlash filePath)
            || MatchString re (Base (ToSlash filePath))).
Proof.
  intros H. pose proof (AddPattern_compile_glob ic pattern) as C.
  destruct (compile_glob pattern) as [re|].
  - rewrite C in H. injection H as <-. exists re. repeat split.
    intros filePath. unfold ShouldIgnore. cbn [regexes].
    rewrite existsb_app. cbn [existsb]. now rewrite orb_false_r.
  - destruct C as [_ [_ C]]. rewrite H in C. now cbn in C.
Qed.

Lemma AddPattern_success_witness :
  exists re,
    compile_glob (str "*.md") = Some re /\
    GetPatterns (fst (AddPattern NewIgnoreChecker (str "*.md")))
      = GetPatterns NewIgnoreChecker ++ [str "*.md"] /\
    regexes (fst (AddPattern NewIgnoreChecker (str "*.md")))
      = regexes NewIgnoreChecker ++ [re] /\
    forall filePath,
      ShouldIgnore (fst (AddPattern NewIgnoreChecker (str "*.md"))) filePath =
        ShouldIgnore NewIgnoreChecker filePath
        || (MatchString re (ToSlash filePath)
            || MatchString re (Base (ToSlash filePath))).
Proof.
  apply (AddPattern_success NewIgnoreChecker
           (fst (AddPattern NewIgnoreChecker (str "*.md"))) (str "*.md")).
  vm_compute. reflexivity.
Defined.

Lemma load_line_fold (tokens : list gostring) :
  forall ic ws,
    patterns (fst (fold_left load_line tokens (ic, ws)))
      = patterns ic ++ filter accepted (candidates tokens) /\
    regexes (fst (fold_left load_line tokens (ic, ws))) = regexes ic ++
      flat_map (fun line => match compile_glob line with
                            | Some re => [re]
                            | None => []
                            end) (candidates tokens) /\
    snd (fold_left load_line tokens (ic, ws)) = ws ++
      map (fun line => (line, match snd (AddPattern NewIgnoreChecker line) with
                              | Some err => err
                              | None => ErrRegexp
                              end))
        (filter (fun line => negb (accepted line)) (candidates tokens)).
Proof.
  induction tokens as [|token tokens IH]; intros ic ws;
    cbn [fold_left candidates flat_map].
  - cbn [filter flat_map map fst snd]. now rewrite !app_nil_r.
  - fold (candidates tokens). unfold load_line at 2 4 6. cbn [fst snd].
    destruct (pattern_of_line token) as [line|]; [|apply IH].
    pose proof (AddPattern_compile_glob ic line) as C.
    cbn [app filter flat_map].
    destruct (compile_glob line) as [re|] eqn:CG.
    + assert (A : accepted line = true) by (unfold accepted; now rewrite CG).
      rewrite A, C. cbn [negb]. specialize (IH
        {| patterns := patterns ic ++ [line]; regexes := regexes ic ++ [re] |} ws).
      cbn [patterns regexes] in IH.
      rewrite <- !app_assoc in IH. exact IH.
    + assert (A : accepted line = false) by (unfold accepted; now rewrite CG).
      rewrite A. destruct C as [C1 [C2 C3]].
      destruct (AddPattern ic line) as [ic1 [err|]] eqn:E; cbn [fst snd] in *;
        [|congruence].
      subst ic1. specialize (IH ic (ws ++ [(line, err)])).
      cbn [negb map app]. rewrite <- C2.
      rewrite <- app_assoc in IH. exact IH.
Qed.

(** X13.  For an ignore file whose patterns stay within the syntax of regexp
    that the model of Compile covers, LoadIgnoreFile adds, in the order of
    the file, the trimmed lines that are neither empty nor comments and
    that AddPattern accepts; it warns once for each line AddPattern rejects
    and goes on; what the checker held before stays in front. *)
Theorem LoadIgnoreFile_patterns (ic : IgnoreChecker) (f : opened_file) :
  let lines := candidates (fst (Scanner (file_bytes f))) in
  let result := LoadIgnoreFile ic (inr f) in
  Forall (fun line => within_model line = true) lines ->
  GetPatterns (fst (fst result)) = GetPatterns ic ++ filter accepted lines /\
  regexes (fst (fst result)) =
    regexes ic ++ regexes (fst (fst (LoadIgnoreFile NewIgnoreChecker (inr f)))) /\
  map fst (snd (fst result)) = filter (fun line => negb (accepted line)) lines /\
  Forall (fun w => snd (AddPattern NewIgnoreChecker (fst w)) = Some (snd w))
    (snd (fst result)) /\
  forall filePath,
    ShouldIgnore (fst (fst result)) filePath =
      ShouldIgnore ic filePath
      || ShouldIgnore (fst (fst (LoadIgnoreFile NewIgnoreChecker (inr f)))) filePath.
Proof.
  cbn zeta. intros _. unfold LoadIgnoreFile, ScannerFile, GetPatterns.
  destruct (Scanner (file_bytes f)) as [tokens scanErr]. cbn [fst].
  pose proof (load_line_fold tokens ic []) as H.
  pose proof (load_line_fold tokens NewIgnoreChecker []) as H0.
  destruct (fold_left load_line tokens (ic, [])) as [ic' ws].
  destruct (fold_left load_line tokens (NewIgnoreChecker, [])) as [ic0 ws0].
  cbn [fst snd NewIgnoreChecker patterns regexes app] in *.
  destruct H as [H1 [H2 H3]]. destruct H0 as [_ [H02 _]].
  split; [exact H1|]. split; [now rewrite H2, H02|]. split; [|split].
  - rewrite H3, map_map. cbn [fst]. apply map_id.
  - rewrite H3. apply Forall_map, Forall_forall. intros line Hl. cbn [fst snd].
    apply filter_In in Hl as [_ Hl]. unfold accepted in Hl.
    pose proof (AddPattern_compile_glob NewIgnoreChecker line) as C.
    destruct (compile_glob line); [discriminate|]. destruct C as [_ [_ C]].
    destruct (snd (AddPattern NewIgnoreChecker line)); congruence.
  - intros filePath. unfold ShouldIgnore. rewrite H2, H02. apply existsb_app.
Qed.

Lemma LoadIgnoreFile_patterns_witness :
  let f := {| file_bytes :=
                str "# documentation" ++ [newline] ++ str "  *.md " ++ [newline]
                ++ [newline] ++ str "[a-" ++ [newline] ++ str "build/" ++ [newline];
              file_read_error := None |} in
  let ic := fst (AddPattern NewIgnoreChecker (str "vendor/**")) in
  GetPatterns (fst (fst (LoadIgnoreFile ic (inr f))))
    = [str "vendor/**"; str "*.md"; str "build/"] /\
  map fst (snd (fst (LoadIgnoreFile ic (inr f)))) = [str "[a-"].
Proof.
  intros f ic.
  pose proof (LoadIgnoreFile_patterns ic f) as H. cbv zeta in H.
  assert (E : candidates (fst (Scanner (file_bytes f)))
              = [str "*.md"; str "[a-"; str "build/"]) by (vm_compute; reflexivity).
  assert (M : Forall (fun line => within_model line = true)
                (candidates (fst (Scanner (file_bytes f))))).
  { rewrite E. repeat (constructor; [vm_compute; reflexivity|]). constructor. }
  destruct (H M) as [H1 [_ [H3 _]]].
  split; [rewrite H1 | rewrite H3]; vm_compute; reflexivity.
Defined.

(** X14.  LoadIgnoreFile returns an error in two cases only: the file cannot be
    opened for a reason other than its absence, or reading it fails (a line
    of 65536 bytes or more, or an error of the file).  An absent file and a
    file that cannot be opened leave the checker as it was; a pattern that
    AddPattern rejects is no error. *)
Theorem LoadIgnoreFile_errors (ic : IgnoreChecker) :
  (forall err,
     LoadIgnoreFile ic (inl err) =
       (ic, [], if IsNotExist err then None else Some (FailedToOpen err))) /\
  (forall f,
     snd (LoadIgnoreFile ic (inr f)) = None <->
     Forall (fun l => Z.of_nat (length l) < MaxScanTokenSize)
       (raw_lines (file_bytes f) []) /\
     file_read_error f = None) /\
  (forall f,
     Exists (fun l => MaxScanTokenSize <= Z.of_nat (length l))
       (raw_lines (file_bytes f) []) ->
     snd (LoadIgnoreFile ic (inr f)) = Some (ErrorReading (inl ErrTooLong))).
Proof.
  split; [|split].
  - intros err. unfold LoadIgnoreFile. now destruct (IsNotExist err).
  - intros f. unfold LoadIgnoreFile, ScannerFile, Scanner.
    destruct (scan_tokens_error (raw_lines (file_bytes f) [])) as [S1 S2].
    destruct (scan_tokens (raw_lines (file_bytes f) [])) as [tokens scanErr].
    cbn [snd] in S1, S2. rewrite <- S1.
    destruct (fold_left load_line tokens (ic, [])) as [ic' ws]. cbn [snd].
    destruct scanErr as [e|]; cbn [option_map].
    + split; [discriminate | intros [H _]; discriminate].
    + destruct (file_read_error f); cbn [option_map].
      * split; [discriminate | intros [_ H]; discriminate].
      * split; auto.
  - intros f Hex. unfold LoadIgnoreFile, ScannerFile, Scanner.
    destruct (scan_tokens_error (raw_lines (file_bytes f) [])) as [S1 S2].
    destruct (scan_tokens (raw_lines (file_bytes f) [])) as [tokens scanErr].
    cbn [snd] in S1, S2.
    destruct (fold_left load_line tokens (ic, [])) as [ic' ws]. cbn [snd].
    destruct scanErr as [e|]; cbn [option_map].
    + now rewrite (S2 e eq_refl).
    + exfalso. apply Exists_exists in Hex as [l [Hl Hx]].
      pose proof (proj1 S1 eq_refl) as HF. rewrite Forall_forall in HF.
      specialize (HF l Hl). lia.
Qed.

(** X15.  The regex list of a checker built by NewIgnoreChecker, AddPattern and
    LoadIgnoreFile holds, entry by entry, the compiled forms of the patterns
    of the pattern list. *)
Theorem IgnoreChecker_invariant :
  well_formed NewIgnoreChecker /\
  (forall ic pattern, well_formed ic -> well_formed (fst (AddPattern ic pattern))) /\
  (forall ic opened,
     well_formed ic -> well_formed (fst (fst (LoadIgnoreFile ic opened)))) /\
  (forall ic, well_formed ic -> length (GetPatterns ic) = length (regexes ic)).
Proof.
  assert (HA : forall ic pattern,
             well_formed ic -> well_formed (fst (AddPattern ic pattern))).
  { intros ic pattern H. pose proof (AddPattern_compile_glob ic pattern) as C.
    destruct (compile_glob pattern) as [re|] eqn:E.
    - rewrite C. unfold well_formed. cbn [fst patterns regexes].
      apply Forall2_app; [exact H|]. now repeat constructor.
    - destruct C as [-> _]. exact H. }
  split; [constructor|]. split; [exact HA|]. split.
  - intros ic [err|f] H; unfold LoadIgnoreFile.
    + now destruct (IsNotExist err).
    + destruct (ScannerFile f) as [tokens scanErr].
      assert (G : forall st, well_formed (fst st) ->
                    well_formed (fst (fold_left load_line tokens st))).
      { induction tokens as [|token tokens IH]; intros st Hst; cbn [fold_left];
          [exact Hst|].
        apply IH. unfold load_line.
        destruct (pattern_of_line token) as [line|]; [|exact Hst].
        specialize (HA (fst st) line Hst).
        now destruct (AddPattern (fst st) line) as [ic1 [e|]]. }
      specialize (G (ic, []) H).
      now destruct (fold_left load_line tokens (ic, [])) as [ic' ws].
  - intros ic H. unfold GetPatterns. exact (Forall2_length H).
Qed.

(** ** ignore.go: globToRegex *)

Lemma skip_to_bracket_spec (t : gostring) :
  forall j,
    (j <= skip_to_bracket t j <= j + length t)%nat /\
    ((skip_to_bracket t j < j + length t)%nat ->
     nth_error t (skip_to_bracket t j - j) = Some "]"%char) /\
    (~ In "]"%char t -> skip_to_bracket t j = (j + length t)%nat).
Proof.
  induction t as [|c t IH]; intros j; cbn [skip_to_bracket length].
  - repeat split; intros; lia.
  - destruct (c =? "]")%char eqn:E.
    + apply Ascii.eqb_eq in E. subst c. repeat split; try lia.
      * intros _. now rewrite Nat.sub_diag.
      * intros H. exfalso. apply H. now left.
    + destruct (IH (S j)) as [H1 [H2 H3]]. repeat split; try lia.
      * intros H. replace (skip_to_bracket t (S j) - j)%nat
          with (S (skip_to_bracket t (S j) - S j)) by lia.
        cbn [nth_error]. apply H2. lia.
      * intros H. rewrite H3; [lia|]. intros Hin. apply H. now right.
Qed.

Lemma globToRegex_loop_error (fuel : nat) :
  forall glob regex err,
    globToRegex_loop fuel glob regex = inl err -> err = ErrUnterminatedClass.
Proof.
  induction fuel as [|fuel IH]; intros glob regex err.
  - destruct glob; discriminate.
  - destruct glob as [|c t]; cbn [globToRegex_loop]; [discriminate|].
    repeat match goal with
    | |- context [if ?b then _ else _] => destruct b
    end; try apply IH. now intros [= <-].
Qed.

Lemma globToRegex_loop_shape (fuel : nat) :
  forall glob regex r,
    globToRegex_loop fuel glob regex = inr r ->
    exists body, r = regex ++ body ++ str "$".
Proof.
  induction fuel as [|fuel IH]; intros glob regex r.
  - destruct glob; intros [= <-]; now exists [].
  - destruct glob as [|c t]; cbn [globToRegex_loop];
      [intros [= <-]; now exists []|].
    repeat match goal with
    | |- context [if ?b then _ else _] => destruct b
    end; try discriminate;
      intros H; apply IH in H as [body ->];
        rewrite <- (app_assoc regex), (app_assoc _ body (str "$"));
        eexists; reflexivity.
Qed.

Lemma globToRegex_loop_no_bracket (fuel : nat) :
  forall glob regex,
    ~ In "["%char glob -> exists r, globToRegex_loop fuel glob regex = inr r.
Proof.
  induction fuel as [|fuel IH]; intros glob regex Hn.
  - destruct glob; eexists; reflexivity.
  - destruct glob as [|c t]; cbn [globToRegex_loop]; [eexists; reflexivity|].
    assert (Hs : forall k, ~ In "["%char (skipn k (c :: t))).
    { intros k Hin. apply Hn. eapply In_skipn_in. exact Hin. }
    destruct (c =? "[")%char eqn:E.
    { apply Ascii.eqb_eq in E. subst c. exfalso. apply Hn. now left. }
    repeat match goal with
    | |- context [if ?b then _ else _] => destruct b
    end; apply IH; apply Hs.
Qed.

Lemma byte_is_none (s : gostring) (j : nat) (c : ascii) :
  ~ In c s -> byte_is s j c = false.
Proof.
  intros H. unfold byte_is. destruct (nth_error s j) as [d|] eqn:E; [|reflexivity].
  apply Ascii.eqb_neq. intros ->. apply H. eapply nth_error_In. exact E.
Qed.

(** A bracket that no closing bracket follows makes the loop fail. *)
Lemma globToRegex_loop_unterminated :
  forall n pre post fuel regex,
    (length pre <= n)%nat -> ~ In "]"%char post ->
    (length (pre ++ "["%char :: post) <= fuel)%nat ->
    globToRegex_loop fuel (pre ++ "["%char :: post) regex = inl ErrUnterminatedClass.
Proof.
  induction n as [|n IH]; intros pre post fuel regex Hn Hp Hf.
  - destruct pre; [|cbn in Hn; lia]. cbn [app] in *.
    destruct fuel as [|fuel]; [cbn in Hf; lia|]. cbn [globToRegex_loop].
    change ("[" =? "*")%char with false. change ("[" =? "?")%char with false.
    change ("[" =? "[")%char with true. cbn [negb].
    set (j1 := if byte_is ("["%char :: post) 1 "!" then 2%nat else 1%nat).
    assert (Hj1 : (1 <= j1 <= 2)%nat) by (subst j1; destruct (byte_is _ _ _); lia).
    assert (B : byte_is ("["%char :: post) j1 "]" = false).
    { unfold byte_is. destruct j1 as [|j1]; [lia|]. cbn [nth_error].
      destruct (nth_error post j1) as [d|] eqn:E; [|reflexivity].
      apply Ascii.eqb_neq. intros ->. apply Hp. eapply nth_error_In. exact E. }
    rewrite B.
    destruct (skip_to_bracket_spec (skipn j1 ("["%char :: post)) j1) as [_ [_ H3]].
    rewrite H3.
    + rewrite length_skipn.
      destruct (length ("["%char :: post) <=? j1 + (length ("["%char :: post) - j1))%nat
        eqn:L; [reflexivity | apply Nat.leb_gt in L; lia].
    + intros Hin. apply Hp. destruct j1 as [|j1]; [lia|]. cbn [skipn] in Hin.
      eapply In_skipn_in. exact Hin.
  - destruct pre as [|c pre]; [apply (IH []); [cbn; lia | assumption | assumption]|].
    destruct fuel as [|fuel]; [cbn in Hf; lia|].
    cbn [length] in Hn. cbn [app length] in Hf.
    assert (Hrec : forall k regex',
      (1 <= k <= length (c :: pre))%nat ->
      globToRegex_loop fuel (skipn k ((c :: pre) ++ "["%char :: post)) regex'
      = inl ErrUnterminatedClass).
    { intros k regex' Hk. rewrite skipn_app.
      replace (k - length (c :: pre))%nat with 0%nat by lia. cbn [skipn].
      apply IH; [rewrite length_skipn; cbn [length] in *; lia | assumption |].
      rewrite length_app, length_skipn. cbn [length] in *.
      rewrite length_app in Hf. cbn [length] in Hf. lia. }
    change (c :: pre ++ "["%char :: post) with ((c :: pre) ++ "["%char :: post).
    set (glob := (c :: pre) ++ "["%char :: post) in *.
    assert (Hlen : length glob = (length (c :: pre) + S (length post))%nat).
    { subst glob. rewrite length_app. reflexivity. }
    cbn [globToRegex_loop]. unfold glob at 1. cbn [app].
    fold glob.
    destruct (c =? "*")%char eqn:E1.
    { destruct (byte_is glob 1 "*") eqn:B1.
      - assert (L2 : (2 <= length (c :: pre))%nat).
        { unfold byte_is, glob in B1. cbn [app nth_error] in B1.
          destruct pre as [|c2 pre]; [cbn in B1; discriminate | cbn; lia]. }
        destruct (byte_is glob 2 "/") eqn:B2.
        + apply Hrec. split; [lia|].
          unfold byte_is, glob in B2. cbn [app nth_error] in B2.
          destruct pre as [|c2 [|c3 pre]]; cbn [length] in *; try lia.
          cbn in B2. discriminate.
        + destruct (length glob =? 2)%nat eqn:L; [apply Nat.eqb_eq in L; lia|].
          apply Hrec. cbn [length]. lia.
      - apply Hrec. cbn [length]. lia. }
    destruct (c =? "?")%char eqn:E2; [apply Hrec; cbn [length]; lia|].
    destruct (c =? "[")%char eqn:E3.
    { set (j1 := if byte_is glob 1 "!" then 2%nat else 1%nat).
      set (j2 := if byte_is glob j1 "]" then S j1 else j1).
      assert (Hj2 : (1 <= j2)%nat).
      { subst j2 j1. destruct (byte_is glob 1 "!"); destruct (byte_is glob _ "]"); lia. }
      destruct (skip_to_bracket_spec (skipn j2 glob) j2) as [H1 [H2 _]].
      set (k := skip_to_bracket (skipn j2 glob) j2) in *.
      destruct (length glob <=? k)%nat eqn:L; [reflexivity|].
      apply Nat.leb_gt in L.
      rewrite length_skipn in H1, H2.
      assert (Hk : nth_error glob k = Some "]"%char).
      { rewrite <- H2 by lia. rewrite nth_error_skipn. f_equal. lia. }
      assert (Hkp : (k < length (c :: pre))%nat).
      { destruct (Nat.lt_ge_cases k (length (c :: pre))) as [Hlt|Hge]; [exact Hlt|].
        exfalso. unfold glob in Hk. rewrite nth_error_app2 in Hk by exact Hge.
        destruct (k - length (c :: pre))%nat as [|m] eqn:Em; cbn [nth_error] in Hk;
          [discriminate|].
        apply Hp. eapply nth_error_In. exact Hk. }
      apply Hrec. lia. }
    destruct (is_regex_special c); apply Hrec; cbn [length]; lia.
Qed.

(** X16.  GlobToRegex fails on an unterminated character class only: it
    succeeds on every glob without an opening bracket, fails where no closing
    bracket follows an opening one, and a result is the translation between
    a caret and a dollar sign. *)
Theorem globToRegex_unterminated_class :
  (forall glob, ~ In "["%char glob ->
     exists body, globToRegex glob = inr (str "^" ++ body ++ str "$")) /\
  (forall pre post, ~ In "]"%char post ->
     globToRegex (pre ++ "["%char :: post) = inl ErrUnterminatedClass /\
     snd (AddPattern NewIgnoreChecker (pre ++ "["%char :: post))
       = Some (Errorf (str "invalid glob pattern: ") ErrUnterminatedClass)) /\
  (forall glob err, globToRegex glob = inl err -> err = ErrUnterminatedClass) /\
  (forall glob regex, globToRegex glob = inr regex ->
     exists body, regex = str "^" ++ body ++ str "$").
Proof.
  split; [|split; [|split]].
  - intros glob H. unfold globToRegex.
    destruct (globToRegex_loop_no_bracket (length glob) glob (str "^") H) as [r Hr].
    rewrite Hr. apply globToRegex_loop_shape in Hr as [body ->]. now exists body.
  - intros pre post H.
    assert (E : globToRegex (pre ++ "["%char :: post) = inl ErrUnterminatedClass).
    { unfold globToRegex.
      apply (globToRegex_loop_unterminated (length pre)); [lia | assumption | lia]. }
    split; [exact E|]. unfold AddPattern. now rewrite E.
  - intros glob err. apply globToRegex_loop_error.
  - intros glob regex. apply globToRegex_loop_shape.
Qed.

(** ** ignore.go: base names *)

Lemma drop_slashes_head (c : ascii) (r : gostring) :
  c <> "/"%char -> drop_slashes (c :: r) = c :: r.
Proof.
  intros H. cbn [drop_slashes]. unfold is_slash.
  apply Ascii.eqb_neq in H. now rewrite H.
Qed.

Lemma take_element_app (a r : gostring) :
  ~ In "/"%char a -> take_element (a ++ "/"%char :: r) = a.
Proof.
  induction a as [|c a IH]; intros H; cbn [app take_element].
  - reflexivity.
  - unfold is_slash.
    assert (Hc : (c =? "/")%char = false).
    { apply Ascii.eqb_neq. intros ->. apply H. now left. }
    rewrite Hc. f_equal. apply IH. intros Hin. apply H. now right.
Qed.

Lemma take_element_all (a : gostring) :
  ~ In "/"%char a -> take_element a = a.
Proof.
  induction a as [|c a IH]; intros H; cbn [take_element]; [reflexivity|].
  unfold is_slash.
  assert (Hc : (c =? "/")%char = false).
  { apply Ascii.eqb_neq. intros ->. apply H. now left. }
  rewrite Hc. f_equal. apply IH. intros Hin. apply H. now right.
Qed.

Lemma Base_file (dir name : gostring) :
  name <> [] -> ~ In "/"%char name -> Base (dir ++ "/"%char :: name) = name.
Proof.
  intros Hne Hs. unfold Base.
  destruct (dir ++ "/"%char :: name) as [|c t] eqn:E; [now destruct dir|].
  rewrite <- E. clear E c t.
  rewrite rev_app_distr. cbn [rev]. rewrite <- app_assoc. cbn [app].
  assert (Hr : ~ In "/"%char (rev name)).
  { intros H. apply in_rev in H. exact (Hs H). }
  destruct (rev name) as [|c r] eqn:R.
  { apply (f_equal (@rev ascii)) in R. rewrite rev_involutive in R. now subst. }
  cbn [app]. rewrite drop_slashes_head by (intros ->; apply Hr; now left).
  change (c :: r ++ "/"%char :: rev dir) with ((c :: r) ++ "/"%char :: rev dir).
  rewrite take_element_app by exact Hr.
  rewrite <- R, rev_involutive.
  destruct name; [congruence | reflexivity].
Qed.

Lemma Base_name (name : gostring) :
  name <> [] -> ~ In "/"%char name -> Base name = name.
Proof.
  intros Hne Hs. unfold Base. destruct name as [|c0 t0] eqn:E; [congruence|].
  rewrite <- E in *. clear E c0 t0.
  assert (Hr : ~ In "/"%char (rev name)).
  { intros H. apply in_rev in H. exact (Hs H). }
  destruct (rev name) as [|c r] eqn:R.
  { apply (f_equal (@rev ascii)) in R. rewrite rev_involutive in R. now subst. }
  rewrite drop_slashes_head by (intros ->; apply Hr; now left).
  rewrite take_element_all by exact Hr.
  rewrite <- R, rev_involutive.
  destruct name; [congruence | reflexivity].
Qed.

(** X17.  A file is ignored in every directory as soon as its name alone is
    ignored: ShouldIgnore tries every pattern on the base name too. *)
Theorem ShouldIgnore_base_name (ic : IgnoreChecker) (dir name : gostring) :
  name <> [] -> ~ In "/"%char name ->
  Base (dir ++ "/"%char :: name) = name /\
  (ShouldIgnore ic name = true ->
   ShouldIgnore ic (dir ++ "/"%char :: name) = true).
Proof.
  intros Hne Hs. split; [now apply Base_file|].
  unfold ShouldIgnore, ToSlash. intros H.
  apply existsb_exists in H as [re [Hin H]].
  apply existsb_exists. exists re. split; [exact Hin|].
  rewrite Base_file by assumption.
  rewrite Base_name in H by assumption.
  rewrite orb_diag in H. rewrite H. apply orb_true_r.
Qed.

Lemma ShouldIgnore_base_name_witness :
  Base (str "docs/guide" ++ "/"%char :: str "README.md") = str "README.md" /\
  (ShouldIgnore (fst (AddPattern NewIgnoreChecker (str "*.md"))) (str "README.md") = true ->
   ShouldIgnore (fst (AddPattern NewIgnoreChecker (str "*.md")))
     (str "docs/guide" ++ "/"%char :: str "README.md") = true).
Proof.
  apply (ShouldIgnore_base_name (fst (AddPattern NewIgnoreChecker (str "*.md")))
           (str "docs/guide") (str "README.md")).
  - discriminate.
  - vm_compute. intuition discriminate.
Defined.

(** ** regexp/syntax on the translation of plain bytes *)

Lemma is_regex_special_false (c : ascii) :
  is_regex_special c = false ->
  (c =? ".")%char = false /\ (c =? "^")%char = false /\ (c =? "$")%char = false /\
  (c =? "+")%char = false /\ (c =? "{")%char = false /\ (c =? "}")%char = false /\
  (c =? "(")%char = false /\ (c =? ")")%char = false /\ (c =? "|")%char = false /\
  (c =? "\")%char = false.
Proof.
  unfold is_regex_special. cbn [str list_ascii_of_string existsb].
  intros Hs. repeat (apply orb_false_iff in Hs as [? Hs]). repeat split; assumption.
Qed.

Lemma plain_byte_inv (c : ascii) :
  plain_byte c = true ->
  byteZ c < RuneSelf /\ (c =? "*")%char = false /\ (c =? "?")%char = false /\
  (c =? "[")%char = false.
Proof.
  unfold plain_byte. intros Hp. apply andb_true_iff in Hp as [Ha Hp].
  apply negb_true_iff in Hp.
  apply orb_false_iff in Hp as [Hp H3]. apply orb_false_iff in Hp as [H1 H2].
  apply Z.ltb_lt in Ha. auto.
Qed.

Lemma parseSeq_literal_step (fuel : nat) (c : ascii) (t : gostring) (inner : bool)
    (items alts : list regex) (lr : bool) (ncap : nat) :
  plain_byte c = true -> is_regex_special c = false ->
  parseSeq (S fuel) (c :: t) false inner items alts lr ncap
  = parseSeq fuel t false inner (CharClass false [(byteZ c, byteZ c)] :: items)
      alts false ncap.
Proof.
  intros Hp Hs.
  apply plain_byte_inv in Hp as [Ha [H1 [H2 H3]]].
  apply is_regex_special_false in Hs
    as [S1 [S2 [S3 [S4 [S5 [S6 [S7 [S8 [S9 S10]]]]]]]]].
  cbn [parseSeq].
  rewrite S7, S9, S8, S2, S3, S1, H3, H1, S4, H2, S5, S10. cbn [orb].
  unfold nextRune. rewrite DecodeRune_ascii by exact Ha. reflexivity.
Qed.

Lemma parseSeq_escape_step (fuel : nat) (c : ascii) (t : gostring) (inner : bool)
    (items alts : list regex) (lr : bool) (ncap : nat) :
  is_regex_special c = true ->
  parseSeq (S fuel) ("\"%char :: c :: t) false inner items alts lr ncap
  = parseSeq fuel t false inner (CharClass false [(byteZ c, byteZ c)] :: items)
      alts false ncap.
Proof.
  unfold is_regex_special. cbn [str list_ascii_of_string existsb].
  intros Hs.
  repeat (apply orb_true_iff in Hs as [Hs|Hs];
          [apply Ascii.eqb_eq in Hs; subst c; reflexivity|]).
  discriminate.
Qed.

Lemma escape_length (s : gostring) : (length s <= length (escape s))%nat.
Proof.
  induction s as [|c s IH]; cbn [escape flat_map length]; [lia|].
  fold (escape s). rewrite length_app. unfold escape_byte.
  destruct (is_regex_special c); cbn [length]; lia.
Qed.

(** One round of the parser for each plain byte. *)
Lemma parseSeq_plain (lit : gostring) :
  Forall (fun c => plain_byte c = true) lit ->
  forall fuel rest inner items alts lr ncap,
    parseSeq (length lit + fuel) (escape lit ++ rest) false inner items alts lr ncap
    = parseSeq fuel rest false inner
        (rev (map (fun c => CharClass false [(byteZ c, byteZ c)]) lit) ++ items)
        alts (match lit with [] => lr | _ :: _ => false end) ncap.
Proof.
  induction 1 as [|c lit Hc _ IH]; intros fuel rest inner items alts lr ncap.
  - reflexivity.
  - cbn [length escape flat_map Nat.add map rev]. fold (escape lit).
    rewrite <- !app_assoc. cbn [app].
    unfold escape_byte. destruct (is_regex_special c) eqn:Hs; cbn [app].
    + rewrite parseSeq_escape_step by exact Hs. rewrite IH.
      now destruct lit.
    + rewrite parseSeq_literal_step by assumption. rewrite IH.
      now destruct lit.
Qed.

Lemma checkUTF8_ascii (s : gostring) :
  Forall (fun c => byteZ c < RuneSelf) s ->
  forall fuel, (length s <= fuel)%nat -> checkUTF8 fuel s = true.
Proof.
  induction 1 as [|c s Hc _ IH]; intros fuel Hf; [now destruct fuel|].
  destruct fuel as [|fuel]; [cbn in Hf; lia|]. cbn [checkUTF8].
  rewrite DecodeRune_ascii by exact Hc.
  assert (E : (byteZ c =? RuneError) = false).
  { apply Z.eqb_neq. unfold RuneError, RuneSelf in *. lia. }
  rewrite E. cbn [andb skipn]. apply IH. cbn in Hf. lia.
Qed.

Lemma escape_ascii (s : gostring) :
  Forall (fun c => plain_byte c = true) s ->
  Forall (fun c => byteZ c < RuneSelf) (escape s).
Proof.
  induction 1 as [|c s Hc _ IH]; cbn [escape flat_map]; [constructor|].
  apply Forall_app. split; [|exact IH].
  apply plain_byte_inv in Hc as [Ha _]. unfold escape_byte.
  destruct (is_regex_special c); repeat constructor; try assumption.
Qed.

(** The loop of globToRegex on a run of plain bytes. *)
Lemma globToRegex_loop_plain (lit : gostring) :
  Forall (fun c => plain_byte c = true) lit ->
  forall fuel rest regex,
    globToRegex_loop (length lit + fuel) (lit ++ rest) regex
    = globToRegex_loop fuel rest (regex ++ escape lit).
Proof.
  induction 1 as [|c lit Hc _ IH]; intros fuel rest regex.
  - cbn [length Nat.add app escape flat_map]. now rewrite app_nil_r.
  - cbn [length Nat.add app globToRegex_loop].
    apply plain_byte_inv in Hc as [Ha [H1 [H2 H3]]].
    rewrite H1, H2, H3. cbn [skipn].
    assert (E : string_of_byte c = [c]).
    { unfold string_of_byte. apply Z.ltb_lt in Ha. now rewrite Ha. }
    rewrite E. cbn [escape flat_map]. fold (escape lit). unfold escape_byte.
    destruct (is_regex_special c); rewrite IH, <- ?app_assoc; reflexivity.
Qed.

Lemma concat_of_cons (r : regex) (l : list regex) :
  l <> [] -> concat_of (r :: l) = Concat r (concat_of l).
Proof. destruct l; [congruence | reflexivity]. Qed.

Lemma concat_of_literals (lit : gostring) (l : list regex) :
  l <> [] ->
  concat_of (map (fun c => CharClass false [(byteZ c, byteZ c)]) lit ++ l)
  = literals (map byteZ lit) (concat_of l).
Proof.
  intros Hl. induction lit as [|c lit IH]; cbn [map app literals fold_right];
    [reflexivity|].
  rewrite concat_of_cons by (destruct lit; cbn; congruence).
  now rewrite IH.
Qed.

Lemma parseSeq_caret_step (fuel : nat) (t : gostring) (fold inner : bool)
    (items alts : list regex) (lr : bool) (ncap : nat) :
  parseSeq (S fuel) ("^"%char :: t) fold inner items alts lr ncap
  = parseSeq fuel t fold inner (BeginText :: items) alts false ncap.
Proof. reflexivity. Qed.

Lemma parseSeq_dollar_step (fuel : nat) (t : gostring) (fold inner : bool)
    (items alts : list regex) (lr : bool) (ncap : nat) :
  parseSeq (S fuel) ("$"%char :: t) fold inner items alts lr ncap
  = parseSeq fuel t fold inner (EndText :: items) alts false ncap.
Proof. reflexivity. Qed.

Lemma parseSeq_end (fuel : nat) (fold : bool) (items alts : list regex) (lr : bool)
    (ncap : nat) :
  parseSeq (S fuel) [] fold false items alts lr ncap
  = POk (close_level items alts, [], ncap).
Proof. reflexivity. Qed.

Lemma parseClass_not_slash (t : gostring) :
  parseClass false (str "^/]" ++ t) = POk (not_slash, t).
Proof. destruct t; reflexivity. Qed.

Lemma parseSeq_class_step (fuel : nat) (t : gostring) (inner : bool)
    (items alts : list regex) (lr : bool) (ncap : nat) :
  parseSeq (S fuel) (str "[^/]" ++ t) false inner items alts lr ncap
  = parseSeq fuel t false inner (not_slash :: items) alts false ncap.
Proof.
  change (str "[^/]" ++ t) with ("["%char :: str "^/]" ++ t).
  cbn [parseSeq Ascii.eqb Bool.eqb andb orb negb].
  rewrite parseClass_not_slash. reflexivity.
Qed.

Lemma parseSeq_star_step (fuel : nat) (t : gostring) (inner : bool)
    (re : regex) (items alts : list regex) (ncap : nat) :
  HasPrefix t (str "?") = false ->
  parseSeq (S fuel) ("*"%char :: t) false inner (re :: items) alts false ncap
  = parseSeq fuel t false inner (Repeat 0 None true re :: items) alts true ncap.
Proof.
  intros H. cbn [parseSeq Ascii.eqb Bool.eqb andb orb negb].
  unfold apply_repeat. rewrite H. reflexivity.
Qed.

Lemma escape_no_question (lit rest : gostring) :
  Forall (fun c => plain_byte c = true) lit ->
  HasPrefix rest (str "?") = false ->
  HasPrefix (escape lit ++ rest) (str "?") = false.
Proof.
  intros H Hr. destruct H as [|c lit Hc _]; [exact Hr|].
  cbn [escape flat_map]. unfold escape_byte.
  destruct (is_regex_special c); cbn [app str list_ascii_of_string HasPrefix];
    [reflexivity|].
  apply plain_byte_inv in Hc as [_ [_ [H2 _]]]. now rewrite H2.
Qed.

(** What regexp.Compile makes of the translation of plain bytes around at
    most one star. *)
Lemma Compile_plain (lit : gostring) :
  Forall (fun c => plain_byte c = true) lit ->
  Compile (str "^" ++ escape lit ++ str "$")
  = Some (Concat BeginText (literals (map byteZ lit) EndText)).
Proof.
  intros H. unfold Compile, Parse.
  rewrite checkUTF8_ascii;
    [| repeat (apply Forall_app; split); try (repeat constructor);
       now apply escape_ascii
     | lia].
  pose proof (escape_length lit) as Hl.
  replace (S (length (str "^" ++ escape lit ++ str "$")))
    with (S (length lit + S (S (length (escape lit) - length lit))))
    by (rewrite !length_app; cbn [str list_ascii_of_string length]; lia).
  change (str "^" ++ escape lit ++ str "$")
    with ("^"%char :: escape lit ++ str "$").
  rewrite parseSeq_caret_step, parseSeq_plain by exact H.
  change (str "$") with ("$"%char :: []).
  rewrite parseSeq_dollar_step, parseSeq_end. cbn [pbind].
  unfold close_level. cbn [rev app alternate_of].
  rewrite rev_app_distr, rev_involutive. cbn [rev app].
  rewrite concat_of_cons by (destruct lit; cbn; discriminate).
  now rewrite concat_of_literals by discriminate.
Qed.

Lemma Compile_star (lit1 lit2 : gostring) :
  Forall (fun c => plain_byte c = true) lit1 ->
  Forall (fun c => plain_byte c = true) lit2 ->
  Compile (str "^" ++ escape lit1 ++ str "[^/]*" ++ escape lit2 ++ str "$")
  = Some (Concat BeginText
            (literals (map byteZ lit1)
               (Concat (Repeat 0 None true not_slash)
                  (literals (map byteZ lit2) EndText)))).
Proof.
  intros H1 H2. unfold Compile, Parse.
  rewrite checkUTF8_ascii;
    [| repeat (apply Forall_app; split); try (repeat constructor);
       now apply escape_ascii
     | lia].
  pose proof (escape_length lit1) as Hl1. pose proof (escape_length lit2) as Hl2.
  replace (S (length (str "^" ++ escape lit1 ++ str "[^/]*" ++ escape lit2 ++ str "$")))
    with (S (length lit1
             + S (S (length lit2
                     + S (S (length (escape lit1) - length lit1
                             + (length (escape lit2) - length lit2) + 3))))))
    by (rewrite !length_app; cbn [str list_ascii_of_string length]; lia).
  change (str "^" ++ escape lit1 ++ str "[^/]*" ++ escape lit2 ++ str "$")
    with ("^"%char :: escape lit1 ++ str "[^/]*" ++ escape lit2 ++ str "$").
  rewrite parseSeq_caret_step, parseSeq_plain by exact H1.
  change (str "[^/]*" ++ escape lit2 ++ str "$")
    with (str "[^/]" ++ "*"%char :: escape lit2 ++ str "$").
  rewrite parseSeq_class_step, parseSeq_star_step
    by (apply escape_no_question; [assumption | reflexivity]).
  rewrite parseSeq_plain by exact H2.
  change (str "$") with ("$"%char :: []).
  rewrite parseSeq_dollar_step, parseSeq_end. cbn [pbind].
  unfold close_level. cbn [rev app alternate_of].
  rewrite !rev_app_distr, !rev_involutive. cbn [rev app].
  rewrite !rev_app_distr, !rev_involutive. cbn [rev app].
  rewrite <- !app_assoc. cbn [app].
  rewrite concat_of_cons by (destruct lit1; cbn; discriminate).
  rewrite concat_of_literals by discriminate.
  rewrite concat_of_cons by (destruct lit2; cbn; discriminate).
  now rewrite concat_of_literals by discriminate.
Qed.

(** ** Matching the class of all runes but the slash *)

Lemma DecodeRune_no_slash (s : gostring) :
  s <> [] ->
  fst (DecodeRuneInString s) <> 47 ->
  ~ In "/"%char (firstn (snd (DecodeRuneInString s)) s).
Proof.
  intros Hne Hr Hin.
  destruct (DecodeRune_bytes s Hne) as [H1|HF].
  - destruct s as [|c t]; [congruence|]. rewrite H1 in Hin. cbn in Hin.
    destruct Hin as [E|[]]. subst c.
    rewrite DecodeRune_ascii in Hr by reflexivity.
    apply Hr. reflexivity.
  - rewrite Forall_forall in HF. specialize (HF _ Hin).
    change (byteZ "/"%char) with 47 in HF. unfold RuneSelf in HF. lia.
Qed.

Lemma DecodeRune_not_slash (c : ascii) (t : gostring) :
  c <> "/"%char -> fst (DecodeRuneInString (c :: t)) <> 47.
Proof.
  intros Hc. destruct (Z_lt_le_dec (byteZ c) RuneSelf) as [L|G].
  - rewrite DecodeRune_ascii by exact L. cbn. intros E.
    apply Hc, byteZ_inj. exact E.
  - pose proof (DecodeRune_high c t G). unfold RuneSelf in *. lia.
Qed.

Lemma ends_not_slash (st : mstate) :
  ends not_slash st =
    match m_rest st with
    | [] => []
    | _ :: _ =>
      if (fst (DecodeRuneInString (m_rest st)) =? 47) then []
      else [advance (snd (DecodeRuneInString (m_rest st))) st]
    end.
Proof.
  unfold not_slash. cbn [ends]. destruct (m_rest st) as [|c t]; [reflexivity|].
  destruct (DecodeRuneInString (c :: t)) as [x d]. cbn [fst snd].
  unfold class_matches, in_ranges, between. cbn [existsb fst snd].
  rewrite orb_false_r.
  destruct (x =? 47) eqn:E.
  - apply Z.eqb_eq in E. subst. reflexivity.
  - apply Z.eqb_neq in E.
    destruct (47 <=? x) eqn:L1, (x <=? 47) eqn:L2; cbn; try reflexivity.
    apply Z.leb_le in L1, L2. lia.
Qed.

Lemma not_slash_star_sound (fuel : nat) :
  forall st x,
    In x (ends_star (ends not_slash) true fuel st) ->
    exists w, ~ In "/"%char w /\ m_rest st = w ++ m_rest x /\
              m_pos x = (m_pos st + length w)%nat /\ m_caps x = m_caps st.
Proof.
  induction fuel as [|fuel IH]; intros st x; cbn [ends_star].
  - intros [<-|[]]. exists []. cbn. auto.
  - intros H. apply in_app_or in H as [H|[<-|[]]].
    2:{ exists []. cbn. auto. }
    apply in_flat_map in H as [st1 [H1 H]].
    rewrite ends_not_slash in H1.
    destruct (m_rest st) as [|c t] eqn:R; [contradiction|].
    destruct (fst (DecodeRuneInString (c :: t)) =? 47) eqn:E; [contradiction|].
    apply Z.eqb_neq in E. destruct H1 as [<-|[]].
    destruct (m_pos st <? _)%nat; [|contradiction].
    destruct (IH _ _ H) as [w [Hw [Hr [Hp Hc]]]].
    pose proof (DecodeRune_width (c :: t) ltac:(discriminate)) as Hd.
    set (d := snd (DecodeRuneInString (c :: t))) in *.
    unfold advance in Hr, Hp, Hc. cbn [m_rest m_pos m_caps] in Hr, Hp, Hc.
    rewrite R in Hr.
    exists (firstn d (c :: t) ++ w). repeat split.
    + intros Hin. apply in_app_or in Hin as [Hin|Hin]; [|contradiction].
      revert Hin. apply DecodeRune_no_slash; [discriminate | exact E].
    + rewrite <- app_assoc, <- Hr. symmetry. apply firstn_skipn.
    + rewrite Hp, length_app, length_firstn. lia.
    + exact Hc.
Qed.

(** The star stops wherever the text goes on with a byte of ASCII, and at
    the end of the text. *)
Lemma not_slash_star_complete (rest : gostring) :
  match rest with a :: _ => byteZ a < RuneSelf | [] => True end ->
  forall n w fuel st,
    (length w <= n)%nat -> (length w <= fuel)%nat ->
    ~ In "/"%char w -> m_rest st = w ++ rest ->
    In (MState (m_pos st + length w) rest (m_caps st))
       (ends_star (ends not_slash) true fuel st).
Proof.
  intros Ha. induction n as [|n IH]; intros w fuel st Hn Hf Hw R.
  - destruct w; [|cbn in Hn; lia].
    cbn [length app] in *. rewrite Nat.add_0_r, <- R.
    destruct st as [p0 r0 c0]. apply ends_star_self.
  - destruct (list_eq_dec ascii_dec w []) as [->|Hwne].
    { cbn [length app] in *. rewrite Nat.add_0_r, <- R.
      destruct st as [p0 r0 c0]. apply ends_star_self. }
    assert (Hlen : (1 <= length w)%nat) by (destruct w; [congruence | cbn; lia]).
    destruct fuel as [|fuel]; [lia|].
    assert (Hne : m_rest st <> [])
      by (rewrite R; destruct w; [congruence | discriminate]).
    pose proof (DecodeRune_width _ Hne) as Hd.
    assert (Hb : (snd (DecodeRuneInString (m_rest st)) <= length w)%nat).
    { rewrite R. destruct rest as [|a t].
      - rewrite app_nil_r. apply DecodeRune_width. exact Hwne.
      - apply DecodeRune_boundary; assumption. }
    assert (E : fst (DecodeRuneInString (m_rest st)) <> 47).
    { rewrite R. destruct w as [|c w']; [congruence|]. cbn [app].
      apply DecodeRune_not_slash. intros ->. apply Hw. now left. }
    set (d := snd (DecodeRuneInString (m_rest st))) in *.
    cbn [ends_star]. apply in_or_app. left.
    apply in_flat_map. exists (advance d st). split.
    + rewrite ends_not_slash. destruct (m_rest st) as [|c0 r0] eqn:R0; [congruence|].
      apply Z.eqb_neq in E. rewrite E. left. reflexivity.
    + unfold advance at 1. cbn [m_pos].
      destruct (m_pos st <? m_pos st + d)%nat eqn:P;
        [|apply Nat.ltb_ge in P; lia].
      specialize (IH (skipn d w) fuel (advance d st)).
      unfold advance in IH. cbn [m_pos m_rest m_caps] in IH.
      rewrite length_skipn in IH.
      replace (m_pos st + d + (length w - d))%nat
        with (m_pos st + length w)%nat in IH by lia.
      apply IH; try lia.
      * intros Hin. apply Hw. revert Hin. apply In_skipn_in.
      * rewrite R, skipn_app.
        replace (d - length w)%nat with 0%nat by lia. reflexivity.
Qed.

Lemma MatchString_anchored (r : regex) (s : gostring) :
  MatchString (Concat BeginText r) s = true <-> ends r (start_state s) <> [].
Proof.
  unfold MatchString. rewrite search_anchored.
  destruct (ends r (start_state s)); cbn [hd_error option_map];
    split; congruence.
Qed.

Lemma ends_literals_end (lit : gostring) (st : mstate) :
  Forall (fun c => byteZ c < RuneSelf) lit ->
  ends (literals (map byteZ lit) EndText) st <> [] <-> m_rest st = lit.
Proof.
  intros H. rewrite ends_literals by exact H.
  destruct (HasPrefix (m_rest st) lit) eqn:HP.
  - apply HasPrefix_skipn in HP. cbn [ends m_rest].
    destruct (skipn (length lit) (m_rest st)) as [|c t] eqn:S.
    + rewrite app_nil_r in HP. split; [intros _; exact HP | discriminate].
    + split; [congruence|]. intros E. rewrite E, skipn_all in S. discriminate.
  - split; [congruence|]. intros E. rewrite E in HP.
    pose proof (HasPrefix_app_true lit []) as T. rewrite app_nil_r in T. congruence.
Qed.

Lemma plain_ascii (lit : gostring) :
  Forall (fun c => plain_byte c = true) lit ->
  Forall (fun c => byteZ c < RuneSelf) lit.
Proof.
  intros H. eapply Forall_impl; [|exact H]. intros c Hc.
  now apply plain_byte_inv in Hc.
Qed.

Lemma MatchString_plain (lit s : gostring) :
  Forall (fun c => plain_byte c = true) lit ->
  MatchString (Concat BeginText (literals (map byteZ lit) EndText)) s = true
  <-> s = lit.
Proof.
  intros H. rewrite MatchString_anchored.
  apply ends_literals_end. now apply plain_ascii.
Qed.

Lemma MatchString_star (lit1 lit2 s : gostring) :
  Forall (fun c => plain_byte c = true) lit1 ->
  Forall (fun c => plain_byte c = true) lit2 ->
  MatchString
    (Concat BeginText
       (literals (map byteZ lit1)
          (Concat (Repeat 0 None true not_slash)
             (literals (map byteZ lit2) EndText)))) s = true
  <-> star_matches lit1 lit2 s.
Proof.
  intros H1 H2. rewrite MatchString_anchored.
  rewrite ends_literals by now apply plain_ascii.
  cbn [start_state m_rest m_pos m_caps].
  unfold star_matches. split.
  - destruct (HasPrefix s lit1) eqn:HP; [|congruence].
    apply HasPrefix_skipn in HP. intros Hne.
    destruct (ends _ _) as [|fin l] eqn:E; [congruence|].
    assert (Hin : In fin (fin :: l)) by now left. rewrite <- E in Hin.
    rewrite ends_Concat in Hin. apply in_flat_map in Hin as [x [Hx Hfin]].
    rewrite ends_Repeat in Hx. cbn [ends_times] in Hx.
    apply not_slash_star_sound in Hx as [w [Hw [Hr _]]]. cbn [m_rest] in Hr.
    assert (Hl : m_rest x = lit2).
    { apply ends_literals_end; [now apply plain_ascii|].
      intros E0. rewrite E0 in Hfin. destruct Hfin. }
    exists w. split; [exact Hw|]. rewrite HP at 1. now rewrite Hr, Hl.
  - intros [w [Hw ->]]. rewrite HasPrefix_app_true.
    rewrite skipn_app, skipn_all, Nat.sub_diag. cbn [app skipn].
    rewrite ends_Concat, ends_Repeat. cbn [ends_times m_rest].
    intros E.
    assert (Hin : In (MState (0 + length lit1 + length w) lit2 [])
                    (ends_star (ends not_slash) true (S (length (w ++ lit2)))
                       (MState (0 + length lit1) (w ++ lit2) []))).
    { apply (not_slash_star_complete lit2
               ltac:(destruct H2 as [|a t Ha _];
                     [exact I | now apply plain_byte_inv in Ha])
               (length w) w (S (length (w ++ lit2)))
               (MState (0 + length lit1) (w ++ lit2) [])).
      - lia.
      - rewrite length_app. lia.
      - exact Hw.
      - reflexivity. }
    assert (Hne : ends (literals (map byteZ lit2) EndText)
                    (MState (0 + length lit1 + length w) lit2 []) <> []).
    { apply ends_literals_end; [now apply plain_ascii | reflexivity]. }
    destruct (ends (literals (map byteZ lit2) EndText)
                (MState (0 + length lit1 + length w) lit2 [])) as [|y l] eqn:Ey;
      [congruence|].
    assert (Hy : In y (flat_map (ends (literals (map byteZ lit2) EndText))
                        (ends_star (ends not_slash) true (S (length (w ++ lit2)))
                           (MState (0 + length lit1) (w ++ lit2) [])))).
    { apply in_flat_map. eexists. split; [exact Hin|]. rewrite Ey. now left. }
    rewrite E in Hy. destruct Hy.
Qed.

(** ** ignore.go: patterns of plain bytes, with at most one star *)

Lemma globToRegex_plain (glob : gostring) :
  Forall (fun c => plain_byte c = true) glob ->
  globToRegex glob = inr (str "^" ++ escape glob ++ str "$").
Proof.
  intros H. unfold globToRegex.
  rewrite <- (app_nil_r glob) at 2. rewrite <- (Nat.add_0_r (length glob)).
  rewrite globToRegex_loop_plain by exact H. cbn [globToRegex_loop].
  now rewrite <- app_assoc.
Qed.

Lemma globToRegex_star (lit1 lit2 : gostring) :
  Forall (fun c => plain_byte c = true) lit1 ->
  Forall (fun c => plain_byte c = true) lit2 ->
  globToRegex (lit1 ++ "*"%char :: lit2)
  = inr (str "^" ++ escape lit1 ++ str "[^/]*" ++ escape lit2 ++ str "$").
Proof.
  intros H1 H2. unfold globToRegex.
  replace (length (lit1 ++ "*"%char :: lit2))
    with (length lit1 + S (length lit2 + 0))%nat
    by (rewrite length_app; cbn [length]; lia).
  rewrite globToRegex_loop_plain by exact H1. cbn [globToRegex_loop].
  change ("*" =? "*")%char with true. cbv iota.
  assert (B : byte_is ("*"%char :: lit2) 1 "*" = false).
  { unfold byte_is. cbn [nth_error]. destruct H2 as [|c t Hc _]; [reflexivity|].
    cbn [nth_error]. now apply plain_byte_inv in Hc as [_ [Hc _]]. }
  rewrite B. cbn [skipn].
  rewrite <- (app_nil_r lit2) at 2.
  rewrite globToRegex_loop_plain by exact H2. cbn [globToRegex_loop].
  now rewrite <- !app_assoc.
Qed.

Lemma ShouldIgnore_added (ic : IgnoreChecker) (glob : gostring) (re : regex)
    (path : gostring) :
  compile_glob glob = Some re ->
  snd (AddPattern ic glob) = None /\
  (ShouldIgnore (fst (AddPattern ic glob)) path = true <->
   ShouldIgnore ic path = true \/ MatchString re path = true
   \/ MatchString re (Base path) = true).
Proof.
  intros C. pose proof (AddPattern_compile_glob ic glob) as A. rewrite C in A.
  rewrite A. cbn [fst snd]. split; [reflexivity|].
  unfold ShouldIgnore, ToSlash. cbn [regexes].
  rewrite existsb_app. cbn [existsb]. rewrite orb_false_r, !orb_true_iff.
  reflexivity.
Qed.

Lemma plain_pattern_ignored (ic : IgnoreChecker) (glob path : gostring) :
  Forall (fun c => plain_byte c = true) glob ->
  snd (AddPattern ic glob) = None /\
  (ShouldIgnore (fst (AddPattern ic glob)) path = true <->
   ShouldIgnore ic path = true \/ path = glob \/ Base path = glob).
Proof.
  intros H.
  assert (C : compile_glob glob
              = Some (Concat BeginText (literals (map byteZ glob) EndText))).
  { unfold compile_glob. rewrite globToRegex_plain by exact H.
    now apply Compile_plain. }
  split; [exact (proj1 (ShouldIgnore_added ic glob _ [] C))|].
  rewrite (proj2 (ShouldIgnore_added ic glob _ path C)).
  rewrite !MatchString_plain by exact H. reflexivity.
Qed.

(** X18.  A pattern of plain bytes (ASCII without star, question mark and
    opening bracket) is accepted, and it ignores one more path and one more
    family of paths: the path equal to the pattern, and the paths whose base
    name is the pattern.  The
    pattern is taken shorter than a line the scanner accepts, far below the
    size limits of package regexp, which the model leaves out. *)
Theorem plain_pattern_exact (ic : IgnoreChecker) (glob : gostring) :
  Forall (fun c => plain_byte c = true) glob ->
  Z.of_nat (length glob) < MaxScanTokenSize ->
  globToRegex glob = inr (str "^" ++ escape glob ++ str "$") /\
  snd (AddPattern ic glob) = None /\
  forall path,
    ShouldIgnore (fst (AddPattern ic glob)) path = true <->
    ShouldIgnore ic path = true \/ path = glob \/ Base path = glob.
Proof.
  intros H _.
  split; [now apply globToRegex_plain|].
  split; [exact (proj1 (plain_pattern_ignored ic glob [] H))|].
  intros path. exact (proj2 (plain_pattern_ignored ic glob path H)).
Qed.

Lemma plain_pattern_exact_witness :
  globToRegex (str "package.json") = inr (str "^" ++ escape (str "package.json") ++ str "$") /\
  snd (AddPattern NewIgnoreChecker (str "package.json")) = None /\
  forall path,
    ShouldIgnore (fst (AddPattern NewIgnoreChecker (str "package.json"))) path = true <->
    ShouldIgnore NewIgnoreChecker path = true \/ path = str "package.json"
    \/ Base path = str "package.json".
Proof.
  apply (plain_pattern_exact NewIgnoreChecker (str "package.json")).
  - repeat constructor.
  - reflexivity.
Defined.

(** X19.  A pattern of plain bytes around one star is accepted, and it ignores
    besides the paths, and the paths with a base name, made of the bytes
    before the star, any bytes without a slash, and the bytes after the
    star.  The
    pattern is taken shorter than a line the scanner accepts, far below the
    size limits of package regexp, which the model leaves out. *)
Theorem star_pattern_matches (ic : IgnoreChecker) (lit1 lit2 : gostring) :
  Forall (fun c => plain_byte c = true) lit1 ->
  Forall (fun c => plain_byte c = true) lit2 ->
  Z.of_nat (length (lit1 ++ "*"%char :: lit2)) < MaxScanTokenSize ->
  globToRegex (lit1 ++ "*"%char :: lit2)
    = inr (str "^" ++ escape lit1 ++ str "[^/]*" ++ escape lit2 ++ str "$") /\
  snd (AddPattern ic (lit1 ++ "*"%char :: lit2)) = None /\
  forall path,
    ShouldIgnore (fst (AddPattern ic (lit1 ++ "*"%char :: lit2))) path = true <->
    ShouldIgnore ic path = true \/ star_matches lit1 lit2 path
    \/ star_matches lit1 lit2 (Base path).
Proof.
  intros H1 H2 _.
  assert (C : compile_glob (lit1 ++ "*"%char :: lit2)
              = Some (Concat BeginText
                        (literals (map byteZ lit1)
                           (Concat (Repeat 0 None true not_slash)
                              (literals (map byteZ lit2) EndText))))).
  { unfold compile_glob. rewrite globToRegex_star by assumption.
    now apply Compile_star. }
  split; [now apply globToRegex_star|].
  split; [exact (proj1 (ShouldIgnore_added ic _ _ [] C))|].
  intros path. rewrite (proj2 (ShouldIgnore_added ic _ _ path C)).
  rewrite !MatchString_star by assumption. reflexivity.
Qed.

Lemma star_pattern_matches_witness :
  globToRegex ([] ++ "*"%char :: str ".md")
    = inr (str "^" ++ escape [] ++ str "[^/]*" ++ escape (str ".md") ++ str "$") /\
  snd (AddPattern NewIgnoreChecker ([] ++ "*"%char :: str ".md")) = None /\
  forall path,
    ShouldIgnore (fst (AddPattern NewIgnoreChecker ([] ++ "*"%char :: str ".md"))) path = true <->
    ShouldIgnore NewIgnoreChecker path = true \/ star_matches [] (str ".md") path
    \/ star_matches [] (str ".md") (Base path).
Proof.
  apply (star_pattern_matches NewIgnoreChecker [] (str ".md")).
  - constructor.
  - repeat constructor.
  - reflexivity.
Defined.

(** ** ignore.go: a directory named with a trailing slash, and two stars at
    the end *)

Lemma take_element_no_slash (r : gostring) : ~ In "/"%char (take_element r).
Proof.
  induction r as [|c r IH]; cbn [take_element]; [intros []|].
  unfold is_slash. destruct (c =? "/")%char eqn:E; [intros []|].
  intros [H|H]; [|exact (IH H)]. subst c. discriminate E.
Qed.

Lemma Base_slash (path : gostring) :
  In "/"%char (Base path) -> Base path = str "/".
Proof.
  unfold Base. destruct path as [|c t]; [cbn; intuition discriminate|].
  destruct (rev (take_element (drop_slashes (rev (c :: t))))) as [|d b] eqn:E;
    [reflexivity|].
  intros H. exfalso. rewrite <- E in H. apply in_rev in H.
  exact (take_element_no_slash _ H).
Qed.

Lemma plain_slash : plain_byte "/"%char = true.
Proof. reflexivity. Qed.


(** X20.  A pattern of plain bytes that ends with a slash after a name ignores
    nothing below the directory it names: the only path it adds to the
    ignored ones is the path equal to the pattern, slash included.  The
    pattern is taken shorter than a line the scanner accepts, far below the
    size limits of package regexp, which the model leaves out. *)
Theorem directory_pattern_ignores_only_itself (ic : IgnoreChecker)
    (name path : gostring) :
  Forall (fun c => plain_byte c = true) name -> name <> [] ->
  Z.of_nat (length (name ++ str "/")) < MaxScanTokenSize ->
  snd (AddPattern ic (name ++ str "/")) = None /\
  (ShouldIgnore (fst (AddPattern ic (name ++ str "/"))) path = true <->
   ShouldIgnore ic path = true \/ path = name ++ str "/").
Proof.
  intros H Hne _.
  assert (Hp : Forall (fun c => plain_byte c = true) (name ++ str "/")).
  { apply Forall_app. split; [exact H | repeat constructor]. }
  destruct (plain_pattern_ignored ic (name ++ str "/") path Hp) as [A B].
  split; [exact A|]. rewrite B. split; [|tauto].
  intros [X|[X|X]]; [now left | now right |]. exfalso.
  assert (Hin : In "/"%char (Base path)).
  { rewrite X. apply in_or_app. right. now left. }
  apply Base_slash in Hin. rewrite Hin in X.
  destruct name as [|c [|d name]]; [congruence | discriminate | discriminate].
Qed.

Lemma directory_pattern_ignores_only_itself_witness :
  snd (AddPattern NewIgnoreChecker (str "node_modules" ++ str "/")) = None /\
  (ShouldIgnore (fst (AddPattern NewIgnoreChecker (str "node_modules" ++ str "/")))
     (str "node_modules/left-pad/index.js") = true <->
   ShouldIgnore NewIgnoreChecker (str "node_modules/left-pad/index.js") = true
   \/ str "node_modules/left-pad/index.js" = str "node_modules" ++ str "/").
Proof.
  apply (directory_pattern_ignores_only_itself NewIgnoreChecker (str "node_modules")
           (str "node_modules/left-pad/index.js")).
  - repeat constructor.
  - discriminate.
  - reflexivity.
Defined.

Lemma parseSeq_dot_step (fuel : nat) (t : gostring) (fold inner : bool)
    (items alts : list regex) (lr : bool) (ncap : nat) :
  parseSeq (S fuel) ("."%char :: t) fold inner items alts lr ncap
  = parseSeq fuel t fold inner (dot :: items) alts false ncap.
Proof. reflexivity. Qed.

Lemma globToRegex_doublestar_suffix (lit : gostring) :
  Forall (fun c => plain_byte c = true) lit ->
  globToRegex (lit ++ str "**") = inr (str "^" ++ escape lit ++ str ".*$").
Proof.
  intros H. unfold globToRegex.
  replace (length (lit ++ str "**")) with (length lit + 2)%nat
    by (rewrite length_app; reflexivity).
  rewrite globToRegex_loop_plain by exact H.
  cbn. now rewrite <- app_assoc.
Qed.

Lemma Compile_doublestar_suffix (lit : gostring) :
  Forall (fun c => plain_byte c = true) lit ->
  Compile (str "^" ++ escape lit ++ str ".*$")
  = Some (Concat BeginText
            (literals (map byteZ lit) (Concat (Repeat 0 None true dot) EndText))).
Proof.
  intros H. unfold Compile, Parse.
  rewrite checkUTF8_ascii;
    [| repeat (apply Forall_app; split); try (repeat constructor);
       now apply escape_ascii
     | lia].
  pose proof (escape_length lit) as Hl.
  replace (S (length (str "^" ++ escape lit ++ str ".*$")))
    with (S (length lit + S (S (S (S (length (escape lit) - length lit))))))
    by (rewrite !length_app; cbn [str list_ascii_of_string length]; lia).
  change (str "^" ++ escape lit ++ str ".*$")
    with ("^"%char :: escape lit ++ str ".*$").
  rewrite parseSeq_caret_step, parseSeq_plain by exact H.
  change (str ".*$") with ("."%char :: "*"%char :: "$"%char :: []).
  rewrite parseSeq_dot_step, parseSeq_star_step by reflexivity.
  rewrite parseSeq_dollar_step, parseSeq_end. cbn [pbind].
  unfold close_level. cbn [rev app alternate_of].
  rewrite !rev_app_distr, !rev_involutive. cbn [rev app].
  rewrite <- !app_assoc. cbn [app].
  rewrite concat_of_cons by (destruct lit; cbn; discriminate).
  now rewrite concat_of_literals by discriminate.
Qed.

Lemma MatchString_doublestar_suffix (lit s : gostring) :
  Forall (fun c => plain_byte c = true) lit ->
  MatchString
    (Concat BeginText
       (literals (map byteZ lit) (Concat (Repeat 0 None true dot) EndText))) s = true
  <-> prefix_matches lit s.
Proof.
  intros H. rewrite MatchString_anchored.
  rewrite ends_literals by now apply plain_ascii.
  cbn [start_state m_rest m_pos m_caps].
  unfold prefix_matches. split.
  - destruct (HasPrefix s lit) eqn:HP; [|congruence].
    apply HasPrefix_skipn in HP. intros Hne.
    destruct (ends _ _) as [|fin l] eqn:E; [congruence|].
    assert (Hin : In fin (fin :: l)) by now left. rewrite <- E in Hin.
    rewrite ends_Concat in Hin. apply in_flat_map in Hin as [x [Hx Hfin]].
    rewrite ends_Repeat in Hx. cbn [ends_times] in Hx.
    apply dotstar_sound in Hx as [w [Hw [Hr _]]]. cbn [m_rest] in Hr.
    cbn [ends] in Hfin. destruct (m_rest x); [|destruct Hfin].
    rewrite app_nil_r in Hr.
    exists w. split; [exact Hw|]. rewrite HP at 1. now rewrite Hr.
  - intros [w [Hw ->]]. rewrite HasPrefix_app_true.
    rewrite skipn_app, skipn_all, Nat.sub_diag. cbn [app skipn].
    rewrite ends_Concat, ends_Repeat. cbn [ends_times m_rest].
    pose proof (first_dotstar_all (length w) (MState (0 + length lit) w [])
                  (S (length w)) (Nat.le_refl _) ltac:(cbn [m_rest]; lia) Hw) as F.
    cbn [m_rest m_pos m_caps] in F.
    destruct (ends_star (ends dot) true (S (length w)) (MState (0 + length lit) w []))
      as [|y l]; [discriminate|].
    injection F as ->. cbn [flat_map ends m_rest app]. discriminate.
Qed.

(** X21.  A pattern of plain bytes followed by two stars is accepted, and it
    ignores besides the paths, and the paths with a base name, that begin
    with the plain bytes and go on without a newline.  The
    pattern is taken shorter than a line the scanner accepts, far below the
    size limits of package regexp, which the model leaves out. *)
Theorem doublestar_suffix_pattern (ic : IgnoreChecker) (lit : gostring) :
  Forall (fun c => plain_byte c = true) lit ->
  Z.of_nat (length (lit ++ str "**")) < MaxScanTokenSize ->
  globToRegex (lit ++ str "**") = inr (str "^" ++ escape lit ++ str ".*$") /\
  snd (AddPattern ic (lit ++ str "**")) = None /\
  forall path,
    ShouldIgnore (fst (AddPattern ic (lit ++ str "**"))) path = true <->
    ShouldIgnore ic path = true \/ prefix_matches lit path
    \/ prefix_matches lit (Base path).
Proof.
  intros H _.
  assert (C : compile_glob (lit ++ str "**")
              = Some (Concat BeginText
                        (literals (map byteZ lit)
                           (Concat (Repeat 0 None true dot) EndText)))).
  { unfold compile_glob. rewrite globToRegex_doublestar_suffix by assumption.
    now apply Compile_doublestar_suffix. }
  split; [now apply globToRegex_doublestar_suffix|].
  split; [exact (proj1 (ShouldIgnore_added ic _ _ [] C))|].
  intros path. rewrite (proj2 (ShouldIgnore_added ic _ _ path C)).
  rewrite !MatchString_doublestar_suffix by assumption. reflexivity.
Qed.

Lemma doublestar_suffix_pattern_witness :
  globToRegex (str "node_modules/" ++ str "**")
    = inr (str "^" ++ escape (str "node_modules/") ++ str ".*$") /\
  snd (AddPattern NewIgnoreChecker (str "node_modules/" ++ str "**")) = None /\
  forall path,
    ShouldIgnore (fst (AddPattern NewIgnoreChecker (str "node_modules/" ++ str "**")))
      path = true <->
    ShouldIgnore NewIgnoreChecker path = true
    \/ prefix_matches (str "node_modules/") path
    \/ prefix_matches (str "node_modules/") (Base path).
Proof.
  apply (doublestar_suffix_pattern NewIgnoreChecker (str "node_modules/")).
  - repeat constructor.
  - reflexivity.
Defined.

(** ** strings.TrimSpace on the lines of an ignore file *)

Lemma asciiSpace_ascii (c : ascii) : asciiSpace c = true -> byteZ c < RuneSelf.
Proof.
  unfold asciiSpace, between, RuneSelf. intros H.
  apply orb_true_iff in H as [H|H].
  - apply andb_true_iff in H as [_ H]. apply Z.leb_le in H. lia.
  - apply Z.eqb_eq in H. lia.
Qed.

Lemma TrimSpace_start_spaces (ws rest : gostring) :
  Forall (fun c => asciiSpace c = true) ws ->
  TrimSpace_start (ws ++ rest) = TrimSpace_start rest.
Proof.
  induction 1 as [|c ws Hc _ IH]; cbn [app TrimSpace_start]; [reflexivity|].
  pose proof (asciiSpace_ascii c Hc) as Ha.
  destruct (RuneSelf <=? byteZ c) eqn:E; [apply Z.leb_le in E; lia|].
  now rewrite Hc.
Qed.

Lemma TrimSpace_stop_spaces (ws rest : gostring) :
  Forall (fun c => asciiSpace c = true) ws ->
  TrimSpace_stop (ws ++ rest) = TrimSpace_stop rest.
Proof.
  induction 1 as [|c ws Hc _ IH]; cbn [app TrimSpace_stop]; [reflexivity|].
  pose proof (asciiSpace_ascii c Hc) as Ha.
  destruct (RuneSelf <=? byteZ c) eqn:E; [apply Z.leb_le in E; lia|].
  now rewrite Hc.
Qed.

Lemma ascii_nonspace_inv (c : ascii) :
  ascii_nonspace c = true -> (RuneSelf <=? byteZ c) = false /\ asciiSpace c = false.
Proof.
  unfold ascii_nonspace. intros H. apply andb_true_iff in H as [H1 H2].
  apply Z.ltb_lt in H1. apply negb_true_iff in H2.
  split; [apply Z.leb_gt; lia | exact H2].
Qed.

(** X22.  TrimSpace removes the ASCII white space around a text that begins and
    ends with a byte of ASCII that is no white space, and leaves the text as
    it is; so the blanks around a line of the ignore file do not count, and
    a line of blanks or an indented comment gives no pattern. *)
Theorem TrimSpace_ascii_blanks (ws1 core ws2 : gostring) :
  Forall (fun c => asciiSpace c = true) ws1 ->
  Forall (fun c => asciiSpace c = true) ws2 ->
  match core with [] => True | c :: _ => ascii_nonspace c = true end ->
  match rev core with [] => True | c :: _ => ascii_nonspace c = true end ->
  TrimSpace (ws1 ++ core ++ ws2) = core /\
  pattern_of_line (ws1 ++ core ++ ws2) =
    if gostring_eqb core [] || HasPrefix core (str "#") then None else Some core.
Proof.
  intros H1 H2 Hf Hl.
  assert (T : TrimSpace (ws1 ++ core ++ ws2) = core).
  { unfold TrimSpace. rewrite TrimSpace_start_spaces by exact H1.
    destruct core as [|c core'].
    - cbn [app]. rewrite <- (app_nil_r ws2), TrimSpace_start_spaces by exact H2.
      reflexivity.
    - cbn [app TrimSpace_start].
      destruct (ascii_nonspace_inv c Hf) as [E1 E2]. rewrite E1, E2.
      change (c :: core' ++ ws2) with ((c :: core') ++ ws2).
      rewrite rev_app_distr.
      rewrite TrimSpace_stop_spaces
        by (apply Forall_rev; exact H2).
      destruct (rev (c :: core')) as [|d r] eqn:R.
      + apply (f_equal (@rev ascii)) in R. rewrite rev_involutive in R.
        discriminate.
      + cbn [TrimSpace_stop].
        destruct (ascii_nonspace_inv d Hl) as [D1 D2]. rewrite D1, D2.
        rewrite <- R. apply rev_involutive. }
  split; [exact T|]. unfold pattern_of_line. now rewrite T.
Qed.

Lemma TrimSpace_ascii_blanks_witness :
  TrimSpace (str "  " ++ str "*.log" ++ str " ") = str "*.log" /\
  pattern_of_line (str "  " ++ str "*.log" ++ str " ") =
    if gostring_eqb (str "*.log") [] || HasPrefix (str "*.log") (str "#")
    then None else Some (str "*.log").
Proof.
  apply (TrimSpace_ascii_blanks (str "  ") (str "*.log") (str " ")).
  - repeat constructor.
  - repeat constructor.
  - reflexivity.
  - reflexivity.
Defined.

(** Outside ASCII TrimSpace goes by [unicode.IsSpace]: a no-break space
    (U+00A0), an ideographic space (U+3000) and a line separator (U+2028) are
    trimmed, an invalid byte is kept. *)
Example TrimSpace_beyond_ascii :
  TrimSpace (map byte_of_Z [194; 160; 195; 169; 227; 128; 128])
    = map byte_of_Z [195; 169] /\
  TrimSpace (map byte_of_Z [32; 97; 195; 169; 32; 226; 128; 168; 9])
    = map byte_of_Z [97; 195; 169] /\
  TrimSpace (map byte_of_Z [32; 255; 32]) = map byte_of_Z [255].
Proof. repeat split; vm_compute; reflexivity. Qed.

Lemma ScanLine_reports_exists (s : SecretScanner) (ls : list DiffLine)
    (f : Finding) (fs : list Finding) :
  ScanLines s ls = f :: fs ->
  exists line rule,
    In line ls /\ In rule (rules s) /\
    MatchString (SecretRule.Pattern rule) (DiffLine.Content line) = true.
Proof.
  intros H.
  assert (Hf : In f (ScanLines s ls)) by (rewrite H; now left).
  unfold ScanLines in Hf. apply in_flat_map in Hf as [line [Hl Hf]].
  rewrite ScanLine_findAll in Hf. apply in_flat_map in Hf as [rule [Hr Hf]].
  exists line, rule. repeat split; try assumption.
  destruct (MatchString (SecretRule.Pattern rule) (DiffLine.Content line)) eqn:E;
    [reflexivity|].
  apply findAll_nil_iff in E. rewrite E in Hf. destruct Hf.
Qed.

(** ** The scan command *)

Lemma ScanLines_nil_iff (s : SecretScanner) (ls : list DiffLine) :
  ScanLines s ls = [] <->
  forall line rule, In line ls -> In rule (rules s) ->
    MatchString (SecretRule.Pattern rule) (DiffLine.Content line) = false.
Proof.
  unfold ScanLines. split.
  - intros H line rule Hl Hr.
    apply (proj1 (ScanLine_nil_iff s (DiffLine.FilePath line)
                    (DiffLine.LineNum line) (DiffLine.Content line))); [|assumption].
    destruct (ScanLine s (DiffLine.FilePath line) (DiffLine.LineNum line)
                (DiffLine.Content line)) as [|f l] eqn:E; [reflexivity|].
    assert (Hf : In f (flat_map
              (fun line => ScanLine s (DiffLine.FilePath line)
                             (DiffLine.LineNum line) (DiffLine.Content line)) ls)).
    { apply in_flat_map. exists line. split; [assumption|]. rewrite E. now left. }
    rewrite H in Hf. destruct Hf.
  - intros H. induction ls as [|line l IH]; [reflexivity|].
    cbn [flat_map].
    rewrite (proj2 (ScanLine_nil_iff s (DiffLine.FilePath line)
                      (DiffLine.LineNum line) (DiffLine.Content line)));
      [|intros rule Hr; apply H; [now left | assumption]].
    apply IH. intros line' rule Hl Hr. apply H; [now right | assumption].
Qed.

(** X23.  The scan command blocks the commit for secrets exactly when git
    reports a repository and staged changes, its diff parses, and the
    content of some DiffLine record that parseDiff returns matches the
    pattern of one of the default rules; it lets the commit pass exactly
    when there are no staged changes or no record of parseDiff matches. *)
Theorem scanStagedChanges_verdict (g : git) :
  (snd (scanStagedChanges g) = Some SecretsDetected <->
   git_rev_parse g = None /\ git_diff_quiet g = Some (ExitError 1) /\
   exists output lines,
     git_diff_cached g = (output, None) /\ parseDiff output = (lines, None) /\
     exists line rule,
       In line lines /\ In rule (rules NewSecretScanner) /\
       MatchString (SecretRule.Pattern rule) (DiffLine.Content line) = true)
  /\
  (snd (scanStagedChanges g) = None <->
   git_rev_parse g = None /\
   (git_diff_quiet g = None \/
    git_diff_quiet g = Some (ExitError 1) /\
    exists output lines,
      git_diff_cached g = (output, None) /\ parseDiff output = (lines, None) /\
      forall line rule,
        In line lines -> In rule (rules NewSecretScanner) ->
        MatchString (SecretRule.Pattern rule) (DiffLine.Content line) = false)).
Proof.
  unfold scanStagedChanges, IsInGitRepo, HasStagedChanges, GetStagedChanges.
  destruct (git_rev_parse g) as [e|]; cbn [negb snd].
  { split; split; try discriminate; try (intros _; reflexivity); intros [H _]; discriminate. }
  destruct (git_diff_quiet g) as [[code|msg]|]; cbn [snd].
  2:{ split; split; try discriminate; try (intros _; reflexivity).
      - intros [_ [H _]]. discriminate.
      - intros [_ [H|[H _]]]; discriminate. }
  2:{ split; split; try discriminate; try (intros _; reflexivity); auto.
      intros [_ [H _]]. discriminate. }
  destruct (code =? 1) eqn:C; cbn [snd].
  2:{ apply Z.eqb_neq in C. split; split; try discriminate; try (intros _; reflexivity).
      - intros [_ [[= H] _]]. congruence.
      - intros [_ [H|[[= H] _]]]; congruence. }
  apply Z.eqb_eq in C. subst code.
  destruct (git_diff_cached g) as [output [e|]]; cbn [snd].
  { split; split; try discriminate; try (intros _; reflexivity).
    - intros [_ [_ [o [l [H _]]]]]. discriminate.
    - intros [_ [H|[_ [o [l [H _]]]]]]; discriminate. }
  destruct (parseDiff output) as [lines [e|]] eqn:P; cbn [option_map snd].
  { split; split; try discriminate; try (intros _; reflexivity).
    - intros [_ [_ [o [l [[= <-] [H _]]]]]]. congruence.
    - intros [_ [H|[_ [o [l [[= <-] [H _]]]]]]]; congruence. }
  pose proof (ScanLines_nil_iff NewSecretScanner lines) as N.
  destruct (length lines =? 0)%nat eqn:L; cbn [snd].
  { apply Nat.eqb_eq in L. destruct lines; [|discriminate]. split; split;
      try discriminate; try (intros _; reflexivity).
    - intros [_ [_ [o [l [[= <-] [H [line [rule [Hin _]]]]]]]]].
      rewrite P in H. injection H as <-. destruct Hin.
    - intros _. split; [reflexivity|]. right. split; [reflexivity|].
      exists output, []. split; [reflexivity|]. split; [exact P|].
      intros line rule []. }
  destruct (ScanLines NewSecretScanner lines) as [|f fs] eqn:S; cbn [length Nat.eqb snd].
  - split; split; try discriminate; try (intros _; reflexivity).
    + intros [_ [_ [o [l [[= <-] [H [line [rule [Hl [Hr HM]]]]]]]]]].
      rewrite P in H. injection H as <-.
      rewrite (proj1 N eq_refl line rule Hl Hr) in HM. discriminate.
    + intros _. split; [reflexivity|]. right. split; [reflexivity|].
      exists output, lines. split; [reflexivity|]. split; [exact P|].
      apply N. reflexivity.
  - split; split; try discriminate; try (intros _; reflexivity).
    + intros _. split; [reflexivity|]. split; [reflexivity|].
      exists output, lines. split; [reflexivity|]. split; [exact P|].
      destruct (ScanLine_reports_exists NewSecretScanner lines f fs S)
        as [line [rule H]].
      now exists line, rule.
    + intros [_ [H|[_ [o [l [[= <-] [H HF]]]]]]]; [discriminate|].
      rewrite P in H. injection H as <-.
      assert (X : f :: fs = []) by (apply N; exact HF). discriminate.
Qed.

(** ** rules.go: no finding is shorter than its pattern allows *)

Lemma grows_by_flat_map (n m : nat) (f g : mstate -> list mstate) :
  grows_by n f -> grows_by m g ->
  grows_by (n + m) (fun st => flat_map g (f st)).
Proof.
  intros Hf Hg st. apply Forall_flat_map.
  eapply Forall_impl; [|exact (Hf st)]. intros x Hx. cbn beta in Hx.
  eapply Forall_impl; [|exact (Hg x)]. intros y Hy. cbn beta in Hy. lia.
Qed.

Lemma grows_by_weaken (n m : nat) (f : mstate -> list mstate) :
  (m <= n)%nat -> grows_by n f -> grows_by m f.
Proof.
  intros H Hf st. eapply Forall_impl; [|exact (Hf st)].
  intros x Hx. cbn beta in Hx. lia.
Qed.

Lemma grows_by_star (body : mstate -> list mstate) (greedy : bool) (fuel : nat) :
  grows_by 0 body -> grows_by 0 (ends_star body greedy fuel).
Proof.
  intros Hb. induction fuel as [|fuel IH]; intros st; cbn [ends_star].
  - constructor; [lia | constructor].
  - assert (A : Forall (fun x => (m_pos st + 0 <= m_pos x)%nat)
              (flat_map (fun st' =>
                 if (m_pos st <? m_pos st')%nat then ends_star body greedy fuel st'
                 else []) (body st))).
    { apply Forall_flat_map. eapply Forall_impl; [|exact (Hb st)].
      intros x Hx. cbn beta in Hx.
      destruct (m_pos st <? m_pos x)%nat; [|constructor].
      eapply Forall_impl; [|exact (IH x)]. intros y Hy. cbn beta in Hy. lia. }
    destruct greedy.
    + apply Forall_app. split; [exact A|]. constructor; [lia | constructor].
    + constructor; [lia | exact A].
Qed.

Lemma grows_by_upto (body : mstate -> list mstate) (greedy : bool) (n : nat) :
  grows_by 0 body -> grows_by 0 (ends_upto body greedy n).
Proof.
  intros Hb. induction n as [|n IH]; intros st; cbn [ends_upto].
  - constructor; [lia | constructor].
  - assert (A : Forall (fun x => (m_pos st + 0 <= m_pos x)%nat)
              (flat_map (ends_upto body greedy n) (body st))).
    { apply Forall_flat_map. eapply Forall_impl; [|exact (Hb st)].
      intros x Hx. cbn beta in Hx.
      eapply Forall_impl; [|exact (IH x)]. intros y Hy. cbn beta in Hy. lia. }
    destruct greedy.
    + apply Forall_app. split; [exact A|]. constructor; [lia | constructor].
    + constructor; [lia | exact A].
Qed.

Lemma grows_by_times (k : nat) (body tail : mstate -> list mstate) (n : nat) :
  grows_by k body -> grows_by 0 tail ->
  grows_by (n * k) (ends_times body n tail).
Proof.
  intros Hb Ht. induction n as [|n IH]; cbn [ends_times Nat.mul].
  - exact Ht.
  - apply (grows_by_flat_map k (n * k) body (ends_times body n tail)); assumption.
Qed.

Lemma ends_min_runes (r : regex) : grows_by (min_runes r) (ends r).
Proof.
  induction r as [| neg ranges | | | n a IH | a IHa b IHb | a IHa b IHb
                 | min max greedy a IH]; cbn [min_runes].
  - intros st. cbn [ends]. constructor; [lia | constructor].
  - intros st. cbn [ends]. destruct (m_rest st) as [|c t] eqn:R; [constructor|].
    pose proof (DecodeRune_width (c :: t) ltac:(discriminate)) as Hw.
    destruct (DecodeRuneInString (c :: t)) as [x w]. cbn [snd] in Hw.
    destruct (class_matches neg ranges x); [|constructor].
    constructor; [|constructor]. unfold advance. cbn [m_pos]. lia.
  - intros st. cbn [ends]. destruct (m_pos st =? 0)%nat; [|constructor].
    constructor; [lia | constructor].
  - intros st. cbn [ends]. destruct (m_rest st); [|constructor].
    constructor; [lia | constructor].
  - intros st. cbn [ends]. apply Forall_map.
    eapply Forall_impl; [|exact (IH st)]. intros x Hx. exact Hx.
  - exact (grows_by_flat_map _ _ _ _ IHa IHb).
  - intros st. cbn [ends]. apply Forall_app. split.
    + eapply Forall_impl; [|exact (IHa st)]. intros x Hx. cbn beta in Hx. lia.
    + eapply Forall_impl; [|exact (IHb st)]. intros x Hx. cbn beta in Hx. lia.
  - intros st. rewrite ends_Repeat.
    apply (grows_by_times (min_runes a) (ends a)); [exact IH|].
    destruct max as [m|].
    + apply grows_by_upto. eapply grows_by_weaken; [|exact IH]. lia.
    + intros st1. apply grows_by_star. eapply grows_by_weaken; [|exact IH]. lia.
Qed.

Lemma findAll_min_runes (r : regex) (s : gostring) :
  Forall (fun m => (fst m + min_runes r <= m_pos (snd m))%nat) (findAll r s).
Proof.
  pose proof (findAll_exec r s) as H.
  eapply Forall_impl; [|exact H]. intros [a fin] Hx. cbn [fst snd] in *.
  rewrite exec_hd in Hx. cbn [m_pos m_rest] in Hx.
  pose proof (ends_min_runes r (MState a (skipn a s) [])) as G.
  destruct (ends r (MState a (skipn a s) [])) as [|y l]; [discriminate|].
  injection Hx as ->. inversion G; subst. assumption.
Qed.

(** X24.  A finding spans at least as many bytes as its pattern needs runes;
    for the default rules that is never less than 6 bytes, so no finding is
    an empty match. *)
Theorem findings_not_shorter_than_pattern (s : SecretScanner) (filePath : gostring)
    (lineNum : Z) (content : gostring) :
  Forall
    (fun f =>
       exists rule, In rule (rules s) /\
         Finding.RuleID f = SecretRule.ID rule /\
         Z.of_nat (min_runes (SecretRule.Pattern rule))
           <= Finding.EndPos f - Finding.StartPos f /\
         Finding.EndPos f - Finding.StartPos f = Z.of_nat (length (Finding.Match f)))
    (ScanLine s filePath lineNum content)
  /\
  map (fun rule => (SecretRule.ID rule, min_runes (SecretRule.Pattern rule)))
    (rules NewSecretScanner)
  = [ (str "OPENAI_API_KEY", 23%nat); (str "GITHUB_PAT", 40%nat);
      (str "AWS_ACCESS_KEY", 20%nat); (str "AWS_SECRET_KEY", 51%nat);
      (str "STRIPE_LIVE_PK", 32%nat); (str "STRIPE_LIVE_SK", 32%nat);
      (str "SLACK_TOKEN", 6%nat); (str "JWT_TOKEN", 8%nat);
      (str "GENERIC_API_KEY", 39%nat); (str "PRIVATE_KEY", 27%nat) ].
Proof.
  split; [|vm_compute; reflexivity].
  rewrite ScanLine_findAll. apply Forall_flat_map, Forall_forall. intros rule Hr.
  apply Forall_map.
  pose proof (findAll_min_runes (SecretRule.Pattern rule) content) as H1.
  pose proof (findAll_within (SecretRule.Pattern rule) content) as H2.
  rewrite Forall_forall in *. intros m Hm.
  specialize (H1 m Hm). specialize (H2 m Hm).
  exists rule. split; [exact Hr|]. split; [reflexivity|].
  cbn [finding_of Finding.EndPos Finding.StartPos Finding.Match].
  rewrite length_slice by lia. lia.
Qed.

